(** * Perpo: request coordination and response cleaning

    A shallow embedding of [src/extension.ts] (class
    [PerplexityCompletionProvider]): the text-cleaning functions
    [cleanCompletion], [cleanGeneratedCode] and [looksLikeCode], the
    context extractor [getFullMethodContext], the prompt trigger
    [isPromptBasedGeneration], and the debounced entry point
    [provideInlineCompletionItems] with its timer callback; and of the
    class [AdvancedCompletionProvider]: its context window, its cache key
    and its cache.

    JavaScript strings are sequences of UTF-16 code units.  Here a string
    is a [list char] whose characters are the code units below 256
    (Latin-1) and the two line separators U+2028 and U+2029, which a line
    of a document can hold; on these white space, line terminators, word
    characters and lower-casing are as ECMAScript defines them.

    A document is a snapshot of its lines.  Time is counted in
    milliseconds.  The run time is single-threaded: a call of the entry
    point, the expiry of a timer and the arrival of a response each run
    to their end, or to their [await] of the service, before anything
    else happens. *)

From Stdlib Require Import Ascii String.
From stdpp Require Import base list gmap strings pretty.

(** ** Strings *)

Module JS.

(** A code unit of a string: one below 256, or one of the two line
    separators, U+2028 and U+2029. *)
Inductive char : Type :=
| Latin (a : ascii)
| LS
| PS.

Coercion Latin : ascii >-> char.
Bind Scope char_scope with char.

#[global] Instance char_eq_dec : EqDecision char.
Proof. solve_decision. Defined.

(** [x === y] on code units *)
Definition char_eqb (x y : char) : bool :=
  match x, y with
  | Latin a, Latin b => Ascii.eqb a b
  | LS, LS => true
  | PS, PS => true
  | _, _ => false
  end.

Definition str (s : string) : list char := map Latin (list_ascii_of_string s).
Arguments str s%_string.

(** The value of the code unit *)
Definition code (c : char) : N :=
  match c with
  | Latin a => N_of_ascii a
  | LS => 8232
  | PS => 8233
  end.

Definition chr (c : char) : char -> bool := fun x => char_eqb x c.
Arguments chr c%_char x.

Definition rng (lo hi : char) : char -> bool :=
  fun x => (code lo <=? code x)%N && (code x <=? code hi)%N.
Arguments rng (lo hi)%_char x.

Definition oneof (ps : list (char -> bool)) : char -> bool :=
  fun x => existsb (fun p => p x) ps.

(** WhiteSpace and LineTerminator code units: TAB, LF, VT, FF, CR, SP and
    NBSP below 256, and the two line separators.  This is the set of [\s]
    and of [String.prototype.trim]. *)
Definition is_space (c : char) : bool :=
  let n := code c in
  ((9 <=? n) && (n <=? 13) || (n =? 32) || (n =? 160) ||
   (n =? 8232) || (n =? 8233))%N.

(** LineTerminator code units: LF, CR, U+2028 and U+2029 ([.] matches
    none of them). *)
Definition is_line_terminator (c : char) : bool :=
  let n := code c in
  ((n =? 10) || (n =? 13) || (n =? 8232) || (n =? 8233))%N.

Definition is_digit : char -> bool := rng "0" "9".

(** [\w] *)
Definition is_word : char -> bool :=
  oneof [rng "a" "z"; rng "A" "Z"; rng "0" "9"; chr "_"].

(** [.] without the [s] flag *)
Definition dot (c : char) : bool := negb (is_line_terminator c).

(** [[\s\S]] *)
Definition any (c : char) : bool := is_space c || negb (is_space c).

(** [toLowerCase] on one code unit; the line separators have no case. *)
Definition lower (c : char) : char :=
  match c with
  | Latin a =>
      let n := N_of_ascii a in
      if ((65 <=? n) && (n <=? 90) ||
          (192 <=? n) && (n <=? 222) && negb (n =? 215))%N
      then Latin (ascii_of_N (n + 32)) else c
  | _ => c
  end.

(** Canonicalize, for a pattern with the [i] flag and without the [u]
    flag: the upper case of the code unit, but a code unit of 128 or more
    is never mapped below 128.  The micro sign and the y with diaeresis
    have their upper case above 255, where the only code units of a
    string here are the line separators: they are left as they are. *)
Definition canon (c : char) : char :=
  match c with
  | Latin a =>
      let n := N_of_ascii a in
      if ((97 <=? n) && (n <=? 122) ||
          (224 <=? n) && (n <=? 254) && negb (n =? 247))%N
      then Latin (ascii_of_N (n - 32)) else c
  | _ => c
  end.

Definition toLowerCase (s : list char) : list char := map lower s.

Fixpoint dropWhile (p : char -> bool) (s : list char) : list char :=
  match s with
  | c :: s' => if p c then dropWhile p s' else s
  | [] => []
  end.

Definition trimStart (s : list char) : list char := dropWhile is_space s.
Definition trimEnd (s : list char) : list char :=
  rev (dropWhile is_space (rev s)).
Definition trim (s : list char) : list char := trimEnd (trimStart s).

Fixpoint startsWith (p s : list char) : bool :=
  match p, s with
  | [], _ => true
  | a :: p', b :: s' => char_eqb b a && startsWith p' s'
  | _ :: _, [] => false
  end.

Fixpoint includes (p s : list char) : bool :=
  startsWith p s ||
  match s with
  | [] => false
  | _ :: s' => includes p s'
  end.

(** [s.split(c)] for a one-character separator: never the empty array. *)
Fixpoint split (sep : char) (s : list char) : list (list char) :=
  match s with
  | [] => [[]]
  | c :: s' =>
      if char_eqb c sep then [] :: split sep s'
      else match split sep s' with
           | l :: ls => (c :: l) :: ls
           | [] => [[c]]
           end
  end.
Arguments split sep%_char s.

Fixpoint join (sep : list char) (ls : list (list char)) : list char :=
  match ls with
  | [] => []
  | [l] => l
  | l :: ls' => l ++ sep ++ join sep ls'
  end.

(** [s.substring(0, n)]: the end index is clamped to the length. *)
Definition substring0 (n : nat) (s : list char) : list char := take n s.

End JS.

(** ** Regular expressions

    A backtracking matcher in continuation-passing style, as in the
    ECMAScript specification of [RegExp]: alternatives and quantifiers
    are tried in priority order and the first success wins. *)

Module Re.
Import JS.

Inductive regex : Type :=
| Eps
| Cls (p : char -> bool)
| Cat (r1 r2 : regex)
| Alt (r1 r2 : regex)
| Star (greedy : bool) (r : regex)
| Bol
| Eol
| WordB
| Grp (r : regex).

(** The matcher state: the input before the current position (nearest
    character first), the input from it on, and the captures made so far. *)
Record mstate : Type := MState {
  prev : list char;
  rest : list char;
  caps : list (list char)
}.

Definition cont : Type := mstate -> option mstate.

Definition word_at (s : list char) : bool :=
  match s with
  | c :: _ => is_word c
  | [] => false
  end.

(** The text consumed between state [x] and a later state [y]. *)
Definition consumed (x y : mstate) : list char :=
  rev (take (length (prev y) - length (prev x)) (prev y)).

(** The loop of a quantifier [r*] or [r*?]; [body] matches [r] once.  An
    iteration that consumes nothing is rejected, so [length (rest x)]
    iterations are enough and [fuel] starts there. *)
Fixpoint star_loop (body : mstate -> cont -> option mstate) (greedy : bool)
    (k : cont) (fuel : nat) (x : mstate) : option mstate :=
  match fuel with
  | 0 => k x
  | S fuel' =>
      let iter (_ : unit) :=
        body x (fun y =>
          if length (rest y) <? length (rest x)
          then star_loop body greedy k fuel' y else None) in
      if greedy
      then match iter tt with
           | Some z => Some z
           | None => k x
           end
      else match k x with
           | Some z => Some z
           | None => iter tt
           end
  end.

Fixpoint rmatch (r : regex) (x : mstate) (k : cont) : option mstate :=
  match r with
  | Eps => k x
  | Cls p =>
      match rest x with
      | c :: s => if p c then k (MState (c :: prev x) s (caps x)) else None
      | [] => None
      end
  | Cat r1 r2 => rmatch r1 x (fun y => rmatch r2 y k)
  | Alt r1 r2 =>
      match rmatch r1 x k with
      | Some z => Some z
      | None => rmatch r2 x k
      end
  | Star greedy r1 => star_loop (rmatch r1) greedy k (length (rest x)) x
  | Bol => match prev x with [] => k x | _ :: _ => None end
  | Eol => match rest x with [] => k x | _ :: _ => None end
  | WordB =>
      if xorb (word_at (prev x)) (word_at (rest x)) then k x else None
  | Grp r1 =>
      rmatch r1 x (fun y =>
        k (MState (prev y) (rest y) (caps y ++ [consumed x y])))
  end.

(** Derived forms. *)
Definition Opt (r : regex) : regex := Alt r Eps.
Definition Plus (r : regex) : regex := Cat r (Star true r).
Definition cat (rs : list regex) : regex := foldr Cat Eps rs.
Definition alt (rs : list regex) : regex :=
  match rs with
  | [] => Eps
  | r :: rs' => foldl Alt r rs'
  end.
Definition lit (s : string) : regex :=
  cat (map (fun c => Cls (chr c)) (str s)).
(** A literal under the [i] flag. *)
Definition lit_i (s : string) : regex :=
  cat (map (fun c => Cls (fun x => char_eqb (canon x) (canon c))) (str s)).

(** The first position, from the left, at which [r] matches: the text
    before the match (nearest character first) and the end state. *)
Fixpoint search_from (r : regex) (before s : list char)
  : option (list char * mstate) :=
  match rmatch r (MState before s []) Some with
  | Some y => Some (before, y)
  | None =>
      match s with
      | [] => None
      | c :: s' => search_from r (c :: before) s'
      end
  end.

Definition search (r : regex) (s : list char) := search_from r [] s.

(** [r.test(s)] *)
Definition test (r : regex) (s : list char) : bool :=
  match search r s with Some _ => true | None => false end.

(** [s.match(r)] without the [g] flag: the captures, or [None] for null. *)
Definition exec (r : regex) (s : list char) : option (list (list char)) :=
  match search r s with
  | Some (_, y) => Some (caps y)
  | None => None
  end.

(** [s.replace(r, '')] without the [g] flag: the first match is removed. *)
Definition replace (r : regex) (s : list char) : list char :=
  match search r s with
  | Some (before, y) => rev before ++ rest y
  | None => s
  end.

(** [s.replace(r, '')] with the [g] flag: every match is removed; the
    search resumes where the last match ended, one character further
    after an empty match. *)
Fixpoint replace_all_from (fuel : nat) (r : regex) (before s : list char)
  : list char :=
  match fuel with
  | 0 => s
  | S fuel' =>
      match search_from r before s with
      | None => s
      | Some (b, y) =>
          rev (take (length b - length before) b) ++
          (if length (prev y) =? length b
           then match rest y with
                | [] => []
                | c :: s' => c :: replace_all_from fuel' r (c :: prev y) s'
                end
           else replace_all_from fuel' r (prev y) (rest y))
      end
  end.

Definition replace_all (r : regex) (s : list char) : list char :=
  replace_all_from (S (length s)) r [] s.

End Re.

(** ** The response cleaner *)

Module Sanitizer.
Import JS Re.

(** [/<think>[\s\S]*$/gi] *)
Definition thinkPattern : regex :=
  cat [lit_i "<think>"; Star true (Cls any); Eol].

(** [/^```[\s\S]*?\n?/] *)
Definition fenceOpen : regex :=
  cat [Bol; lit "```"; Star false (Cls any); Opt (Cls (chr "010"))].

(** [/\n?```$/] *)
Definition fenceClose : regex :=
  cat [Opt (Cls (chr "010")); lit "```"; Eol].

(** [/^.*?[Xx]tail.*?<stop>/]: the shape of every explanation pattern;
    [first] is the set of the first letter, [tail] the rest of the phrase. *)
Definition explanation (first : list char) (tail : string) (stop : char)
  : regex :=
  cat [Bol; Star false (Cls dot);
       Cls (oneof (map (fun c => chr c) first)); lit tail;
       Star false (Cls dot); Cls (chr stop)].

Definition looksLikeCode_keywords : list (list char) :=
  [str "the user"; str "let's see"; str "okay"; str "the code";
   str "the function"; str "wants me to"; str "complete"; str "i need";
   str "we need"; str "looking at"].

Definition identStart : char -> bool :=
  oneof [rng "a" "z"; rng "A" "Z"; chr "_"; chr "$"].
Definition identPart : char -> bool :=
  oneof [rng "a" "z"; rng "A" "Z"; rng "0" "9"; chr "_"; chr "$"].
Definition ident : regex := Cat (Cls identStart) (Star true (Cls identPart)).

Definition codePatterns : list regex :=
  [ (* /^[a-zA-Z_$][a-zA-Z0-9_$]*\s*[=+\-*/]/ *)
    cat [Bol; ident; Star true (Cls is_space);
         Cls (oneof [chr "="; chr "+"; chr "-"; chr "*"; chr "/"])];
    (* /^return\s+/ *)
    cat [Bol; lit "return"; Plus (Cls is_space)];
    (* /^[a-zA-Z_$][a-zA-Z0-9_$]*\s*\(/ *)
    cat [Bol; ident; Star true (Cls is_space); Cls (chr "(")];
    (* /^[a-zA-Z_$][a-zA-Z0-9_$]*\s*\./ *)
    cat [Bol; ident; Star true (Cls is_space); Cls (chr ".")];
    (* /^(if|for|while|switch|try|catch)\s*\(/ *)
    cat [Bol;
         Grp (alt [lit "if"; lit "for"; lit "while"; lit "switch";
                   lit "try"; lit "catch"]);
         Star true (Cls is_space); Cls (chr "(")];
    (* /^(const|let|var)\s+/ *)
    cat [Bol; Grp (alt [lit "const"; lit "let"; lit "var"]);
         Plus (Cls is_space)];
    (* /^(function|class)\s+/ *)
    cat [Bol; Grp (alt [lit "function"; lit "class"]); Plus (Cls is_space)];
    (* /^\d+/ *)
    cat [Bol; Plus (Cls is_digit)];
    (* /^[QUOTE']/ where QUOTE is the double quote, code unit 34 *)
    cat [Bol; Cls (oneof [chr "034"; chr "'"])];
    (* /^[{}\[\];]/ *)
    cat [Bol; Cls (oneof [chr "{"; chr "}"; chr "["; chr "]"; chr ";"])];
    (* /^a\b/ *)
    cat [Bol; lit "a"; WordB];
    (* /^b\b/ *)
    cat [Bol; lit "b"; WordB];
    (* /^\+/ *)
    cat [Bol; lit "+"];
    (* /^-/ *)
    cat [Bol; lit "-"];
    (* /^\*/ *)
    cat [Bol; lit "*"];
    (* /^\// *)
    cat [Bol; lit "/"] ].

Definition looksLikeCode (line : list char) : bool :=
  match line with
  | [] => false
  | _ :: _ =>
      let lowerLine := toLowerCase line in
      if existsb (fun keyword => includes keyword lowerLine)
                 looksLikeCode_keywords
      then false
      else existsb (fun pattern => test pattern line) codePatterns
  end.

Definition cleanCompletion_patterns : list regex :=
  [ explanation (str "Oo") "kay" ".";
    explanation (str "Ll") "et's see" ".";
    explanation (str "Tt") "he user" ".";
    explanation (str "Tt") "he code" ".";
    explanation (str "Tt") "he function" ".";
    explanation (str "Ii") " need to" ".";
    explanation (str "Ww") "e need" ".";
    explanation (str "Cc") "omplete" ".";
    (* /^.*?wants me to.*?\./ *)
    explanation (str "w") "ants me to" "." ].

Definition cleanGeneratedCode_patterns : list regex :=
  [ (* /^.*?[Hh]ere'?s.*?:/ *)
    cat [Bol; Star false (Cls dot); Cls (oneof [chr "H"; chr "h"]);
         lit "ere"; Opt (Cls (chr "'")); lit "s";
         Star false (Cls dot); Cls (chr ":")];
    explanation (str "Tt") "his code" ":";
    explanation (str "Tt") "he above" ":";
    explanation (str "Tt") "his will" ":";
    explanation (str "Tt") "his function" ":" ].

Definition cleanGeneratedCode (code : list char) : list char :=
  let code := replace_all thinkPattern code in
  let code := replace fenceOpen code in
  let code := replace fenceClose code in
  let code := foldl (fun code pattern => replace pattern code)
                    code cleanGeneratedCode_patterns in
  trim code.

(** The loop over the lines of [cleanCompletion]; [codeLines] is the
    array built so far. *)
Fixpoint selectCodeLines (lines codeLines : list (list char))
  : list (list char) :=
  match lines with
  | [] => codeLines
  | line :: lines' =>
      let trimmed := trim line in
      if (length codeLines =? 0) && bool_decide (trimmed = [])
      then selectCodeLines lines' codeLines
      else if looksLikeCode trimmed then codeLines ++ [line]
      else if 0 <? length codeLines then codeLines
      else selectCodeLines lines' codeLines
  end.

Definition cleanCompletion (completion : list char) : list char :=
  let completion := replace_all thinkPattern completion in
  match trim completion with
  | [] => []
  | _ :: _ =>
      let completion := replace fenceOpen completion in
      let completion := replace fenceClose completion in
      let completion := foldl (fun completion pattern =>
                                 replace pattern completion)
                              completion cleanCompletion_patterns in
      let lines := split "010" completion in
      let codeLines := selectCodeLines lines [] in
      trim (join (str (String "010" "")) codeLines)
  end.

End Sanitizer.

(** ** The context extractor *)

Module Extractor.
Import JS Re.

Record Position : Type := mkPosition { line : nat; character : nat }.

(** A [vscode.TextDocument], as a snapshot: its lines (without their
    line breaks), its language and its file name. *)
Record TextDocument : Type := mkDocument {
  lines : list (list char);
  languageId : list char;
  fileName : list char
}.

(** [document.lineAt(i).text]; [None] when [lineAt] throws (no such line). *)
Definition lineAt (document : TextDocument) (i : nat) : option (list char) :=
  lines document !! i.

(** [/^\s*\w+\s*\(/], the method pattern *)
Definition methodPattern : regex :=
  cat [Bol; Star true (Cls is_space); Plus (Cls is_word);
       Star true (Cls is_space); Cls (chr "(")].

(** The inner loop of the backward scan: the characters of the line from
    the last to the first, counting up on a closing brace and down on an
    opening one. *)
Definition countBraces (line : list char) (braceLevel : Z) : Z :=
  foldr (fun c level =>
           let level := if char_eqb c "}" then (level + 1)%Z else level in
           if char_eqb c "{" then (level - 1)%Z else level)
        braceLevel line.

Definition declarationLine (line : list char) : bool :=
  includes (str "function ") line || includes (str "const ") line ||
  includes (str "let ") line || includes (str "var ") line ||
  test methodPattern line.

(** The backward loop [for (let i = position.line; i >= 0; i--)], entered
    with [n = i + 1].  [Some (Some i)]: a declaration was found on line
    [i]; [Some None]: the loop ended without one; [None]: [lineAt] threw. *)
Fixpoint scanBack (document : TextDocument) (cursorLine : nat)
    (n : nat) (braceLevel : Z) : option (option nat) :=
  match n with
  | 0 => Some None
  | S i =>
      match lineAt document i with
      | None => None
      | Some line =>
          let braceLevel := countBraces line braceLevel in
          if (braceLevel <=? 0)%Z && declarationLine line
          then Some (Some i)
          else if (Z.of_nat i <? Z.of_nat cursorLine - 20)%Z
               then Some None
               else scanBack document cursorLine i braceLevel
      end
  end.

(** The value of [startLine] when the context lines are collected. *)
Definition contextStart (document : TextDocument) (position : Position)
  : option nat :=
  match scanBack document (line position) (S (line position)) 0%Z with
  | None => None
  | Some (Some i) => Some i
  | Some None => Some (Z.to_nat (Z.max 0 (Z.of_nat (line position) - 15)))
  end.

(** The second loop: lines [i = startLine .. position.line], the last one
    cut at the cursor; entered with [count] lines still to push. *)
Fixpoint collectLines (document : TextDocument) (position : Position)
    (prefix : list char) (i count : nat) : option (list (list char)) :=
  match count with
  | 0 => Some []
  | S count' =>
      if i =? line position
      then option_map (cons prefix)
             (collectLines document position prefix (S i) count')
      else match lineAt document i with
           | None => None
           | Some text =>
               option_map (cons text)
                 (collectLines document position prefix (S i) count')
           end
  end.

Definition getFullMethodContext (document : TextDocument)
    (position : Position) : option (list char) :=
  match lineAt document (line position) with
  | None => None
  | Some currentLine =>
      let prefix := substring0 (character position) currentLine in
      match contextStart document position with
      | None => None
      | Some startLine =>
          option_map (join (str (String "010" "")))
            (collectLines document position prefix startLine
               (S (line position) - startLine))
      end
  end.

(** [isPromptBasedGeneration] *)
Definition isPromptBasedGeneration (prefix : list char) : bool :=
  let trimmed := trim prefix in
  startsWith (str "// ") trimmed && (3 <? length trimmed).

(** [/\/\/\s*(.+)/] *)
Definition promptPattern : regex :=
  cat [lit "//"; Star true (Cls is_space); Grp (Plus (Cls dot))].

(** The user prompt of [handlePromptGeneration]:
    [prefix.match(/\/\/\s*(.+)/)], then [promptMatch[1].trim()];
    [None] when the match is null. *)
Definition userPromptOf (prefix : list char) : option (list char) :=
  match exec promptPattern prefix with
  | Some caps => Some (trim (default [] (caps !! 0)))
  | None => None
  end.

End Extractor.

(** ** The request coordinator

    The provider object and the part of the JavaScript run time it relies
    on: promises and their resolve functions, timers, cancellation tokens
    and the requests awaiting a response of the service.  A promise, a
    timer and a request are named by the number they were created with. *)

Module Coordinator.
Import JS Re Sanitizer Extractor.

Record InlineCompletionItem : Type := mkItem {
  insertText : list char;
  range : Position * Position
}.

(** What a call resolves with: the items, or [None] for [null]. *)
Definition completions : Type := option (list InlineCompletionItem).

Inductive outcome : Type :=
| Fulfilled (value : completions)
| Rejected.

Record DebounceInput : Type := mkInput {
  document : TextDocument;
  position : Position;
  token : nat
}.

Record provider : Type := mkProvider {
  apiKey : list char;
  model : list char;
  enabled : bool;
  pendingResolve : option nat;
  lastDebounceInput : option DebounceInput;
  debounceTimer : option nat
}.

Definition debounceDelay : nat := 500.

(** The body of a request to the completion service: the model, the two
    messages, the token budget, and the time limit of the call. *)
Record request : Type := mkRequest {
  req_model : list char;
  req_system : list char;
  req_user : list char;
  max_tokens : N;
  timeout : N
}.

(** An [async] function suspended at its [await axios.post(...)]. *)
Inductive suspended : Type :=
| AwaitCompletion (currentResolve : nat) (position : Position)
| AwaitGenerated (promise : nat) (position : Position)
                 (currentLine : list char).

(** The path a call of the entry point took. *)
Inductive path : Type := Refused | Threw | Prompted | Debounced.

#[global] Instance path_eq_dec : EqDecision path.
Proof. solve_decision. Defined.

Record world : Type := mkWorld {
  this : provider;
  clock : nat;
  (** armed timers, oldest first: handle and due time *)
  timers : list (nat * nat);
  next : nat;
  (** tokens whose cancellation was requested *)
  cancelled : gset nat;
  (** the calls of the entry point, by the promise they returned *)
  calls : gmap nat (path * DebounceInput);
  inflight : gmap nat suspended;
  (** every request posted to the service *)
  sent : gmap nat request;
  (** the settlements of promises, latest first: for a promise of the
      debounced path, the calls of its resolve function *)
  settled : list (nat * outcome)
}.

Definition set_this (f : provider -> provider) (w : world) : world :=
  mkWorld (f (this w)) (clock w) (timers w) (next w) (cancelled w)
          (calls w) (inflight w) (sent w) (settled w).
Definition set_clock (t : nat) (w : world) : world :=
  mkWorld (this w) t (timers w) (next w) (cancelled w)
          (calls w) (inflight w) (sent w) (settled w).
Definition set_timers (f : list (nat * nat) -> list (nat * nat)) (w : world)
  : world :=
  mkWorld (this w) (clock w) (f (timers w)) (next w) (cancelled w)
          (calls w) (inflight w) (sent w) (settled w).
Definition set_cancelled (f : gset nat -> gset nat) (w : world) : world :=
  mkWorld (this w) (clock w) (timers w) (next w) (f (cancelled w))
          (calls w) (inflight w) (sent w) (settled w).
Definition set_inflight (f : gmap nat suspended -> gmap nat suspended)
    (w : world) : world :=
  mkWorld (this w) (clock w) (timers w) (next w) (cancelled w)
          (calls w) (f (inflight w)) (sent w) (settled w).

(** A fresh name. *)
Definition fresh (w : world) : nat * world :=
  (next w,
   mkWorld (this w) (clock w) (timers w) (S (next w)) (cancelled w)
           (calls w) (inflight w) (sent w) (settled w)).

Definition record_call (p : nat) (how : path) (input : DebounceInput)
    (w : world) : world :=
  mkWorld (this w) (clock w) (timers w) (next w) (cancelled w)
          (<[p := (how, input)]> (calls w)) (inflight w) (sent w) (settled w).

(** A call [resolve(value)] of the resolve function of promise [p], or the
    return of [value] from the [async] function whose promise is [p]. *)
Definition resolve (p : nat) (value : completions) (w : world) : world :=
  mkWorld (this w) (clock w) (timers w) (next w) (cancelled w)
          (calls w) (inflight w) (sent w) ((p, Fulfilled value) :: settled w).

(** An exception leaving the [async] function whose promise is [p]. *)
Definition reject (p : nat) (w : world) : world :=
  mkWorld (this w) (clock w) (timers w) (next w) (cancelled w)
          (calls w) (inflight w) (sent w) ((p, Rejected) :: settled w).

(** [axios.post(url, requestData, ...)] followed by [await]: the request
    leaves and the caller is suspended until the response. *)
Definition post (r : request) (k : suspended) (w : world) : world :=
  let (id, w) := fresh w in
  mkWorld (this w) (clock w) (timers w) (next w) (cancelled w)
          (calls w) (<[id := k]> (inflight w)) (<[id := r]> (sent w))
          (settled w).

Definition setTimeout (delay : nat) (w : world) : nat * world :=
  let (h, w) := fresh w in
  (h, set_timers (fun ts => ts ++ [(h, clock w + delay)]) w).

Definition clearTimeout (h : nat) (w : world) : world :=
  set_timers (filter (fun t => t.1 <> h)) w.

Definition isCancellationRequested (tok : nat) (w : world) : bool :=
  bool_decide (tok ∈ cancelled w).

Definition nl : list char := str (String "010" "").
Definition dquote : list char := [(Latin "034")].

(** [buildPrompt] *)
Definition buildPrompt (context language fileName : list char)
  : list char :=
  str "Complete this " ++ language ++
  str " code at the cursor position (marked <CURSOR>):" ++ nl ++ nl ++
  str "```" ++ language ++ nl ++
  context ++ str "<CURSOR>" ++ nl ++
  str "```" ++ nl ++ nl ++
  str "Continue with the next logical line(s) of code. Return only the code that should be added.".

(** The request of [getCompletion]. *)
Definition completionRequest (model context language fileName : list char)
  : request :=
  mkRequest model
    (str "You are a code completion assistant. Complete the code at the cursor position with the next logical line(s). Return ONLY valid executable code - no explanations, no thinking, no comments about the completion, no <think> tags. Just the code that should be typed next.")
    (buildPrompt context language fileName)
    60%N 10000%N.

(** The request of [generateCodeFromPrompt]. *)
Definition generationRequest
    (model prompt context language fileName : list char) : request :=
  mkRequest model
    (str "You are a skilled " ++ language ++
     str " programmer. Generate complete, functional code based on the user's request. Return ONLY executable code - no explanations, no comments about what you're doing, no markdown formatting. Just clean, working code that fulfills the request.")
    (str "Generate " ++ language ++ str " code for this request: " ++
     dquote ++ prompt ++ dquote ++ nl ++ nl ++
     match context with
     | [] => []
     | _ :: _ =>
         str "Current context:" ++ nl ++ str "```" ++ language ++ nl ++
         context ++ nl ++ str "```"
     end ++ nl ++ nl ++
     str "File: " ++ fileName ++ nl ++ nl ++
     str "Generate complete, functional code that implements the request. Return only the code.")
    300%N 15000%N.

(** The end of the timer callback, after the [await]: the identity check,
    the call of the captured resolve function, and the [finally] block. *)
Definition complete (currentResolve : nat) (completion : completions)
    (w : world) : world :=
  if bool_decide (Some currentResolve = pendingResolve (this w))
  then set_this (fun t =>
         mkProvider (apiKey t) (model t) (enabled t) None None
                    (debounceTimer t))
         (resolve currentResolve completion w)
  else w.

(** The timer callback up to its point of suspension; the call of
    [getCompletionWithDebounce] up to the [await] of [getCompletion] is
    inlined.  A return of [getCompletionWithDebounce] before that point
    resumes the callback with no other event in between. *)
Definition onTimer (w : world) : world :=
  match pendingResolve (this w), lastDebounceInput (this w) with
  | Some currentResolve, Some input =>
      if isCancellationRequested (token input) w
      then complete currentResolve None w
      else
        match lineAt (document input) (line (position input)),
              getFullMethodContext (document input) (position input) with
        | Some _, Some contextCode =>
            post (completionRequest (model (this w)) contextCode
                    (languageId (document input)) (fileName (document input)))
                 (AwaitCompletion currentResolve (position input)) w
        | _, _ => complete currentResolve None w
        end
  | _, _ => w
  end.

(** The rest of [getCompletion] and [getCompletionWithDebounce] once the
    response is there; [None] is a failed call or a response without
    choices. *)
Definition completionOf (content : option (list char))
    (position : Position) : completions :=
  match content with
  | None => None
  | Some text =>
      let completion := cleanCompletion (trim text) in
      if 0 <? length (trim completion)
      then Some [mkItem completion (position, position)]
      else None
  end.

(** The rest of [generateCodeFromPrompt] and [handlePromptGeneration]. *)
Definition generatedOf (content : option (list char))
    (position : Position) (currentLine : list char) : completions :=
  match content with
  | None => None
  | Some text =>
      let generatedCode := cleanGeneratedCode (trim text) in
      if 0 <? length (trim generatedCode)
      then
        let lineEnd := mkPosition (line position) (length currentLine) in
        Some [mkItem (nl ++ generatedCode) (lineEnd, lineEnd)]
      else None
  end.

(** [handlePromptGeneration], whose promise is the one of the call. *)
Definition handlePromptGeneration (p : nat) (input : DebounceInput)
    (w : world) : world :=
  if isCancellationRequested (token input) w then resolve p None w
  else
    match lineAt (document input) (line (position input)) with
    | None => reject p w
    | Some currentLine =>
        let prefix := substring0 (character (position input)) currentLine in
        match userPromptOf prefix with
        | None => resolve p None w
        | Some userPrompt =>
            match getFullMethodContext (document input) (position input) with
            | None => reject p w
            | Some contextCode =>
                post (generationRequest (model (this w)) userPrompt
                        contextCode (languageId (document input))
                        (fileName (document input)))
                     (AwaitGenerated p (position input) currentLine) w
            end
        end
    end.

(** The executor of the promise of the debounced path. *)
Definition debounce (p : nat) (input : DebounceInput) (w : world) : world :=
  let w := match pendingResolve (this w) with
           | Some previous => resolve previous None w
           | None => w
           end in
  let w := set_this (fun t =>
             mkProvider (apiKey t) (model t) (enabled t) (Some p)
                        (Some input) (debounceTimer t)) w in
  let w := match debounceTimer (this w) with
           | Some h => clearTimeout h w
           | None => w
           end in
  let (h, w) := setTimeout debounceDelay w in
  set_this (fun t =>
    mkProvider (apiKey t) (model t) (enabled t) (pendingResolve t)
               (lastDebounceInput t) (Some h)) w.

(** The path of a call, decided by the first lines of the entry point. *)
Definition pathOf (input : DebounceInput) (w : world) : path :=
  if negb (enabled (this w)) || bool_decide (apiKey (this w) = [])
  then Refused
  else match lineAt (document input) (line (position input)) with
       | None => Threw
       | Some currentLine =>
           if isPromptBasedGeneration
                (substring0 (character (position input)) currentLine)
           then Prompted else Debounced
       end.

(** [provideInlineCompletionItems]: the promise returned and the world
    when the call returns. *)
Definition provideInlineCompletionItems (input : DebounceInput) (w : world)
  : nat * world :=
  let how := pathOf input w in
  let (p, w) := fresh w in
  let w := record_call p how input w in
  (p, match how with
      | Refused => resolve p None w
      | Threw => reject p w
      | Prompted => handlePromptGeneration p input w
      | Debounced => debounce p input w
      end).

(** [updateConfiguration] *)
Definition updateConfiguration (key mdl : list char) (on : bool)
    (w : world) : world :=
  set_this (fun t =>
    mkProvider key mdl on (pendingResolve t) (lastDebounceInput t)
               (debounceTimer t)) w.

(** The response to request [id] arrives and the suspended function
    resumes. *)
Definition respond (id : nat) (content : option (list char)) (w : world)
  : world :=
  match inflight w !! id with
  | None => w
  | Some k =>
      let w := set_inflight (delete id) w in
      match k with
      | AwaitCompletion currentResolve position =>
          complete currentResolve (completionOf content position) w
      | AwaitGenerated p position currentLine =>
          resolve p (generatedOf content position currentLine) w
      end
  end.

(** Timer [h] expires. *)
Definition fire (h : nat) (w : world) : world :=
  onTimer (clearTimeout h w).

(** Time passes up to [t]: the timers due by then expire, oldest first. *)
Definition advance (t : nat) (w : world) : world :=
  set_clock (Nat.max t (clock w))
    (foldl (fun w timer => fire timer.1 w) w
           (filter (fun timer => timer.2 <= t) (timers w))).

(** What the editor, the user and the service do. *)
Inductive event : Type :=
| Provide (input : DebounceInput)
| Cancel (tok : nat)
| Response (id : nat) (content : option (list char))
| Configure (key mdl : list char) (on : bool).

Definition handle (e : event) (w : world) : world :=
  match e with
  | Provide input => (provideInlineCompletionItems input w).2
  | Cancel tok => set_cancelled (union {[tok]}) w
  | Response id content => respond id content w
  | Configure key mdl on => updateConfiguration key mdl on w
  end.

(** Event [e] happens at time [t]. *)
Definition deliver (t : nat) (e : event) (w : world) : world :=
  handle e (advance t w).

Definition run (trace : list (nat * event)) (w : world) : world :=
  foldl (fun w te => deliver te.1 te.2 w) w trace.

(** The world after the constructor of the provider. *)
Definition initial (key mdl : list char) (on : bool) : world :=
  mkWorld (mkProvider key mdl on None None None) 0 [] 0 ∅ ∅ ∅ ∅ [].

Inductive reachable : world -> Prop :=
| reach_initial key mdl on : reachable (initial key mdl on)
| reach_deliver t e w : reachable w -> reachable (deliver t e w)
| reach_advance t w : reachable w -> reachable (advance t w).

End Coordinator.

(** ** The caching provider

    [AdvancedCompletionProvider]: a wider context window around the
    cursor, a cache of completions keyed by a 32-bit hash of the context,
    and one request to the service on a miss. *)

Module Advanced.
Import JS Extractor Coordinator.

(** [cacheTimeout], 5 minutes in milliseconds *)
Definition cacheTimeout : Z := 5 * 60 * 1000.

Definition cursorMark : list char := str "<CURSOR>".

(** The loop of [getExtendedContext]: lines [i = startLine .. endLine],
    entered with [count] lines still to push. *)
Fixpoint extendedLines (document : TextDocument) (position : Position)
    (i count : nat) : option (list (list char)) :=
  match count with
  | 0 => Some []
  | S count' =>
      match lineAt document i with
      | None => None
      | Some text =>
          option_map
            (cons (if i =? line position
                   then substring0 (character position) text ++ cursorMark
                   else text))
            (extendedLines document position (S i) count')
      end
  end.

(** [getExtendedContext]; [None] when [lineAt] throws. *)
Definition getExtendedContext (document : TextDocument) (position : Position)
  : option (list char) :=
  let lineCount := Z.of_nat (length (lines document)) in
  let currentLine := Z.of_nat (line position) in
  let startLine := Z.max 0 (currentLine - 20) in
  let endLine := Z.min (lineCount - 1) (currentLine + 5) in
  option_map (join nl)
    (extendedLines document position (Z.to_nat startLine)
       (Z.to_nat (endLine - startLine + 1))).

(** ToInt32: the number wrapped into the signed 32-bit range. *)
Definition to_int32 (z : Z) : Z := ((z + 2 ^ 31) mod 2 ^ 32 - 2 ^ 31)%Z.

(** [context.charCodeAt(i)] *)
Definition charCodeAt (c : char) : Z := Z.of_N (code c).

(** One turn of the loop of [generateCacheKey]:
    [hash = ((hash << 5) - hash) + char; hash = hash & hash].  The shift
    and the bitwise and work on 32-bit integers, the subtraction and the
    addition on numbers. *)
Definition hashStep (hash : Z) (c : char) : Z :=
  let hash := (to_int32 (Z.shiftl (to_int32 hash) 5) - hash + charCodeAt c)%Z in
  Z.land (to_int32 hash) (to_int32 hash).

(** The number [generateCacheKey] prints. *)
Definition contextHash (context : list char) : Z := foldl hashStep 0%Z context.

(** [generateCacheKey]: the hash in decimal. *)
Definition generateCacheKey (context : list char) : string :=
  pretty (contextHash context).

Record CacheEntry : Type := mkEntry {
  completion : list char;
  timestamp : Z
}.

(** The request of [requestCompletion]. *)
Definition requestCompletion_request (model context language : list char)
  : request :=
  mkRequest model
    (str "You are an expert " ++ language ++
     str " programmer. Complete the code at the <CURSOR> position. Provide only the code completion without explanations.")
    (str "Complete this " ++ language ++
     str " code at the <CURSOR> position:" ++ nl ++ nl ++ context)
    200%N 8000%N.

(** What [requestCompletion] returns for the content of the first choice:
    the content trimmed, or [null] when it is missing or empty. *)
Definition requestCompletion_result (content : option (list char))
  : option (list char) :=
  match content with
  | None => None
  | Some text =>
      match trim text with
      | [] => None
      | c :: t => Some (c :: t)
      end
  end.

(** [getAdvancedCompletion] up to its [await]: the answer of the cache, or
    the key and the request to send. *)
Inductive lookup_result : Type :=
| CacheHit (completion : list char)
| CacheMiss (cacheKey : string) (r : request).

Definition getAdvancedCompletion_lookup (model : list char)
    (cache : gmap string CacheEntry) (now : Z)
    (document : TextDocument) (position : Position) : option lookup_result :=
  match getExtendedContext document position with
  | None => None
  | Some context =>
      let cacheKey := generateCacheKey context in
      let miss :=
        CacheMiss cacheKey
          (requestCompletion_request model context (languageId document)) in
      match cache !! cacheKey with
      | Some cached =>
          if (now - timestamp cached <? cacheTimeout)%Z
          then Some (CacheHit (completion cached))
          else Some miss
      | None => Some miss
      end
  end.

(** [getAdvancedCompletion] after its [await], at time [now]: [reply] is
    the content of the first choice of the response, [None] when the call
    failed or the response has none.  The value returned and the cache. *)
Definition getAdvancedCompletion_store (cache : gmap string CacheEntry)
    (now : Z) (cacheKey : string) (reply : option (list char))
  : option (list char) * gmap string CacheEntry :=
  match requestCompletion_result reply with
  | Some completion =>
      (Some completion, <[cacheKey := mkEntry completion now]> cache)
  | None => (None, cache)
  end.

End Advanced.

(** * Definitions used in the statements *)

Module Spec.
Import JS Re Sanitizer Extractor Coordinator.

(** The states a match of [r] started in state [x] can end in, whatever
    the priorities: the relation the backtracking matcher searches. *)
Fixpoint lang (r : regex) (x y : mstate) : Prop :=
  match r with
  | Eps => y = x
  | Cls p =>
      exists c, p c = true /\ rest x = c :: rest y /\
                prev y = c :: prev x /\ caps y = caps x
  | Cat r1 r2 => exists m, lang r1 x m /\ lang r2 m y
  | Alt r1 r2 => lang r1 x y \/ lang r2 x y
  | Star _ r1 => rtc (lang r1) x y
  | Bol => prev x = [] /\ y = x
  | Eol => rest x = [] /\ y = x
  | WordB => xorb (word_at (prev x)) (word_at (rest x)) = true /\ y = x
  | Grp r1 =>
      exists m, lang r1 x m /\
                y = MState (prev m) (rest m) (caps m ++ [consumed x m])
  end.

(** The reasoning marker [<think>], in any letter case, at the head of [s]. *)
Fixpoint startsWith_i (p s : list char) : bool :=
  match p, s with
  | [], _ => true
  | a :: p', b :: s' => char_eqb (canon b) (canon a) && startsWith_i p' s'
  | _ :: _, [] => false
  end.

Definition marker_here (s : list char) : bool :=
  startsWith_i (str "<think>") s.

(** The index of the first occurrence of the marker in [s]. *)
Fixpoint find_marker (s : list char) : option nat :=
  if marker_here s then Some 0
  else match s with
       | [] => None
       | _ :: s' => S <$> find_marker s'
       end.

(** [s.endsWith(p)] *)
Definition endsWith (p s : list char) : bool := startsWith (rev p) (rev s).

(** [sub] occurs in [s] as a run of consecutive characters. *)
Definition infix (sub s : list char) : Prop :=
  exists u v, s = u ++ sub ++ v.

(** Every character is white space. *)
Definition all_space (l : list char) : Prop :=
  Forall (fun c => is_space c = true) l.

(** Neither the first nor the last character is white space. *)
Definition trimmed (t : list char) : Prop :=
  match t with [] => True | c :: _ => is_space c = false end /\
  match rev t with [] => True | c :: _ => is_space c = false end.

(** ** The coordinator *)

(** No resolve function of promise [p] was called, and [p] was not
    otherwise settled. *)
Definition unsettled (p : nat) (w : world) : Prop := p ∉ (settled w).*1.

(** The phases of the coordinator.  Idle: nothing is pending.  Debouncing:
    the pending request waits for its timer, the only one armed.
    Dispatched: the timer fired and the one request sent for the pending
    promise awaits its response. *)
Definition pending_ok (w : world) : Prop :=
  match pendingResolve (this w) with
  | None => lastDebounceInput (this w) = None /\ timers w = []
  | Some p =>
      exists input,
        lastDebounceInput (this w) = Some input /\
        calls w !! p = Some (Debounced, input) /\
        unsettled p w /\
        ((exists h due, timers w = [(h, due)] /\
                        debounceTimer (this w) = Some h /\
                        forall id pos,
                          inflight w !! id <> Some (AwaitCompletion p pos))
         \/
         (timers w = [] /\
          exists id, inflight w !! id =
                       Some (AwaitCompletion p (position input)) /\
                     forall id' pos,
                       inflight w !! id' = Some (AwaitCompletion p pos) ->
                       id' = id))
  end.

(** The request with name [id] was built from the context of [input]. *)
Definition request_of (input : DebounceInput) (id : nat) (w : world) : Prop :=
  exists mdl contextCode,
    getFullMethodContext (document input) (position input) =
      Some contextCode /\
    sent w !! id =
      Some (completionRequest mdl contextCode
              (languageId (document input)) (fileName (document input))).

Record inv0 (w : world) : Prop := mkInv {
  inv_nodup : NoDup (settled w).*1;
  inv_fresh_calls : forall p, is_Some (calls w !! p) -> p < next w;
  inv_fresh_settled : forall p, p ∈ (settled w).*1 -> p < next w;
  inv_fresh_inflight : forall id, is_Some (inflight w !! id) -> id < next w;
  (** a request in flight for a promise that is no longer the pending one:
      the promise was resolved with null *)
  inv_stale : forall id q pos,
    inflight w !! id = Some (AwaitCompletion q pos) ->
    pendingResolve (this w) <> Some q ->
    (q, Fulfilled None) ∈ settled w;
  (** a request in flight was built from the input of the call whose
      promise it will resolve *)
  inv_ctx : forall id q pos,
    inflight w !! id = Some (AwaitCompletion q pos) ->
    exists input,
      calls w !! q = Some (Debounced, input) /\ pos = position input /\
      request_of input id w;
  inv_gen : forall id p pos currentLine,
    inflight w !! id = Some (AwaitGenerated p pos currentLine) ->
    id = S p /\ unsettled p w /\
    exists input, calls w !! p = Some (Prompted, input);
  inv_live : forall p input,
    calls w !! p = Some (Debounced, input) -> unsettled p w ->
    pendingResolve (this w) = Some p
}.

(** What holds of every world the provider can be in. *)
Definition inv (w : world) : Prop := inv0 w /\ pending_ok w.

(** The configuration of the provider is the same in both worlds. *)
Definition same_config (w w' : world) : Prop :=
  apiKey (this w') = apiKey (this w) /\ model (this w') = model (this w) /\
  enabled (this w') = enabled (this w).

(** The promises of the debounced path that are not settled. *)
Definition live_promises (w : world) : list nat :=
  filter (fun p => p ∉ (settled w).*1)
         (filter (fun c => c.2.1 = Debounced) (map_to_list (calls w))).*1.

(** Successive calls of the entry point, each at its time: the promises
    they return and the world after the last. *)
Fixpoint provide_all (cs : list (nat * DebounceInput)) (w : world)
  : list nat * world :=
  match cs with
  | [] => ([], w)
  | (t, input) :: cs' =>
      let (p, w1) := provideInlineCompletionItems input (advance t w) in
      let (ps, w2) := provide_all cs' w1 in
      (p :: ps, w2)
  end.

(** Each call comes less than the debounce delay after the one before,
    which came at [t0]. *)
Fixpoint rapid (t0 : nat) (cs : list (nat * DebounceInput)) : Prop :=
  match cs with
  | [] => True
  | (t, _) :: cs' => t0 <= t /\ t < t0 + debounceDelay /\ rapid t cs'
  end.

(** The input is one of the inline path: the cursor line exists and its
    prefix is no prompt trigger. *)
Definition inline_input (input : DebounceInput) : Prop :=
  exists currentLine,
    lineAt (document input) (line (position input)) = Some currentLine /\
    isPromptBasedGeneration
      (substring0 (character (position input)) currentLine) = false.

(** Every armed timer is still to come, within the debounce delay. *)
Definition timers_ok (w : world) : Prop :=
  forall h due, (h, due) ∈ timers w ->
                clock w < due /\ due <= clock w + debounceDelay.

(** The text of [s] up to its first line terminator: what [.+] can take
    from the start of [s]. *)
Fixpoint first_line (s : list char) : list char :=
  match s with
  | c :: s' => if is_line_terminator c then [] else c :: first_line s'
  | [] => []
  end.

(** ** Concrete inputs *)

(** The reply [<think>reasoning...</think>], then a fenced block. *)
Definition fenced_reply : list char :=
  str "```js" ++ nl ++ str "return a + b;" ++ nl ++ str "```".
Definition think_fenced_reply : list char :=
  str "<think>reasoning...</think>" ++ nl ++ fenced_reply.

Definition prose_reply : list char := str "Here's the code: const x = 5;".

(** A reply whose first line ends with a fence. *)
Definition fence_tail_reply : list char := str "a = 1```" ++ nl ++ str "b".

Definition email_prompt : list char :=
  str "// create a function that validates email addresses".

(** A declaration on line 0, 21 plain lines below it, the cursor on the
    last line. *)
Definition far_declaration : TextDocument :=
  mkDocument (str "var y" :: replicate 21 (str "x")) (str "javascript")
             (str "far.js").
Definition far_cursor : Position := mkPosition 21 1.

Definition sum_document : TextDocument :=
  mkDocument [str "function calculateSum(a, b) {"; str "  return "]
             (str "javascript") (str "sum.js").
Definition sum_input : DebounceInput :=
  mkInput sum_document (mkPosition 1 9) 7.
Definition sum_input_earlier : DebounceInput :=
  mkInput sum_document (mkPosition 1 8) 6.

Definition prompt_document : TextDocument :=
  mkDocument [email_prompt] (str "javascript") (str "email.js").
Definition prompt_input : DebounceInput :=
  mkInput prompt_document (mkPosition 0 51) 9.

(** A prompt line with a line separator, U+2028, inside the prompt. *)
Definition separator_rest : list char := str "x" ++ [LS] ++ str "y".
Definition separator_prompt : list char := str "// " ++ separator_rest.

(** A line of code above a prompt line, with a call on each. *)
Definition mixed_document : TextDocument :=
  mkDocument [str "function calculateSum(a, b) {"; str "  return ";
              str "// add two numbers"]
             (str "javascript") (str "sum.js").
Definition mixed_inline : DebounceInput :=
  mkInput mixed_document (mkPosition 1 9) 7.
Definition mixed_prompt : DebounceInput :=
  mkInput mixed_document (mkPosition 2 18) 8.

(** A provider with a key, enabled, right after its construction. *)
Definition ready : world := initial (str "pplx-key") (str "sonar") true.

(** One inline request, debouncing. *)
Definition debouncing : world := deliver 0 (Provide sum_input) ready.

(** One inline request, dispatched when its timer expired. *)
Definition dispatched : world := advance 600 debouncing.

(** Two inline requests 100 ms apart. *)
Definition two_calls : world :=
  deliver 100 (Provide sum_input) (deliver 0 (Provide sum_input_earlier) ready).

(** An inline call, and 100 ms later a call on a prompt line. *)
Definition mixed_calls : world :=
  (provide_all [(0, mixed_inline); (100, mixed_prompt)] ready).2.

(** ** The caching provider *)

(** The polynomial hash with multiplier 31, over the integers. *)
Definition polyHash (context : list char) : Z :=
  foldl (fun h c => (31 * h + Advanced.charCodeAt c)%Z) 0%Z context.

(** ** The first character of a line of code *)

(** The characters a line accepted by [looksLikeCode] can start with: a
    letter, [_], [$], a digit, a quote, a bracket, a brace, [;] or an
    arithmetic operator. *)
Definition codeStart (c : char) : bool :=
  oneof [identStart; is_digit; chr "034"; chr "'"; chr "{"; chr "}";
         chr "["; chr "]"; chr ";"; chr "+"; chr "-"; chr "*"; chr "/"] c.

End Spec.

(** * Properties of the string operations *)

Module JSFacts.
Import JS Spec.

(** ** Equality of code units *)

Lemma char_eqb_eq x y : char_eqb x y = true <-> x = y.
Proof.
  destruct x as [a| |], y as [b| |]; simpl; try (split; congruence).
  rewrite Ascii.eqb_eq. split; congruence.
Qed.

Lemma char_eqb_refl x : char_eqb x x = true.
Proof. by apply char_eqb_eq. Qed.

Lemma char_eqb_neq x y : char_eqb x y = false <-> x <> y.
Proof.
  rewrite <- char_eqb_eq. destruct (char_eqb x y); split; congruence.
Qed.

Lemma str_app a b : str (a ++ b) = str a ++ str b.
Proof.
  unfold str. rewrite <- map_app. f_equal.
  induction a as [|c a IH]; simpl; [done|by rewrite IH].
Qed.

Lemma dropWhile_app_all p l s :
  Forall (fun c => p c = true) l -> dropWhile p (l ++ s) = dropWhile p s.
Proof. induction 1 as [|c l Hc _ IH]; simpl; [done|by rewrite Hc]. Qed.

Lemma dropWhile_stop p s :
  match s with [] => True | c :: _ => p c = false end -> dropWhile p s = s.
Proof. destruct s as [|c s]; simpl; [done|by intros ->]. Qed.

Lemma dropWhile_split p s :
  exists l, s = l ++ dropWhile p s /\ Forall (fun c => p c = true) l /\
            match dropWhile p s with [] => True | c :: _ => p c = false end.
Proof.
  induction s as [|c s (l & Hs & Hl & Hd)]; simpl.
  - by exists [].
  - destruct (p c) eqn:Hc.
    + exists (c :: l). split; [by rewrite Hs at 1|]. split; [by constructor|done].
    + exists []. simpl. by rewrite Hc.
Qed.

Lemma trim_unique l t r :
  all_space l -> all_space r -> trimmed t -> trim (l ++ t ++ r) = t.
Proof.
  intros Hl Hr [Hh Ht]. unfold trim, trimStart, trimEnd.
  rewrite dropWhile_app_all by done.
  destruct t as [|c t].
  - simpl. assert (dropWhile is_space r = []) as ->; [|done].
    rewrite <- (app_nil_r r). by rewrite dropWhile_app_all.
  - rewrite (dropWhile_stop _ ((c :: t) ++ r)) by done.
    rewrite rev_app_distr, dropWhile_app_all.
    + rewrite dropWhile_stop by done. apply rev_involutive.
    + by apply Forall_rev.
Qed.

Lemma trim_spec s :
  exists l r, s = l ++ trim s ++ r /\ all_space l /\ all_space r /\
              trimmed (trim s).
Proof.
  unfold trim, trimStart, trimEnd.
  destruct (dropWhile_split is_space s) as (l & Hs & Hl & Hh).
  destruct (dropWhile_split is_space (rev (dropWhile is_space s)))
    as (r & Hs' & Hr & Ht).
  set (a := dropWhile is_space s) in *.
  set (b := dropWhile is_space (rev a)) in *.
  exists l, (rev r). split; [|split; [done|split; [by apply Forall_rev|]]].
  - rewrite Hs at 1. f_equal. rewrite <- (rev_involutive a), Hs'.
    by rewrite rev_app_distr.
  - split; [|by rewrite rev_involutive].
    assert (Ha : a = rev b ++ rev r).
    { by rewrite <- (rev_involutive a), Hs', rev_app_distr. }
    destruct (rev b) as [|c t] eqn:E; [done|].
    rewrite Ha in Hh. done.
Qed.

Lemma trim_trimmed s : trimmed (trim s).
Proof. by destruct (trim_spec s) as (? & ? & _ & _ & _ & ?). Qed.


Lemma trim_fixed t : trimmed t -> trim t = t.
Proof.
  intros H.
  pose proof (trim_unique [] t [] (Forall_nil_2 _) (Forall_nil_2 _) H) as E.
  simpl in E. by rewrite app_nil_r in E.
Qed.

Lemma trim_idem s : trim (trim s) = trim s.
Proof. apply trim_fixed, trim_trimmed. Qed.

Lemma trim_app_l l s : all_space l -> trim (l ++ s) = trim s.
Proof.
  intros Hl. destruct (trim_spec s) as (l' & r' & Hs & Hl' & Hr' & Ht).
  rewrite Hs at 1. rewrite app_assoc. apply trim_unique; try done.
  by apply Forall_app.
Qed.

Lemma trim_app_r s r : all_space r -> trim (s ++ r) = trim s.
Proof.
  intros Hr. destruct (trim_spec s) as (l' & r' & Hs & Hl' & Hr' & Ht).
  rewrite Hs at 1. rewrite <- !app_assoc. apply trim_unique; try done.
  by apply Forall_app.
Qed.

Lemma infix_refl s : infix s s.
Proof. exists [], []. by rewrite app_nil_r. Qed.

Lemma infix_trans a b c : infix a b -> infix b c -> infix a c.
Proof.
  intros (u & v & ->) (u' & v' & ->). exists (u' ++ u), (v ++ v').
  by rewrite <- !app_assoc.
Qed.

Lemma infix_suffix u s : infix s (u ++ s).
Proof. exists u, []. by rewrite app_nil_r. Qed.

Lemma infix_prefix s v : infix s (s ++ v).
Proof. by exists [], v. Qed.

Lemma trim_infix s : infix (trim s) s.
Proof. destruct (trim_spec s) as (l & r & Hs & _). by exists l, r. Qed.

(** A line of [split] is a run of the text and holds no separator. *)
Lemma split_cons sep s : exists l ls, split sep s = l :: ls.
Proof.
  destruct s as [|c s]; simpl; [by eauto|].
  destruct (char_eqb c sep); [by eauto|]. destruct (split sep s); eauto.
Qed.

Lemma join_split sep s : join [sep] (split sep s) = s.
Proof.
  induction s as [|c s IH]; simpl; [done|].
  destruct (split_cons sep s) as (l & ls & E). rewrite E in *.
  destruct (char_eqb c sep) eqn:Ec.
  - apply char_eqb_eq in Ec as ->. simpl. by rewrite <- IH.
  - rewrite <- IH. by destruct ls.
Qed.

Lemma join_infix sep : forall ls l, In l ls -> infix l (join sep ls).
Proof.
  induction ls as [|l0 ls IH]; intros l H; [done|].
  destruct H as [<-|H].
  - destruct ls; [apply infix_refl|apply infix_prefix].
  - destruct ls as [|l1 ls]; [done|].
    eapply infix_trans; [by apply IH|].
    change (join sep (l0 :: l1 :: ls))
      with (l0 ++ sep ++ join sep (l1 :: ls)).
    rewrite app_assoc. apply infix_suffix.
Qed.

Lemma split_infix sep s l : In l (split sep s) -> infix l s.
Proof.
  intros H. rewrite <- (join_split sep s) at 1. by apply join_infix.
Qed.

Lemma split_no_sep sep : forall s l, In l (split sep s) -> ~ In sep l.
Proof.
  induction s as [|c s IH]; intros l H; simpl in H.
  - destruct H as [<-|[]]. by intros [].
  - destruct (char_eqb c sep) eqn:Ec.
    + destruct H as [<-|H]; [by intros []|by apply IH].
    + destruct (split sep s) as [|l0 ls] eqn:E.
      * destruct H as [<-|[]]. intros [->|[]].
        by rewrite char_eqb_refl in Ec.
      * destruct H as [<-|H].
        -- intros [->|H]; [by rewrite char_eqb_refl in Ec|].
           by apply (IH l0); [left|].
        -- apply IH. by right.
Qed.

Lemma split_single sep : forall s, ~ In sep s -> split sep s = [s].
Proof.
  induction s as [|c s IH]; intros H; simpl; [done|].
  destruct (char_eqb c sep) eqn:Ec.
  - apply char_eqb_eq in Ec as ->. destruct H. by left.
  - rewrite IH; [done|]. intros ?. apply H. by right.
Qed.

Lemma infix_In sub s c : infix sub s -> In c sub -> In c s.
Proof.
  intros (u & v & ->) H. apply in_or_app. right. apply in_or_app. by left.
Qed.

Lemma startsWith_app p s : startsWith p (p ++ s) = true.
Proof.
  induction p as [|a p IH]; simpl; [done|]. by rewrite char_eqb_refl.
Qed.

Lemma includes_infix p : forall u v, includes p (u ++ p ++ v) = true.
Proof.
  induction u as [|c u IH]; intros v.
  - simpl app. destruct (p ++ v) eqn:E; simpl; rewrite <- E;
      by rewrite startsWith_app.
  - simpl. rewrite IH. apply orb_true_r.
Qed.

Lemma includes_longer p w u v : includes p (u ++ (p ++ w) ++ v) = true.
Proof. rewrite <- app_assoc. apply includes_infix. Qed.

(** The marker. *)
Lemma startsWith_i_prefix p : forall s v,
  startsWith_i p s = true -> startsWith_i p (s ++ v) = true.
Proof.
  induction p as [|a p IH]; intros s v H; [done|].
  destruct s as [|b s]; simpl in *; [done|].
  apply andb_true_iff in H as [-> H]. by apply IH.
Qed.

Lemma find_marker_None s :
  find_marker s = None <-> forall u v, s = u ++ v -> marker_here v = false.
Proof.
  induction s as [|c s IH]; simpl.
  - split; [|done]. intros _ u v H.
    symmetry in H. apply app_eq_nil in H as [_ ->]. done.
  - destruct (marker_here (c :: s)) eqn:E.
    + split; [done|]. intros H. by rewrite (H [] (c :: s)) in E.
    + destruct (find_marker s) eqn:F; simpl.
      * split; [done|]. intros H.
        assert (Hn : Some n = None); [|done].
        apply (proj2 IH). intros u v ->. by apply (H (c :: u)).
      * split; [|done]. intros _ [|a u] v H; simpl in H.
        -- by subst.
        -- inversion H; subst. by apply (proj1 IH eq_refl u v).
Qed.

Lemma find_marker_infix sub s :
  infix sub s -> find_marker s = None -> find_marker sub = None.
Proof.
  intros (a & b & ->) H. apply find_marker_None. intros u v ->.
  destruct (marker_here v) eqn:E; [|done].
  rewrite find_marker_None in H.
  rewrite <- (H (a ++ u) (v ++ b)); [|by rewrite <- !app_assoc].
  symmetry. by apply startsWith_i_prefix.
Qed.

Lemma find_marker_Some s i :
  find_marker s = Some i ->
  find_marker (take i s) = None /\ marker_here (drop i s) = true /\
  i <= length s.
Proof.
  revert i. induction s as [|c s IH]; intros i H; simpl in H.
  - destruct (marker_here []) eqn:E; [|done]. by inversion H; subst.
  - destruct (marker_here (c :: s)) eqn:E.
    + inversion H; subst. simpl. split; [done|]. split; [done|lia].
    + destruct (find_marker s) as [j|] eqn:F; [|done].
      inversion H; subst. destruct (IH j eq_refl) as (Hn & Hm & Hle).
      simpl. split; [|split; [done|lia]].
      destruct (marker_here (c :: take j s)) eqn:E'.
      * exfalso. unfold marker_here in *.
        pose proof (startsWith_i_prefix _ _ (drop j s) E') as X.
        rewrite <- app_comm_cons, take_drop in X. congruence.
      * by rewrite Hn.
Qed.

End JSFacts.

(** * Properties of the regular expression matcher *)

Module ReFacts.
Import JS Re Spec JSFacts.

Lemma rmatch_sound r : forall x k z,
  rmatch r x k = Some z -> exists y, lang r x y /\ k y = Some z.
Proof.
  induction r as [|p|r1 IH1 r2 IH2|r1 IH1 r2 IH2|g r1 IH1| | | |r1 IH1];
    intros x k z H; simpl in H.
  - exists x. split; [reflexivity|done].
  - destruct x as [b [|c s] cs]; simpl in H; [done|].
    destruct (p c) eqn:Hp; [|done].
    eexists. split; [|exact H]. exists c. simpl. done.
  - apply IH1 in H as (m & Hm & H). apply IH2 in H as (y & Hy & H).
    exists y. split; [|done]. exists m. done.
  - destruct (rmatch r1 x k) eqn:E1.
    + inversion H; subst. apply IH1 in E1 as (y & Hy & E1).
      exists y. split; [by left|done].
    + apply IH2 in H as (y & Hy & H). exists y. split; [by right|done].
  - remember (length (rest x)) as fuel eqn:Hfuel. clear Hfuel.
    revert x z H. induction fuel as [|fuel IHf]; intros x z H; simpl in H.
    + exists x. split; [apply rtc_refl|done].
    + assert (Hiter : forall z',
        rmatch r1 x (fun y =>
          if length (rest y) <? length (rest x)
          then star_loop (rmatch r1) g k fuel y else None) = Some z' ->
        exists y, rtc (lang r1) x y /\ k y = Some z').
      { intros z' Hz. apply IH1 in Hz as (m & Hm & Hz).
        destruct (length (rest m) <? length (rest x)); [|done].
        apply IHf in Hz as (y & Hy & Hz).
        exists y. split; [|done]. by eapply rtc_l. }
      destruct g.
      * match type of H with
        | match ?e with _ => _ end = _ => destruct e eqn:E
        end.
        -- inversion H; subst. by apply Hiter.
        -- exists x. split; [apply rtc_refl|done].
      * destruct (k x) eqn:E.
        -- inversion H; subst. exists x. split; [apply rtc_refl|done].
        -- by apply Hiter.
  - destruct x as [[|] s cs]; simpl in H; [|done].
    eexists. split; [|exact H]. done.
  - destruct x as [b [|] cs]; simpl in H; [|done].
    eexists. split; [|exact H]. done.
  - destruct (xorb _ _) eqn:E; [|done].
    exists x. done.
  - apply IH1 in H as (m & Hm & H).
    eexists. split; [|exact H]. exists m. done.
Qed.

(** A match only moves forward: the text it consumed. *)
Lemma lang_forward r : forall x y,
  lang r x y ->
  exists m, rest x = m ++ rest y /\ prev y = rev m ++ prev x.
Proof.
  induction r as [|p|r1 IH1 r2 IH2|r1 IH1 r2 IH2|g r1 IH1| | | |r1 IH1];
    intros x y H; simpl in H.
  - subst. by exists [].
  - destruct H as (c & _ & Hr & Hp & _). exists [c]. by rewrite Hr, Hp.
  - destruct H as (m & H1 & H2).
    apply IH1 in H1 as (m1 & Hr1 & Hp1). apply IH2 in H2 as (m2 & Hr2 & Hp2).
    exists (m1 ++ m2). rewrite Hr1, Hr2, Hp2, Hp1, rev_app_distr.
    by rewrite !app_assoc.
  - destruct H as [H|H]; eauto.
  - induction H as [x|x m y H1 _ IH].
    + by exists [].
    + apply IH1 in H1 as (m1 & Hr1 & Hp1). destruct IH as (m2 & Hr2 & Hp2).
      exists (m1 ++ m2). rewrite Hr1, Hr2, Hp2, Hp1, rev_app_distr.
      by rewrite !app_assoc.
  - destruct H as [_ ->]. by exists [].
  - destruct H as [_ ->]. by exists [].
  - destruct H as [_ ->]. by exists [].
  - destruct H as (m & H1 & ->). simpl. eauto.
Qed.

Lemma search_from_sound r : forall s b b' y,
  search_from r b s = Some (b', y) ->
  exists u v, s = u ++ v /\ b' = rev u ++ b /\ lang r (MState b' v []) y.
Proof.
  induction s as [|c s IH]; intros b b' y H; simpl in H.
  - destruct (rmatch r (MState b [] []) Some) eqn:E; [|done].
    inversion H; subst. apply rmatch_sound in E as (y' & Hy & [= ->]).
    by exists [], [].
  - destruct (rmatch r (MState b (c :: s) []) Some) eqn:E.
    + inversion H; subst. apply rmatch_sound in E as (y' & Hy & [= ->]).
      by exists [], (c :: s).
    + apply IH in H as (u & v & -> & -> & H).
      exists (c :: u), v. simpl. by rewrite <- app_assoc.
Qed.

(** What [replace] removes: one run of the text, matched by [r]. *)
Lemma replace_sound r s :
  replace r s = s \/
  exists u m v z, s = u ++ m ++ v /\ replace r s = u ++ v /\
    lang r (MState (rev u) (m ++ v) []) z /\ rest z = v.
Proof.
  unfold replace, search. destruct (search_from r [] s) as [[b y]|] eqn:E.
  - right. apply search_from_sound in E as (u & v & -> & -> & H).
    destruct (lang_forward _ _ _ H) as (m & Hr & Hp). simpl in Hr, Hp.
    exists u, m, (rest y), y. rewrite app_nil_r, rev_involutive.
    rewrite app_nil_r in H. subst v. done.
  - by left.
Qed.

(** The equations of the matcher. *)
Lemma rmatch_Cat r1 r2 x k :
  rmatch (Cat r1 r2) x k = rmatch r1 x (fun y => rmatch r2 y k).
Proof. reflexivity. Qed.

Lemma rmatch_Eps x k : rmatch Eps x k = k x.
Proof. reflexivity. Qed.

Lemma rmatch_Cls p b c s cs k :
  rmatch (Cls p) (MState b (c :: s) cs) k =
  if p c then k (MState (c :: b) s cs) else None.
Proof. reflexivity. Qed.

Lemma rmatch_Grp r x k :
  rmatch (Grp r) x k =
  rmatch r x (fun y => k (MState (prev y) (rest y) (caps y ++ [consumed x y]))).
Proof. reflexivity. Qed.

Lemma search_from_nil r b :
  search_from r b [] =
  match rmatch r (MState b [] []) Some with
  | Some y => Some (b, y)
  | None => None
  end.
Proof. reflexivity. Qed.

Lemma search_from_cons r b c s :
  search_from r b (c :: s) =
  match rmatch r (MState b (c :: s) []) Some with
  | Some y => Some (b, y)
  | None => search_from r (c :: b) s
  end.
Proof. reflexivity. Qed.

Lemma replace_all_from_S fuel r before s :
  replace_all_from (S fuel) r before s =
  match search_from r before s with
  | None => s
  | Some (b, y) =>
      rev (take (length b - length before) b) ++
      (if length (prev y) =? length b
       then match rest y with
            | [] => []
            | c :: s' => c :: replace_all_from fuel r (c :: prev y) s'
            end
       else replace_all_from fuel r (prev y) (rest y))
  end.
Proof. reflexivity. Qed.

(** A pattern that starts with [^] matches at the start of the text or
    nowhere. *)
Lemma search_from_anchored r : forall s c b,
  search_from (Cat Bol r) (c :: b) s = None.
Proof. induction s as [|a s IH]; intros c b; simpl; [done|apply IH]. Qed.

Lemma search_anchored r s :
  search (Cat Bol r) s =
  match rmatch r (MState [] s []) Some with
  | Some y => Some ([], y)
  | None => None
  end.
Proof.
  unfold search. destruct s as [|c s]; simpl.
  - by destruct (rmatch r _ _).
  - destruct (rmatch r _ _); [done|apply search_from_anchored].
Qed.

(** A literal: [startsWith], then the continuation. *)
Lemma rmatch_chars l : forall b s cs k,
  rmatch (cat (map (fun c => Cls (chr c)) l)) (MState b s cs) k =
  if startsWith l s
  then k (MState (rev (take (length l) s) ++ b) (drop (length l) s) cs)
  else None.
Proof.
  induction l as [|a l IH]; intros b s cs k.
  - by destruct s.
  - destruct s as [|c s]; [done|]. cbn -[char_eqb].
    unfold chr at 1. destruct (char_eqb c a); [|done].
    cbn -[char_eqb]. fold (cat (map (fun c => Cls (chr c)) l)).
    rewrite IH. by rewrite <- app_assoc.
Qed.

Lemma rmatch_lit t b s cs k :
  rmatch (lit t) (MState b s cs) k =
  if startsWith (str t) s
  then k (MState (rev (take (length (str t)) s) ++ b)
                 (drop (length (str t)) s) cs)
  else None.
Proof. apply rmatch_chars. Qed.

Lemma rmatch_chars_i l : forall b s cs k,
  rmatch (cat (map (fun c => Cls (fun x => char_eqb (canon x) (canon c))) l))
         (MState b s cs) k =
  if startsWith_i l s
  then k (MState (rev (take (length l) s) ++ b) (drop (length l) s) cs)
  else None.
Proof.
  induction l as [|a l IH]; intros b s cs k.
  - by destruct s.
  - destruct s as [|c s]; [done|]. cbn -[char_eqb canon].
    destruct (char_eqb (canon c) (canon a)); [|done].
    cbn -[char_eqb canon].
    fold (cat (map (fun c => Cls (fun x => char_eqb (canon x) (canon c))) l)).
    rewrite IH. by rewrite <- app_assoc.
Qed.

(** The quantifiers over one character class, unfolded once. *)
Lemma rmatch_star_greedy p b s cs k :
  rmatch (Star true (Cls p)) (MState b s cs) k =
  match s with
  | c :: s' =>
      if p c
      then match rmatch (Star true (Cls p)) (MState (c :: b) s' cs) k with
           | Some z => Some z
           | None => k (MState b s cs)
           end
      else k (MState b s cs)
  | [] => k (MState b s cs)
  end.
Proof.
  destruct s as [|c s]; [done|]. cbn -[Nat.ltb].
  destruct (p c); [|done].
  by rewrite (proj2 (Nat.ltb_lt _ _) (Nat.lt_succ_diag_r _)).
Qed.

Lemma rmatch_star_lazy p b s cs k :
  rmatch (Star false (Cls p)) (MState b s cs) k =
  match k (MState b s cs) with
  | Some z => Some z
  | None =>
      match s with
      | c :: s' =>
          if p c then rmatch (Star false (Cls p)) (MState (c :: b) s' cs) k
          else None
      | [] => None
      end
  end.
Proof.
  destruct s as [|c s]; [by cbn; destruct (k _)|]. cbn -[Nat.ltb].
  destruct (k _); [done|]. destruct (p c); [|done].
  by rewrite (proj2 (Nat.ltb_lt _ _) (Nat.lt_succ_diag_r _)).
Qed.

(** A greedy class quantifier takes the whole run [u] when the
    continuation accepts what follows it. *)
Lemma rmatch_star_greedy_run p k z : forall u b v cs,
  Forall (fun c => p c = true) u ->
  k (MState (rev u ++ b) v cs) = Some z ->
  match v with c :: _ => p c = false | [] => True end ->
  rmatch (Star true (Cls p)) (MState b (u ++ v) cs) k = Some z.
Proof.
  induction u as [|a u IH]; intros b v cs Hu Hk Hv.
  - rewrite rmatch_star_greedy. simpl in *.
    destruct v as [|c v]; [done|]. by rewrite Hv.
  - rewrite rmatch_star_greedy. cbn [app]. inversion Hu; subst.
    rewrite H1. rewrite (IH (a :: b) v cs); try done.
    simpl in Hk. by rewrite <- app_assoc in Hk.
Qed.

Lemma startsWith_spec p : forall s,
  startsWith p s = true <-> exists v, s = p ++ v.
Proof.
  induction p as [|a p IH]; intros s; simpl.
  - split; [by exists s|done].
  - destruct s as [|b s].
    + split; [done|]. by intros [v ?].
    + rewrite andb_true_iff, IH, char_eqb_eq. split.
      * intros [-> [v ->]]. by exists v.
      * intros [v [= -> ->]]. split; [done|by exists v].
Qed.

(** The text a literal consumed. *)
Lemma lang_lit t x y :
  lang (lit t) x y ->
  rest x = str t ++ rest y /\ prev y = rev (str t) ++ prev x /\
  caps y = caps x.
Proof.
  unfold lit. generalize (str t) as l. clear t. intros l. revert x.
  induction l as [|a l IH]; intros x H; simpl in H.
  - by subst.
  - destruct H as (m & (c & Hc & Hr & Hp & Hcs) & H).
    apply IH in H as (Hr' & Hp' & Hcs'). unfold chr in Hc.
    apply char_eqb_eq in Hc as ->.
    rewrite Hr, Hr', Hp', Hp. simpl. rewrite <- app_assoc.
    split; [done|]. split; [done|]. congruence.
Qed.

End ReFacts.

(** * Properties of the response cleaner *)

Module SanitizerFacts.
Import JS Re Sanitizer Spec JSFacts ReFacts.

(** ** The reasoning marker *)

Lemma any_true c : any c = true.
Proof. unfold any. by destruct (is_space c). Qed.

Lemma thinkPattern_here b s :
  rmatch thinkPattern (MState b s []) Some =
  if marker_here s then Some (MState (rev s ++ b) [] []) else None.
Proof.
  unfold thinkPattern, lit_i. cbn [cat foldr].
  change (rmatch (Cat ?r1 ?r2) ?x ?k)
    with (rmatch r1 x (fun y => rmatch r2 y k)).
  rewrite rmatch_chars_i. fold (marker_here s).
  destruct (marker_here s); [|done].
  change (rmatch (Cat ?r1 ?r2) ?x ?k)
    with (rmatch r1 x (fun y => rmatch r2 y k)).
  rewrite <- (app_nil_r (drop _ s)).
  erewrite rmatch_star_greedy_run; [| |reflexivity|done].
  - f_equal. f_equal. rewrite app_assoc, <- rev_app_distr.
    by rewrite take_drop.
  - apply Forall_forall. intros. apply any_true.
Qed.

Lemma thinkPattern_search : forall s b,
  search_from thinkPattern b s =
  match find_marker s with
  | Some i => Some (rev (take i s) ++ b, MState (rev s ++ b) [] [])
  | None => None
  end.
Proof.
  induction s as [|c s IH]; intros b;
    [rewrite search_from_nil|rewrite search_from_cons];
    rewrite thinkPattern_here; simpl find_marker.
  - reflexivity.
  - destruct (marker_here (c :: s)); [done|]. rewrite IH.
    destruct (find_marker s) as [i|]; simpl; [|done].
    by rewrite <- !app_assoc.
Qed.

Lemma strip_think_none s :
  find_marker s = None -> replace_all thinkPattern s = s.
Proof.
  intros H. unfold replace_all.
  by rewrite replace_all_from_S, thinkPattern_search, H.
Qed.

Lemma strip_think_some s i :
  find_marker s = Some i -> replace_all thinkPattern s = take i s.
Proof.
  intros H. unfold replace_all.
  rewrite replace_all_from_S, thinkPattern_search, H.
  cbn [prev rest length].
  rewrite !app_nil_r, Nat.sub_0_r, firstn_all, rev_involutive.
  destruct (length (rev s) =? length (rev (take i s))); [by rewrite app_nil_r|].
  destruct (length s); [by rewrite app_nil_r|].
  rewrite replace_all_from_S, thinkPattern_search.
  by rewrite app_nil_r.
Qed.

Lemma strip_think_marker_free s :
  find_marker (replace_all thinkPattern s) = None.
Proof.
  destruct (find_marker s) as [i|] eqn:E.
  - rewrite (strip_think_some _ _ E). by apply find_marker_Some.
  - by rewrite strip_think_none.
Qed.

(** ** What the other steps remove *)

Lemma replace_anchored_infix r s : infix (replace (Cat Bol r) s) s.
Proof.
  destruct (replace_sound (Cat Bol r) s) as [->|(u & m & v & z & Hs & -> & H & _)].
  - apply infix_refl.
  - destruct H as (x & [Hp ->] & _). simpl in Hp.
    assert (u = []) as ->.
    { rewrite <- (rev_involutive u), Hp. done. }
    subst s. simpl. apply infix_suffix.
Qed.

Lemma fenceClose_ends x y :
  lang fenceClose x y ->
  rest y = [] /\ exists w, rest x = w ++ str "```".
Proof.
  intros (m1 & H1 & m2 & H2 & m3 & [Hr ->] & ->).
  apply lang_lit in H2 as (Hr2 & _). rewrite Hr, app_nil_r in Hr2.
  split; [done|].
  destruct H1 as [(c & _ & Hr1 & _)| ->].
  - exists [c]. by rewrite Hr1, Hr2.
  - by exists [].
Qed.

Lemma replace_fenceClose_infix s : infix (replace fenceClose s) s.
Proof.
  destruct (replace_sound fenceClose s) as [->|(u & m & v & z & Hs & -> & H & Hv)].
  - apply infix_refl.
  - apply fenceClose_ends in H as [Hz _]. rewrite Hz in Hv. subst v s.
    rewrite app_nil_r. apply infix_prefix.
Qed.

Lemma foldl_replace_infix ps :
  Forall (fun p => exists r, p = Cat Bol r) ps ->
  forall s, infix (foldl (fun c p => replace p c) s ps) s.
Proof.
  induction 1 as [|p ps [r ->] _ IH]; intros s; simpl.
  - apply infix_refl.
  - eapply infix_trans; [apply IH|apply replace_anchored_infix].
Qed.

Lemma cleanCompletion_patterns_anchored :
  Forall (fun p => exists r, p = Cat Bol r) cleanCompletion_patterns.
Proof. repeat constructor; by eexists. Qed.

Lemma cleanGeneratedCode_patterns_anchored :
  Forall (fun p => exists r, p = Cat Bol r) cleanGeneratedCode_patterns.
Proof. repeat constructor; by eexists. Qed.

(** ** The line selected *)

Lemma selectCodeLines_spec : forall lines,
  selectCodeLines lines [] = [] \/
  exists line, selectCodeLines lines [] = [line] /\ In line lines /\
               looksLikeCode (trim line) = true.
Proof.
  induction lines as [|line lines IH]; simpl; [by left|].
  destruct (bool_decide (trim line = [])); simpl.
  - destruct IH as [IH|(l & IH & Hin & Hl)]; [by left|].
    right. exists l. auto.
  - destruct (looksLikeCode (trim line)) eqn:E.
    + right. exists line. auto.
    + destruct IH as [IH|(l & IH & Hin & Hl)]; [by left|].
      right. exists l. auto.
Qed.

(** The result of [cleanCompletion] is empty, or it is one line of the
    text left by the earlier steps, trimmed, and it looks like code. *)
Lemma cleanCompletion_spec x :
  cleanCompletion x = [] \/
  exists line,
    cleanCompletion x = trim line /\ looksLikeCode (trim line) = true /\
    ~ In (Latin "010") line /\ infix line (replace_all thinkPattern x).
Proof.
  unfold cleanCompletion.
  destruct (trim (replace_all thinkPattern x)); [by left|].
  match goal with
  | |- context [selectCodeLines ?ls []] =>
      destruct (selectCodeLines_spec ls) as [->|(line & -> & Hin & Hl)]
  end; [by left|].
  right. exists line. split; [done|]. split; [done|].
  split; [by eapply split_no_sep|].
  apply split_infix in Hin.
  eapply infix_trans; [exact Hin|].
  eapply infix_trans;
    [apply foldl_replace_infix, cleanCompletion_patterns_anchored|].
  eapply infix_trans; [apply replace_fenceClose_infix|].
  apply replace_anchored_infix.
Qed.

Lemma cleanCompletion_infix x :
  infix (cleanCompletion x) (replace_all thinkPattern x).
Proof.
  destruct (cleanCompletion_spec x) as [->|(line & -> & _ & _ & H)].
  - by exists [], (replace_all thinkPattern x).
  - eapply infix_trans; [apply trim_infix|done].
Qed.

Lemma cleanGeneratedCode_infix x :
  infix (cleanGeneratedCode x) (replace_all thinkPattern x).
Proof.
  unfold cleanGeneratedCode.
  eapply infix_trans; [apply trim_infix|].
  eapply infix_trans;
    [apply foldl_replace_infix, cleanGeneratedCode_patterns_anchored|].
  eapply infix_trans; [apply replace_fenceClose_infix|].
  apply replace_anchored_infix.
Qed.

(** Text that holds no marker is cleaned as it is: the first step leaves
    it alone. *)
Lemma cleanCompletion_before_marker x i :
  find_marker x = Some i -> cleanCompletion x = cleanCompletion (take i x).
Proof.
  intros H. unfold cleanCompletion.
  rewrite (strip_think_some _ _ H).
  by rewrite (strip_think_none (take i x)) by by apply find_marker_Some.
Qed.

Lemma cleanGeneratedCode_before_marker x i :
  find_marker x = Some i ->
  cleanGeneratedCode x = cleanGeneratedCode (take i x).
Proof.
  intros H. unfold cleanGeneratedCode.
  rewrite (strip_think_some _ _ H).
  by rewrite (strip_think_none (take i x)) by by apply find_marker_Some.
Qed.

(** ** Cleaning a line that is already clean *)

Lemma oneof_chr first c :
  oneof (map (fun a => chr a) first) c = true -> In c first.
Proof.
  unfold oneof. rewrite existsb_exists. intros (p & Hp & Hc).
  apply in_map_iff in Hp as (a & <- & Ha). unfold chr in Hc.
  by apply char_eqb_eq in Hc as ->.
Qed.

(** A match of an explanation pattern holds its lead-in phrase. *)
Lemma explanation_contains first tail stop x y :
  lang (explanation first tail stop) x y ->
  exists a c w, In c first /\ rest x = a ++ (c :: str tail) ++ w.
Proof.
  intros (m1 & [_ ->] & m2 & H2 & m3 & H3 & m4 & H4 & _).
  apply lang_forward in H2 as (a & Hr2 & _).
  destruct H3 as (c & Hc & Hr3 & _). apply oneof_chr in Hc.
  apply lang_lit in H4 as (Hr4 & _).
  exists a, c, (rest m4). split; [done|].
  by rewrite Hr2, Hr3, Hr4.
Qed.

Lemma looksLikeCode_keyword kw s :
  In kw looksLikeCode_keywords ->
  includes kw (toLowerCase s) = true -> looksLikeCode s = false.
Proof.
  intros Hin Hkw. unfold looksLikeCode. destruct s as [|c s]; [done|].
  assert (existsb (fun keyword => includes keyword (toLowerCase (c :: s)))
                  looksLikeCode_keywords = true) as ->; [|done].
  apply existsb_exists. by exists kw.
Qed.

(** A text matched by an explanation pattern whose phrase, in lower case,
    starts with a keyword of [looksLikeCode] does not look like code. *)
Lemma explanation_keyword first tail stop kw x y :
  In kw looksLikeCode_keywords ->
  Forall (fun c => exists w, lower c :: map lower (str tail) = kw ++ w) first ->
  lang (explanation first tail stop) x y ->
  looksLikeCode (rest x) = false.
Proof.
  intros Hin Hfirst H.
  apply explanation_contains in H as (a & c & w & Hc & ->).
  rewrite Forall_forall in Hfirst.
  destruct (Hfirst c (proj2 (list_elem_of_In _ _) Hc)) as (w' & Hw).
  apply (looksLikeCode_keyword kw); [done|].
  unfold toLowerCase. rewrite !map_app. simpl map at 2. rewrite Hw.
  apply includes_longer.
Qed.

Lemma cleanCompletion_patterns_keyword :
  Forall (fun p => forall x y, lang p x y -> looksLikeCode (rest x) = false)
         cleanCompletion_patterns.
Proof.
  unfold cleanCompletion_patterns.
  repeat constructor; intros x y.
  - apply (explanation_keyword _ _ _ (str "okay"));
      [simpl; tauto|repeat constructor; by eexists].
  - apply (explanation_keyword _ _ _ (str "let's see"));
      [simpl; tauto|repeat constructor; by eexists].
  - apply (explanation_keyword _ _ _ (str "the user"));
      [simpl; tauto|repeat constructor; by eexists].
  - apply (explanation_keyword _ _ _ (str "the code"));
      [simpl; tauto|repeat constructor; by eexists].
  - apply (explanation_keyword _ _ _ (str "the function"));
      [simpl; tauto|repeat constructor; by eexists].
  - apply (explanation_keyword _ _ _ (str "i need"));
      [simpl; tauto|repeat constructor; by eexists].
  - apply (explanation_keyword _ _ _ (str "we need"));
      [simpl; tauto|repeat constructor; by eexists].
  - apply (explanation_keyword _ _ _ (str "complete"));
      [simpl; tauto|repeat constructor; by eexists].
  - apply (explanation_keyword _ _ _ (str "wants me to"));
      [simpl; tauto|repeat constructor; by eexists].
Qed.

Lemma explanations_noop ps :
  Forall (fun p => forall x y, lang p x y -> looksLikeCode (rest x) = false) ps ->
  Forall (fun p => exists r, p = Cat Bol r) ps ->
  forall s, looksLikeCode s = true ->
  foldl (fun c p => replace p c) s ps = s.
Proof.
  intros Hkw Hanch s Hs. induction Hkw as [|p ps Hp _ IH]; [done|].
  inversion Hanch as [|? ? [r ->] Hanch']; subst. simpl.
  assert (replace (Cat Bol r) s = s) as ->; [|by apply IH].
  unfold replace. rewrite search_anchored.
  destruct (rmatch r (MState [] s []) Some) as [z|] eqn:E; [|done].
  exfalso. apply rmatch_sound in E as (y & Hy & _).
  assert (Hl : lang (Cat Bol r) (MState [] s []) y).
  { exists (MState [] s []). done. }
  apply Hp in Hl. simpl in Hl. congruence.
Qed.

Lemma fenceOpen_noop s :
  startsWith (str "```") s = false -> replace fenceOpen s = s.
Proof.
  intros H. unfold replace, fenceOpen. cbn [cat foldr].
  rewrite search_anchored.
  change (rmatch (Cat ?r1 ?r2) ?x ?k)
    with (rmatch r1 x (fun y => rmatch r2 y k)).
  by rewrite rmatch_lit, H.
Qed.

Lemma fenceClose_noop s :
  endsWith (str "```") s = false -> replace fenceClose s = s.
Proof.
  intros H.
  destruct (replace_sound fenceClose s)
    as [->|(u & m & v & z & Hs & _ & Hl & _)]; [done|].
  exfalso. apply fenceClose_ends in Hl as [_ (w & Hw)]. simpl in Hw.
  unfold endsWith in H. rewrite Hs, Hw, app_assoc, rev_app_distr in H.
  by rewrite startsWith_app in H.
Qed.

(** No code pattern accepts a line that starts with a backtick. *)
Lemma looksLikeCode_backtick t : looksLikeCode ((Latin "`") :: t) = false.
Proof.
  unfold looksLikeCode.
  destruct (existsb _ looksLikeCode_keywords); [done|].
  unfold codePatterns. cbn [existsb cat foldr]. unfold test.
  rewrite !search_anchored. reflexivity.
Qed.

Lemma cleanCompletion_fixed r :
  r <> [] -> trimmed r -> ~ In (Latin "010") r ->
  looksLikeCode r = true -> find_marker r = None ->
  endsWith (str "```") r = false ->
  cleanCompletion r = r.
Proof.
  intros Hne Htrim Hnl Hcode Hmark Hfence. unfold cleanCompletion.
  rewrite (strip_think_none _ Hmark), (trim_fixed _ Htrim).
  destruct r as [|c r]; [done|].
  rewrite fenceOpen_noop.
  2:{ destruct (char_eqb c "`") eqn:Ec.
      - apply char_eqb_eq in Ec as ->.
        by rewrite looksLikeCode_backtick in Hcode.
      - simpl. by rewrite Ec. }
  rewrite fenceClose_noop by done.
  rewrite (explanations_noop _ cleanCompletion_patterns_keyword
             cleanCompletion_patterns_anchored) by done.
  rewrite split_single by done.
  cbn [selectCodeLines]. rewrite (trim_fixed _ Htrim), Hcode.
  rewrite andb_false_r. simpl. by apply trim_fixed.
Qed.

(** ** What the cleaners return on any text *)

Lemma strip_think_infix s : infix (replace_all thinkPattern s) s.
Proof.
  destruct (find_marker s) as [i|] eqn:E.
  - rewrite (strip_think_some _ _ E). exists [], (drop i s).
    by rewrite take_drop.
  - rewrite strip_think_none by done. apply infix_refl.
Qed.

Lemma looksLikeCode_no_keyword line kw :
  looksLikeCode line = true -> In kw looksLikeCode_keywords ->
  includes kw (toLowerCase line) = false.
Proof.
  intros H Hin. destruct (includes kw (toLowerCase line)) eqn:E; [|done].
  by rewrite (looksLikeCode_keyword kw line Hin E) in H.
Qed.

(** A line taken for code starts with one of a few characters. *)
Lemma looksLikeCode_start c t :
  looksLikeCode (c :: t) = true -> codeStart c = true.
Proof.
  intros H. destruct (codeStart c) eqn:Hc; [done|]. exfalso.
  unfold looksLikeCode in H.
  destruct (existsb _ looksLikeCode_keywords); [done|].
  revert H. unfold codePatterns. cbn [existsb cat foldr]. unfold test.
  rewrite !search_anchored.
  destruct c as [[[] [] [] [] [] [] [] []]| |];
    first [discriminate Hc | by vm_compute].
Qed.

(** ** Text the prompt-mode cleaner leaves alone *)

Lemma canon_lt c : char_eqb (canon c) (canon "<") = true -> c = (Latin "<").
Proof. by destruct c as [[[] [] [] [] [] [] [] []]| |]. Qed.

Lemma find_marker_no_lt s : ~ In (Latin "<") s -> find_marker s = None.
Proof.
  intros H. apply find_marker_None. intros u v ->.
  destruct v as [|c v]; [done|]. unfold marker_here.
  change (str "<think>") with (Latin "<" :: str "think>").
  cbn [startsWith_i].
  destruct (char_eqb (canon c) (canon "<")) eqn:E; [|done].
  apply canon_lt in E as ->. destruct H. apply in_or_app. right. by left.
Qed.

Lemma startsWith_fence_backtick s :
  startsWith (str "```") s = true -> In (Latin "`") s.
Proof. intros (v & ->)%startsWith_spec. by left. Qed.

Lemma no_backtick_fences s :
  ~ In (Latin "`") s ->
  startsWith (str "```") s = false /\ endsWith (str "```") s = false.
Proof.
  intros H. split.
  - destruct (startsWith (str "```") s) eqn:E; [|done].
    by apply startsWith_fence_backtick in E.
  - unfold endsWith. destruct (startsWith _ _) eqn:E; [|done].
    apply startsWith_fence_backtick in E. by apply in_rev in E.
Qed.

(** A match of an explanation pattern holds its closing character. *)
Lemma explanation_stop first tail stop x y :
  lang (explanation first tail stop) x y -> In stop (rest x).
Proof.
  intros (m1 & [_ ->] & m2 & H2 & m3 & H3 & m4 & H4 & m5 & H5 & m6 & H6 & _).
  apply lang_forward in H2 as (a & Hr2 & _).
  destruct H3 as (c & _ & Hr3 & _). apply lang_lit in H4 as (Hr4 & _).
  apply lang_forward in H5 as (b & Hr5 & _).
  destruct H6 as (d & Hd & Hr6 & _). unfold chr in Hd.
  apply char_eqb_eq in Hd as ->.
  rewrite Hr2, Hr3, Hr4, Hr5, Hr6. apply list_elem_of_In.
  repeat (rewrite elem_of_app || rewrite elem_of_cons). intuition.
Qed.

Lemma cleanGeneratedCode_patterns_colon :
  Forall (fun p => forall x y, lang p x y -> In (Latin ":") (rest x))
         cleanGeneratedCode_patterns.
Proof.
  unfold cleanGeneratedCode_patterns.
  repeat constructor; intros x y; try apply explanation_stop.
  intros (m1 & [_ ->] & m2 & H2 & m3 & H3 & m4 & H4 & m5 & H5 & m6 & H6
          & m7 & H7 & m8 & H8 & ->).
  apply lang_forward in H2 as (a & Hr2 & _).
  destruct H3 as (c & _ & Hr3 & _). apply lang_lit in H4 as (Hr4 & _).
  apply (lang_forward (Opt (Cls (chr "'")))) in H5 as (b & Hr5 & _).
  apply lang_lit in H6 as (Hr6 & _).
  apply lang_forward in H7 as (e & Hr7 & _).
  destruct H8 as (d & Hd & Hr8 & _). unfold chr in Hd.
  apply char_eqb_eq in Hd as ->.
  rewrite Hr2, Hr3, Hr4, Hr5, Hr6, Hr7, Hr8. apply list_elem_of_In.
  repeat (rewrite elem_of_app || rewrite elem_of_cons). intuition.
Qed.

Lemma foldl_replace_keep (Q : list char -> Prop) ps :
  Forall (fun p => forall x y, lang p x y -> Q (rest x)) ps ->
  Forall (fun p => exists r, p = Cat Bol r) ps ->
  forall s, ~ Q s -> foldl (fun c p => replace p c) s ps = s.
Proof.
  intros HQ Hanch s Hs. induction HQ as [|p ps Hp _ IH]; [done|].
  inversion Hanch as [|? ? [r ->] Hanch']; subst. simpl.
  assert (replace (Cat Bol r) s = s) as ->; [|by apply IH].
  unfold replace. rewrite search_anchored.
  destruct (rmatch r (MState [] s []) Some) as [z|] eqn:E; [|done].
  exfalso. apply rmatch_sound in E as (y & Hy & _). apply Hs.
  apply (Hp (MState [] s []) y). by exists (MState [] s []).
Qed.

Lemma cleanGeneratedCode_plain x :
  ~ In (Latin "<") x -> ~ In (Latin "`") x -> ~ In (Latin ":") x ->
  cleanGeneratedCode x = trim x.
Proof.
  intros Hlt Hbt Hcolon. unfold cleanGeneratedCode.
  rewrite (strip_think_none _ (find_marker_no_lt _ Hlt)).
  destruct (no_backtick_fences _ Hbt) as [Ho Hc].
  rewrite fenceOpen_noop, fenceClose_noop by done.
  by rewrite (foldl_replace_keep _ _ cleanGeneratedCode_patterns_colon
                cleanGeneratedCode_patterns_anchored).
Qed.

(** ** A fenced block *)

Lemma search_from_complete r : forall u b v y,
  rmatch r (MState (rev u ++ b) v []) Some = Some y ->
  is_Some (search_from r b (u ++ v)).
Proof.
  induction u as [|c u IH]; intros b v y H; simpl in H.
  - destruct v; simpl; by rewrite H.
  - cbn [app]. rewrite search_from_cons.
    destruct (rmatch r (MState b (c :: u ++ v) []) Some); [done|].
    apply (IH (c :: b) v y). by rewrite <- app_assoc in H.
Qed.

(** The opening pattern takes the three backticks and a line break right
    after them, nothing more. *)
Lemma fenceOpen_strip s :
  replace fenceOpen (str "```" ++ s) =
  match s with
  | c :: s' => if char_eqb c "010" then s' else s
  | [] => []
  end.
Proof.
  unfold replace, fenceOpen. cbn [cat foldr]. rewrite search_anchored.
  rewrite rmatch_Cat, rmatch_lit, startsWith_app.
  cbn [str list_ascii_of_string map length take drop app rev].
  rewrite rmatch_Cat, rmatch_star_lazy. unfold Opt.
  rewrite rmatch_Cat. cbn [rmatch rest prev caps].
  destruct s as [|c s]; [done|]. unfold chr. cbn -[char_eqb].
  by destruct (char_eqb c "010").
Qed.

Lemma fenceClose_ends_with x y :
  lang fenceClose x y ->
  rest y = [] /\
  (rest x = str "```" \/ rest x = (Latin "010") :: str "```").
Proof.
  intros (m1 & H1 & m2 & H2 & m3 & [Hr ->] & ->).
  apply lang_lit in H2 as (Hr2 & _). rewrite Hr, app_nil_r in Hr2.
  split; [done|].
  destruct H1 as [(c & Hc & Hr1 & _)| ->].
  - right. unfold chr in Hc. apply char_eqb_eq in Hc as ->.
    by rewrite Hr1, Hr2.
  - by left.
Qed.

(** The closing pattern takes the three backticks that end the text and
    a line break right before them, nothing more. *)
Lemma fenceClose_strip t :
  ~ In (Latin "`") t ->
  exists u w, replace fenceClose (t ++ str "```") = u /\ t = u ++ w /\
              (w = [] \/ w = [(Latin "010")]).
Proof.
  intros Hbt. unfold replace, search.
  destruct (search_from_complete fenceClose t [] (str "```")
              (MState (rev (str "```") ++ rev t ++ []) [] []) eq_refl)
    as [[b y] E].
  rewrite E. apply search_from_sound in E as (u & v & Hs & -> & H).
  apply fenceClose_ends_with in H as [Hy Hv]. cbn [rest] in Hv.
  rewrite Hy, !app_nil_r, rev_involutive.
  destruct Hv as [->| ->].
  - apply app_inv_tail in Hs. exists u, []. rewrite app_nil_r. auto.
  - change ((Latin "010") :: str "```") with ([(Latin "010")] ++ str "```") in Hs.
    rewrite app_assoc in Hs. apply app_inv_tail in Hs.
    exists u, [(Latin "010")]. auto.
Qed.

Lemma cleanGeneratedCode_fenced inner :
  ~ In (Latin "<") inner -> ~ In (Latin "`") inner -> ~ In (Latin ":") inner ->
  cleanGeneratedCode (str "```" ++ inner ++ str "```") = trim inner.
Proof.
  intros Hlt Hbt Hcolon. unfold cleanGeneratedCode.
  rewrite strip_think_none.
  2:{ apply find_marker_no_lt. intros [H|H]%in_app_or.
      - simpl in H. intuition discriminate.
      - apply in_app_or in H as [H|H]; [done|].
        simpl in H. intuition discriminate. }
  rewrite fenceOpen_strip.
  set (t := match inner with
            | c :: s' => if char_eqb c "010" then s' else inner
            | [] => []
            end).
  assert (Ht : exists l, inner = l ++ t /\ all_space l).
  { subst t. destruct inner as [|c s];
      [exists []; split; [done|constructor]|].
    destruct (char_eqb c "010") eqn:E.
    - apply char_eqb_eq in E as ->. exists [(Latin "010")].
      split; [done|by repeat constructor].
    - exists []. split; [done|constructor]. }
  destruct Ht as (l & Hinner & Hl).
  assert (Hshape : match inner ++ str "```" with
                   | c :: s' =>
                       if char_eqb c "010" then s' else inner ++ str "```"
                   | [] => []
                   end = t ++ str "```").
  { subst t. destruct inner as [|c s]; [done|]. simpl.
    by destruct (char_eqb c "010"). }
  rewrite Hshape.
  assert (Hbt' : ~ In (Latin "`") t).
  { intros H. apply Hbt. rewrite Hinner. apply in_or_app. by right. }
  destruct (fenceClose_strip t Hbt') as (u & w & -> & Htu & Hw).
  rewrite (foldl_replace_keep _ _ cleanGeneratedCode_patterns_colon
             cleanGeneratedCode_patterns_anchored).
  - rewrite Hinner, Htu, trim_app_l by done. symmetry. apply trim_app_r.
    destruct Hw as [->| ->]; by repeat constructor.
  - intros H. apply Hcolon. rewrite Hinner, Htu.
    apply in_or_app. right. apply in_or_app. by left.
Qed.

(** ** Blank text and trimmed results *)

Lemma all_space_infix a b : infix a b -> all_space b -> all_space a.
Proof.
  intros (u & v & ->) H. unfold all_space in *.
  apply Forall_app in H as [_ H]. by apply Forall_app in H as [H _].
Qed.

Lemma trimmed_all_space t : trimmed t -> all_space t -> t = [].
Proof.
  intros [Hhd _] Hsp. destruct t as [|c t]; [done|].
  inversion Hsp; subst. congruence.
Qed.

Lemma cleanCompletion_trimmed x : trimmed (cleanCompletion x).
Proof.
  unfold cleanCompletion. destruct (trim (replace_all thinkPattern x));
    [done|apply trim_trimmed].
Qed.

Lemma cleanGeneratedCode_trimmed x : trimmed (cleanGeneratedCode x).
Proof. apply trim_trimmed. Qed.

Lemma cleaners_blank x :
  all_space x -> cleanCompletion x = [] /\ cleanGeneratedCode x = [].
Proof.
  intros Hsp. split.
  - apply trimmed_all_space; [apply cleanCompletion_trimmed|].
    eapply all_space_infix; [|exact Hsp].
    eapply infix_trans; [apply cleanCompletion_infix|apply strip_think_infix].
  - apply trimmed_all_space; [apply cleanGeneratedCode_trimmed|].
    eapply all_space_infix; [|exact Hsp].
    eapply infix_trans; [apply cleanGeneratedCode_infix|apply strip_think_infix].
Qed.

Lemma cleanCompletion_marker_free x : find_marker (cleanCompletion x) = None.
Proof.
  eapply find_marker_infix; [apply cleanCompletion_infix|].
  apply strip_think_marker_free.
Qed.

Lemma cleanGeneratedCode_marker_free x :
  find_marker (cleanGeneratedCode x) = None.
Proof.
  eapply find_marker_infix; [apply cleanGeneratedCode_infix|].
  apply strip_think_marker_free.
Qed.

Lemma cleanCompletion_line x :
  cleanCompletion x <> [] ->
  ~ In (Latin "010") (cleanCompletion x) /\
  looksLikeCode (cleanCompletion x) = true.
Proof.
  intros Hne. destruct (cleanCompletion_spec x) as [H|(l & H & Hc & Hnl & _)];
    [done|].
  rewrite H. split; [|done].
  intros Hin. apply Hnl. eapply infix_In; [apply trim_infix|done].
Qed.

End SanitizerFacts.

(** * Properties of the prompt trigger *)

Module ExtractorFacts.
Import JS Re Extractor Spec JSFacts ReFacts.

Lemma consumed_run b m s s' cs cs' :
  consumed (MState b s cs) (MState (rev m ++ b) s' cs') = m.
Proof.
  unfold consumed. cbn [prev].
  rewrite length_app, length_rev, Nat.add_sub.
  rewrite <- (length_rev m), take_app_length. apply rev_involutive.
Qed.

Lemma space_not_slash c : is_space c = true -> char_eqb c "/" = false.
Proof.
  intros H. destruct (char_eqb c "/") eqn:E; [|done].
  apply char_eqb_eq in E as ->. done.
Qed.

Lemma promptPattern_skip : forall l b s,
  all_space l ->
  search_from promptPattern b (l ++ s) = search_from promptPattern (rev l ++ b) s.
Proof.
  induction l as [|c l IH]; intros b s H; [done|].
  inversion H; subst. cbn [app]. rewrite search_from_cons.
  unfold promptPattern at 1. cbn [cat foldr].
  change (rmatch (Cat ?r1 ?r2) ?x ?k)
    with (rmatch r1 x (fun y => rmatch r2 y k)).
  rewrite rmatch_lit. cbn [str list_ascii_of_string map startsWith].
  rewrite space_not_slash by done. cbn [andb].
  rewrite IH by done. simpl. by rewrite <- app_assoc.
Qed.

Lemma isPromptBasedGeneration_spec prefix :
  isPromptBasedGeneration prefix = true <->
  exists rest, trim prefix = str "// " ++ rest /\
               exists c, In c rest /\ is_space c = false.
Proof.
  unfold isPromptBasedGeneration. rewrite andb_true_iff, startsWith_spec.
  rewrite Nat.ltb_lt. split.
  - intros [[rest Hr] Hlen]. exists rest. split; [done|].
    destruct (trim_trimmed prefix) as [_ Hlast]. rewrite Hr in Hlast, Hlen.
    rewrite rev_app_distr in Hlast. rewrite length_app in Hlen.
    destruct (rev rest) as [|c t] eqn:E.
    + assert (rest = []) as -> by by rewrite <- (rev_involutive rest), E.
      simpl in Hlen. lia.
    + exists c. split; [|done]. apply in_rev. rewrite E. by left.
  - intros (rest & Hr & c & Hc & _). split; [by exists rest|].
    rewrite Hr, length_app. destruct rest; [done|]. simpl. lia.
Qed.

(** ** The prompt pattern always matches a trigger line *)

Lemma terminator_is_space c : is_line_terminator c = true -> is_space c = true.
Proof. by destruct c as [[[] [] [] [] [] [] [] []]| |]. Qed.

Lemma rmatch_star_greedy_total p k :
  (forall y, is_Some (k y)) ->
  forall s b cs, is_Some (rmatch (Star true (Cls p)) (MState b s cs) k).
Proof.
  intros Hk. induction s as [|c s IH]; intros b cs;
    rewrite rmatch_star_greedy; [done|].
  destruct (p c); [|done].
  destruct (rmatch _ _ _) eqn:E; [done|].
  destruct (IH (c :: b) cs) as [z Hz]. congruence.
Qed.

Lemma userPromptOf_total prefix :
  isPromptBasedGeneration prefix = true -> is_Some (userPromptOf prefix).
Proof.
  intros H. apply isPromptBasedGeneration_spec in H as (rest & Ht & c & Hc & Hsp).
  destruct (trim_spec prefix) as (l & r & Hp & Hl & Hr & _).
  destruct (dropWhile_split is_space rest) as (w & Hrest & Hw & Hd).
  destruct (dropWhile is_space rest) as [|a d] eqn:Ed.
  { rewrite app_nil_r in Hrest. subst w. rewrite Forall_forall in Hw.
    rewrite (Hw c (proj2 (list_elem_of_In _ _) Hc)) in Hsp. done. }
  rewrite Ht, Hrest in Hp. unfold userPromptOf, exec, search. rewrite Hp.
  rewrite promptPattern_skip by done.
  cbn [app str list_ascii_of_string map]. rewrite search_from_cons.
  unfold promptPattern at 1. cbn [cat foldr].
  rewrite rmatch_Cat, rmatch_lit.
  cbn [str list_ascii_of_string map startsWith length take drop rev app].
  rewrite !char_eqb_refl. cbn [andb]. rewrite rmatch_Cat.
  rewrite <- !app_assoc.
  change ((Latin " ") :: w ++ (a :: d) ++ r)
    with (((Latin " ") :: w) ++ (a :: d) ++ r).
  assert (Hu : all_space ((Latin " ") :: w)) by by constructor.
  match goal with
  | |- context [rmatch (Star true (Cls is_space)) (MState ?b _ _) ?k] =>
      destruct (k (MState (rev ((Latin " ") :: w) ++ b) ((a :: d) ++ r) []))
        as [z|] eqn:Ek
  end.
  - rewrite (rmatch_star_greedy_run _ _ _ _ _ ((a :: d) ++ r) [] Hu Ek Hd).
    done.
  - exfalso. revert Ek. unfold Plus.
    rewrite rmatch_Cat, rmatch_Grp, rmatch_Cat.
    cbn [app]. rewrite rmatch_Cls.
    assert (dot a = true) as ->.
    { unfold dot. destruct (is_line_terminator a) eqn:E; [|done].
      apply terminator_is_space in E. congruence. }
    intros Ek.
    match type of Ek with
    | rmatch _ (MState ?b ?s ?cs) ?k = None =>
        destruct (rmatch_star_greedy_total dot k (fun y => ltac:(done)) s b cs)
          as [z Hz]
    end.
    congruence.
Qed.

(** ** The prompt taken from a trigger line *)

Lemma first_line_dot s : Forall (fun c => dot c = true) (first_line s).
Proof.
  induction s as [|c s IH]; simpl; [constructor|].
  destruct (is_line_terminator c) eqn:E; constructor; [|done].
  unfold dot. by rewrite E.
Qed.

Lemma first_line_split s :
  exists u, s = first_line s ++ u /\
            match u with c :: _ => dot c = false | [] => True end.
Proof.
  induction s as [|c s (u & Hs & Hu)]; simpl; [by exists []|].
  destruct (is_line_terminator c) eqn:E.
  - exists (c :: s). split; [done|]. unfold dot. by rewrite E.
  - exists u. split; [|done]. simpl. by rewrite <- Hs.
Qed.

Lemma first_line_all s :
  Forall (fun c => is_line_terminator c = false) s -> first_line s = s.
Proof.
  induction 1 as [|c s Hc _ IH]; simpl; [done|]. by rewrite Hc, IH.
Qed.

Lemma first_line_space s : all_space s -> all_space (first_line s).
Proof.
  induction 1 as [|c s Hc _ IH]; simpl; [constructor|].
  destruct (is_line_terminator c); by constructor.
Qed.

Lemma first_line_app x r :
  all_space r ->
  exists z, first_line (x ++ r) = first_line x ++ z /\ all_space z.
Proof.
  intros Hr. induction x as [|c x (z & Hz & Hsp)]; simpl.
  - exists (first_line r). split; [done|by apply first_line_space].
  - destruct (is_line_terminator c).
    + exists []. split; [done|constructor].
    + exists z. split; [by rewrite Hz|done].
Qed.

(** [(.+)] at the end of the pattern takes the text up to the first line
    terminator. *)
Lemma capture_first_line b c t u cs :
  Forall (fun c => dot c = true) (c :: t) ->
  match u with x :: _ => dot x = false | [] => True end ->
  rmatch (Cat (Grp (Plus (Cls dot))) Eps) (MState b ((c :: t) ++ u) cs) Some =
  Some (MState (rev (c :: t) ++ b) u (cs ++ [c :: t])).
Proof.
  intros H Hu. inversion H as [|? ? Hc Ht]; subst.
  unfold Plus. cbn [app].
  rewrite rmatch_Cat, rmatch_Grp, rmatch_Cat, rmatch_Cls, Hc.
  erewrite rmatch_star_greedy_run; [reflexivity|exact Ht| |exact Hu].
  rewrite rmatch_Eps. cbn [prev rest caps]. do 2 f_equal.
  - simpl. by rewrite <- app_assoc.
  - do 2 f_equal.
    pose proof (consumed_run b (c :: t) (c :: t ++ u) u cs cs) as Hrun.
    cbn [rev] in Hrun. by rewrite <- app_assoc in Hrun.
Qed.

Lemma promptPattern_exec_line l w d u :
  all_space l -> all_space w ->
  match d with c :: _ => is_space c = false | [] => False end ->
  Forall (fun c => dot c = true) d ->
  match u with x :: _ => dot x = false | [] => True end ->
  exec promptPattern (l ++ (str "// " ++ w ++ d) ++ u) = Some [d].
Proof.
  intros Hl Hw Hd Hdot Hu. unfold exec, search.
  rewrite promptPattern_skip by done.
  destruct d as [|c d]; [done|].
  cbn [app str list_ascii_of_string map]. rewrite search_from_cons.
  unfold promptPattern at 1. cbn [cat foldr].
  change (rmatch (Cat ?r1 ?r2) ?x ?k)
    with (rmatch r1 x (fun y => rmatch r2 y k)).
  rewrite rmatch_lit.
  cbn [str list_ascii_of_string map startsWith length take drop rev app].
  rewrite !char_eqb_refl. cbn [andb].
  change (rmatch (Cat ?r1 ?r2) ?x ?k)
    with (rmatch r1 x (fun y => rmatch r2 y k)).
  rewrite <- !app_assoc.
  change (Latin " " :: w ++ (c :: d) ++ u)
    with ((Latin " " :: w) ++ (c :: d) ++ u).
  pose proof (capture_first_line
                (rev (Latin " " :: w) ++ Latin "/" :: Latin "/" :: rev l ++ [])
                c d u [] Hdot Hu) as Hk.
  assert (Hw' : all_space (Latin " " :: w)) by by constructor.
  by rewrite (rmatch_star_greedy_run _ _ _ _ _ ((c :: d) ++ u) [] Hw' Hk Hd).
Qed.

(** The prompt of a trigger line: the text after the marker from its
    first character that is no white space to the first line terminator
    after it, trimmed. *)
Lemma userPromptOf_first_line prefix rest :
  trim prefix = str "// " ++ rest ->
  (exists c, In c rest /\ is_space c = false) ->
  userPromptOf prefix = Some (trim (first_line (trimStart rest))).
Proof.
  intros Ht (c & Hc & Hsp).
  destruct (trim_spec prefix) as (l & r & Hp & Hl & Hr & _).
  unfold trimStart.
  destruct (dropWhile_split is_space rest) as (w & Hrest & Hw & Hd).
  destruct (dropWhile is_space rest) as [|a d] eqn:Ed.
  { rewrite app_nil_r in Hrest. subst w. rewrite Forall_forall in Hw.
    rewrite (Hw c (proj2 (list_elem_of_In _ _) Hc)) in Hsp. done. }
  assert (Ha : is_line_terminator a = false).
  { destruct (is_line_terminator a) eqn:E; [|done].
    apply terminator_is_space in E. congruence. }
  destruct (first_line_app (a :: d) r Hr) as (z & Hz & Hzsp).
  destruct (first_line_split ((a :: d) ++ r)) as (u & Hsplit & Hu).
  pose proof (first_line_dot ((a :: d) ++ r)) as Hdot.
  assert (Hhd : match first_line ((a :: d) ++ r) with
                | x :: _ => is_space x = false
                | [] => False
                end) by (simpl; by rewrite Ha).
  set (taken := first_line ((a :: d) ++ r)) in *.
  assert (Hshape : prefix = l ++ (str "// " ++ w ++ taken) ++ u).
  { rewrite Hp, Ht, Hrest, <- !app_assoc. do 3 f_equal.
    by rewrite <- Hsplit. }
  unfold userPromptOf. rewrite Hshape.
  rewrite promptPattern_exec_line by done.
  simpl. f_equal. rewrite Hz. by apply trim_app_r.
Qed.

Lemma trim_trimStart s : trim (trimStart s) = trim s.
Proof.
  unfold trimStart.
  destruct (dropWhile_split is_space s) as (w & Hs & Hw & _).
  rewrite Hs at 2. by rewrite trim_app_l.
Qed.

Lemma userPromptOf_one_line prefix rest :
  trim prefix = str "// " ++ rest ->
  (exists c, In c rest /\ is_space c = false) ->
  Forall (fun c => is_line_terminator c = false) rest ->
  userPromptOf prefix = Some (trim rest).
Proof.
  intros Ht Hc Hlt. rewrite (userPromptOf_first_line _ _ Ht Hc).
  rewrite first_line_all; [by rewrite trim_trimStart|].
  unfold trimStart.
  destruct (dropWhile_split is_space rest) as (w & Hs & _ & _).
  rewrite Hs in Hlt. by apply Forall_app in Hlt as [_ Hlt].
Qed.

(** ** The context is always there when the cursor line is *)

Lemma scanBack_total document cursorLine : forall n braceLevel,
  n <= length (lines document) ->
  exists r, scanBack document cursorLine n braceLevel = Some r /\
            match r with Some i => i < n | None => True end.
Proof.
  induction n as [|i IH]; intros braceLevel Hn; simpl.
  - by exists None.
  - unfold lineAt. destruct (lookup_lt_is_Some_2 (lines document) i) as [l ->];
      [lia|].
    destruct (_ && _); [exists (Some i); split; [done|lia]|].
    destruct (_ <? _)%Z; [by exists None|].
    destruct (IH (countBraces l braceLevel)) as (r & -> & Hr); [lia|].
    exists r. split; [done|]. destruct r; [lia|done].
Qed.

Lemma contextStart_total document position :
  line position < length (lines document) ->
  exists startLine, contextStart document position = Some startLine /\
                    startLine <= line position.
Proof.
  intros H. unfold contextStart.
  destruct (scanBack_total document (line position) (S (line position)) 0)
    as (r & -> & Hr); [lia|].
  destruct r as [i|].
  - exists i. split; [done|lia].
  - eexists. split; [done|]. lia.
Qed.

Lemma collectLines_total document position prefix : forall count i,
  i + count <= length (lines document) ->
  is_Some (collectLines document position prefix i count).
Proof.
  induction count as [|count IH]; intros i H; simpl; [done|].
  destruct (IH (S i)) as [ls Hls]; [lia|]. rewrite Hls.
  destruct (i =? line position); [done|].
  unfold lineAt. destruct (lookup_lt_is_Some_2 (lines document) i) as [l ->];
    [lia|done].
Qed.

Lemma getFullMethodContext_total document position :
  is_Some (lineAt document (line position)) ->
  is_Some (getFullMethodContext document position).
Proof.
  intros [l Hl]. unfold getFullMethodContext. rewrite Hl.
  apply lookup_lt_Some in Hl.
  destruct (contextStart_total document position Hl) as (s & -> & Hs).
  destruct (collectLines_total document position
              (substring0 (character position) l)
              (S (line position) - s) s) as [ls ->]; [lia|done].
Qed.

(** The backward scan reads the cursor line and up to 21 lines before it:
    a declaration found lies no further back. *)
Lemma scanBack_bound document cursorLine : forall n braceLevel i,
  cursorLine <= n + 20 ->
  scanBack document cursorLine n braceLevel = Some (Some i) ->
  cursorLine <= i + 21.
Proof.
  induction n as [|j IH]; intros braceLevel i Hn H; simpl in H; [done|].
  destruct (lineAt document j) as [l|]; [|done].
  destruct (_ && _).
  - inversion H; subst. lia.
  - destruct (_ <? _)%Z eqn:E; [done|].
    apply Z.ltb_ge in E. apply IH in H; lia.
Qed.

(** ** The shape of the context *)

Lemma collectLines_S document position prefix i count :
  collectLines document position prefix i (S count) =
  if i =? line position
  then option_map (cons prefix)
         (collectLines document position prefix (S i) count)
  else match lineAt document i with
       | None => None
       | Some text =>
           option_map (cons text)
             (collectLines document position prefix (S i) count)
       end.
Proof. reflexivity. Qed.

Lemma collectLines_to_cursor document position prefix : forall c i,
  i + c = line position -> line position < length (lines document) ->
  collectLines document position prefix i (S c)
  = Some (take c (drop i (lines document)) ++ [prefix]).
Proof.
  induction c as [|c IH]; intros i Hi Hlen.
  - simpl. rewrite (proj2 (Nat.eqb_eq _ _)) by lia. done.
  - rewrite collectLines_S, (proj2 (Nat.eqb_neq _ _)) by lia.
    unfold lineAt.
    destruct (lookup_lt_is_Some_2 (lines document) i) as [l Hl]; [lia|].
    rewrite Hl, IH by lia. simpl. by rewrite (drop_S _ _ _ Hl).
Qed.

(** A start found by the scan is a declaration line. *)
Lemma scanBack_found document cursorLine : forall n braceLevel i,
  scanBack document cursorLine n braceLevel = Some (Some i) ->
  exists l, lineAt document i = Some l /\ declarationLine l = true.
Proof.
  induction n as [|j IH]; intros braceLevel i H; simpl in H; [done|].
  destruct (lineAt document j) as [l|] eqn:Hl; [|done].
  destruct (_ && _) eqn:E.
  - inversion H; subst. exists l. split; [done|].
    by apply andb_true_iff in E as [_ ?].
  - destruct (_ <? _)%Z; [done|]. by eapply IH.
Qed.

Lemma contextStart_spec document position startLine :
  contextStart document position = Some startLine ->
  line position <= startLine + 21 /\
  ((exists l, lineAt document startLine = Some l /\ declarationLine l = true)
   \/ startLine = line position - 15).
Proof.
  unfold contextStart.
  destruct (scanBack _ _ _ _) as [[i|]|] eqn:E; intros [= <-].
  - split; [|left; by eapply scanBack_found].
    eapply scanBack_bound; [|exact E]. lia.
  - split; [lia|right; lia].
Qed.

Lemma getFullMethodContext_spec document position l :
  lineAt document (line position) = Some l ->
  exists startLine,
    contextStart document position = Some startLine /\
    startLine <= line position /\
    getFullMethodContext document position =
    Some (join (str (String "010" ""))
            (take (line position - startLine)
                  (drop startLine (lines document)) ++
             [substring0 (character position) l])).
Proof.
  intros Hl. pose proof (lookup_lt_Some _ _ _ Hl) as Hlt.
  destruct (contextStart_total document position Hlt) as (s & Hs & Hle).
  exists s. split; [done|]. split; [done|].
  unfold getFullMethodContext. rewrite Hl, Hs.
  replace (S (line position) - s) with (S (line position - s)) by lia.
  rewrite collectLines_to_cursor by lia. done.
Qed.

(** ** A declaration on the cursor line *)

Lemma countBraces_no_closing line : forall braceLevel,
  ~ In (Latin "}") line -> (countBraces line braceLevel <= braceLevel)%Z.
Proof.
  induction line as [|c t IH]; intros b Hno; [simpl; lia|].
  assert (Ht : ~ In (Latin "}") t) by (intros H; apply Hno; by right).
  assert (Hc : char_eqb c "}" = false).
  { apply char_eqb_neq. intros ->. apply Hno. by left. }
  specialize (IH b Ht). unfold countBraces in *. cbn [foldr]. rewrite Hc.
  destruct (char_eqb c "{"); lia.
Qed.

Lemma contextStart_cursor_line document position l :
  lineAt document (line position) = Some l ->
  ~ In (Latin "}") l -> declarationLine l = true ->
  contextStart document position = Some (line position).
Proof.
  intros Hl Hno Hd. unfold contextStart. cbn [scanBack]. rewrite Hl, Hd.
  pose proof (countBraces_no_closing l 0 Hno) as Hb.
  destruct (countBraces l 0 <=? 0)%Z eqn:E; [done|]. lia.
Qed.

End ExtractorFacts.

(** * Properties of the coordinator *)

Module CoordinatorFacts.
Import JS Re Sanitizer Extractor Coordinator Spec ExtractorFacts.

Lemma inv_initial key mdl on : inv (initial key mdl on).
Proof.
  split; [split|]; simpl; try done.
  - constructor.
  - intros p [? H]. by rewrite lookup_empty in H.
  - intros p H. by apply elem_of_nil in H.
  - intros p [? H]. by rewrite lookup_empty in H.
Qed.

(** The promise [p] is the pending one, it waits for nothing any more, and
    the timer callback ends: the coordinator is idle again. *)
Lemma inv_complete_current p input v w :
  inv0 w ->
  pendingResolve (this w) = Some p ->
  calls w !! p = Some (Debounced, input) ->
  unsettled p w ->
  timers w = [] ->
  (forall id pos, inflight w !! id <> Some (AwaitCompletion p pos)) ->
  inv (complete p v w).
Proof.
  intros [Hnd Hfc Hfs Hfi Hst Hctx Hgen Hlive] Hp Hc Hu Ht Hno.
  unfold complete. rewrite Hp, bool_decide_eq_true_2 by done.
  split; [split|]; simpl.
  - constructor; done.
  - done.
  - intros q [->|Hq]%elem_of_cons; [|by apply Hfs].
    apply Hfc. by rewrite Hc.
  - done.
  - intros id q pos Hq _. apply elem_of_cons. right.
    apply (Hst id q pos Hq). intros Heq. rewrite Hp in Heq.
    inversion Heq; subst. by apply (Hno id pos).
  - done.
  - intros id q pos cl Hq. destruct (Hgen id q pos cl Hq) as (-> & Huq & i & Hi).
    split; [done|]. split; [|by exists i].
    unfold unsettled. simpl. rewrite not_elem_of_cons. split; [|done].
    intros ->. rewrite Hc in Hi. done.
  - intros q i Hq Huq. unfold unsettled in Huq. simpl in Huq.
    rewrite not_elem_of_cons in Huq. destruct Huq as [Hne Huq].
    specialize (Hlive q i Hq Huq). rewrite Hp in Hlive. congruence.
  - unfold pending_ok. simpl. done.
Qed.

(** A promise that no call returned yet is settled at its creation. *)
Lemma inv_settle_fresh how input o w :
  inv w -> how <> Debounced ->
  inv (mkWorld (this w) (clock w) (timers w) (S (next w)) (cancelled w)
         (<[next w := (how, input)]> (calls w)) (inflight w) (sent w)
         ((next w, o) :: settled w)).
Proof.
  intros [[Hnd Hfc Hfs Hfi Hst Hctx Hgen Hlive] Hpend] Hhow.
  assert (Hfresh : next w ∉ (settled w).*1).
  { intros H. apply Hfs in H. lia. }
  split; [split|]; simpl.
  - by constructor.
  - intros q [x Hq]. destruct (decide (q = next w)) as [->|Hne]; [lia|].
    rewrite lookup_insert_ne in Hq by done.
    assert (q < next w) by (apply Hfc; by exists x). lia.
  - intros q [->|Hq]%elem_of_cons; [lia|]. apply Hfs in Hq. lia.
  - intros id Hid. apply Hfi in Hid. lia.
  - intros id q pos Hq Hne. apply elem_of_cons. right. by eapply Hst.
  - intros id q pos Hq. destruct (Hctx id q pos Hq) as (i & Hi & Hpos & Hr).
    exists i. split; [|done]. rewrite lookup_insert_ne; [done|].
    intros <-. assert (next w < next w); [|lia]. apply Hfc. by rewrite Hi.
  - intros id q pos cl Hq. destruct (Hgen id q pos cl Hq) as (-> & Huq & i & Hi).
    assert (S q < next w) by (apply Hfi; by rewrite Hq).
    split; [done|]. split.
    + unfold unsettled. simpl. rewrite not_elem_of_cons. split; [lia|done].
    + exists i. rewrite lookup_insert_ne; [done|lia].
  - intros q i Hq Huq. unfold unsettled in Huq. simpl in Huq.
    rewrite not_elem_of_cons in Huq. destruct Huq as [Hne Huq].
    rewrite lookup_insert_ne in Hq by done. by eapply Hlive.
  - unfold pending_ok in *. simpl.
    destruct (pendingResolve (this w)) as [q|]; [|done].
    destruct Hpend as (i & Hi & Hc & Hu & Hphase).
    assert (q < next w) by (apply Hfc; by rewrite Hc).
    exists i. split; [done|]. split; [rewrite lookup_insert_ne; [done|lia]|].
    split; [|done]. unfold unsettled. simpl. rewrite not_elem_of_cons.
    split; [lia|done].
Qed.

(** The request of the prompt path leaves in the call itself. *)
Lemma inv_post_generated input r pos cl w :
  inv w ->
  inv (mkWorld (this w) (clock w) (timers w) (S (S (next w))) (cancelled w)
         (<[next w := (Prompted, input)]> (calls w))
         (<[S (next w) := AwaitGenerated (next w) pos cl]> (inflight w))
         (<[S (next w) := r]> (sent w)) (settled w)).
Proof.
  intros [[Hnd Hfc Hfs Hfi Hst Hctx Hgen Hlive] Hpend].
  assert (Hnew : forall id k, inflight w !! id = Some k -> S (next w) <> id).
  { intros id k Hk <-. assert (S (next w) < next w); [|lia].
    apply Hfi. by rewrite Hk. }
  assert (Hcall : forall q x, calls w !! q = Some x -> next w <> q).
  { intros q x Hq <-. assert (next w < next w); [|lia].
    apply Hfc. by rewrite Hq. }
  split; [split|]; simpl.
  - done.
  - intros q [x Hq]. destruct (decide (q = next w)) as [->|Hne]; [lia|].
    rewrite lookup_insert_ne in Hq by done.
    assert (q < next w) by (apply Hfc; by exists x). lia.
  - intros q Hq. apply Hfs in Hq. lia.
  - intros id [k Hid]. destruct (decide (id = S (next w))) as [->|Hne]; [lia|].
    rewrite lookup_insert_ne in Hid by done.
    assert (id < next w) by (apply Hfi; by exists k). lia.
  - intros id q pos' Hq Hne.
    destruct (decide (id = S (next w))) as [->|Hid].
    + by rewrite lookup_insert_eq in Hq.
    + rewrite lookup_insert_ne in Hq by done. by eapply Hst.
  - intros id q pos' Hq.
    destruct (decide (id = S (next w))) as [->|Hid].
    { by rewrite lookup_insert_eq in Hq. }
    rewrite lookup_insert_ne in Hq by done.
    destruct (Hctx id q pos' Hq) as (i & Hi & Hpos & Hr).
    destruct Hr as (mdl & ctx & Hc & Hr).
    exists i. split; [rewrite lookup_insert_ne; [done|by eapply Hcall]|].
    split; [done|]. exists mdl, ctx. split; [done|]. simpl.
    by rewrite lookup_insert_ne.
  - intros id q pos' cl' Hq.
    destruct (decide (id = S (next w))) as [->|Hid].
    + rewrite lookup_insert_eq in Hq. inversion Hq; subst.
      split; [done|]. split.
      * intros H. apply Hfs in H. lia.
      * exists input. by rewrite lookup_insert_eq.
    + rewrite lookup_insert_ne in Hq by done.
      destruct (Hgen id q pos' cl' Hq) as (-> & Huq & i & Hi).
      split; [done|]. split; [done|]. exists i.
      rewrite lookup_insert_ne; [done|by eapply Hcall].
  - intros q i Hq Huq. destruct (decide (q = next w)) as [->|Hne].
    + by rewrite lookup_insert_eq in Hq.
    + rewrite lookup_insert_ne in Hq by done. by eapply Hlive.
  - unfold pending_ok in *. simpl.
    destruct (pendingResolve (this w)) as [q|]; [|done].
    destruct Hpend as (i & Hi & Hc & Hu & Hphase).
    exists i. split; [done|].
    split; [rewrite lookup_insert_ne; [done|by eapply Hcall]|].
    split; [done|].
    destruct Hphase as [(h & due & Ht & Hh & Hno)|(Ht & id & Hid & Huniq)].
    + left. exists h, due. split; [done|]. split; [done|].
      intros id pos'. destruct (decide (id = S (next w))) as [->|Hne].
      * by rewrite lookup_insert_eq.
      * rewrite lookup_insert_ne by done. apply Hno.
    + right. split; [done|]. exists id.
      split; [rewrite lookup_insert_ne; [done|by eapply Hnew]|].
      intros id' pos' Hid'. destruct (decide (id' = S (next w))) as [->|Hne].
      * by rewrite lookup_insert_eq in Hid'.
      * rewrite lookup_insert_ne in Hid' by done. by eapply Huniq.
Qed.

(** The timers left once the executor cleared the one it knew. *)
Lemma pending_ok_cleared w :
  pending_ok w ->
  match debounceTimer (this w) with
  | Some h => filter (fun t => t.1 <> h) (timers w)
  | None => timers w
  end = [].
Proof.
  unfold pending_ok. intros H.
  destruct (pendingResolve (this w)) as [q|].
  - destruct H as (i & _ & _ & _ & [(h & due & Ht & Hh & _)|(Ht & _)]).
    + rewrite Hh, Ht. rewrite filter_cons_False; [done|]. simpl. tauto.
    + rewrite Ht. by destruct (debounceTimer (this w)).
  - destruct H as [_ ->]. by destruct (debounceTimer (this w)).
Qed.

(** The world a call of the debounced path leaves. *)
Lemma debounce_world input w :
  pending_ok w ->
  debounce (next w) input
    (record_call (next w) Debounced input (fresh w).2) =
  mkWorld
    (mkProvider (apiKey (this w)) (model (this w)) (enabled (this w))
                (Some (next w)) (Some input) (Some (S (next w))))
    (clock w) [(S (next w), clock w + debounceDelay)] (S (S (next w)))
    (cancelled w) (<[next w := (Debounced, input)]> (calls w))
    (inflight w) (sent w)
    match pendingResolve (this w) with
    | Some q => (q, Fulfilled None) :: settled w
    | None => settled w
    end.
Proof.
  intros H. apply pending_ok_cleared in H.
  unfold debounce, record_call, fresh, setTimeout, clearTimeout,
    set_this, set_timers, resolve. simpl.
  destruct (pendingResolve (this w)); simpl;
    destruct (debounceTimer (this w)); simpl; rewrite H; done.
Qed.

Lemma inv_debounce input w :
  inv w ->
  inv (debounce (next w) input
         (record_call (next w) Debounced input (fresh w).2)).
Proof.
  intros [[Hnd Hfc Hfs Hfi Hst Hctx Hgen Hlive] Hpend].
  rewrite debounce_world by done.
  assert (Hcall : forall q x, calls w !! q = Some x -> next w <> q).
  { intros q x Hq <-. assert (next w < next w); [|lia].
    apply Hfc. by rewrite Hq. }
  assert (Hnew : forall id pos,
            inflight w !! id <> Some (AwaitCompletion (next w) pos)).
  { intros id pos Hid. destruct (Hctx id _ pos Hid) as (i & Hi & _).
    by eapply Hcall. }
  assert (Hsub : forall x, x ∈ settled w ->
            x ∈ match pendingResolve (this w) with
                | Some q => (q, Fulfilled None) :: settled w
                | None => settled w
                end).
  { intros x Hx. destruct (pendingResolve (this w)); [|done].
    apply elem_of_cons. by right. }
  assert (Hold : forall q, q <> next w ->
            pendingResolve (this w) <> Some q ->
            unsettled q w ->
            q ∉ (match pendingResolve (this w) with
                 | Some q => (q, Fulfilled None) :: settled w
                 | None => settled w
                 end).*1).
  { intros q Hq Hne Hu. destruct (pendingResolve (this w)) as [q'|]; [|done].
    simpl. rewrite not_elem_of_cons. split; [congruence|done]. }
  split; [split|]; simpl.
  - unfold pending_ok in Hpend.
    destruct (pendingResolve (this w)) as [q|]; [|done].
    destruct Hpend as (i & _ & _ & Hu & _). simpl. by constructor.
  - intros q [x Hq]. destruct (decide (q = next w)) as [->|Hne]; [lia|].
    rewrite lookup_insert_ne in Hq by done.
    assert (q < next w) by (apply Hfc; by exists x). lia.
  - intros q Hq. unfold pending_ok in Hpend.
    destruct (pendingResolve (this w)) as [q'|].
    + simpl in Hq. apply elem_of_cons in Hq as [->|Hq].
      * destruct Hpend as (i & _ & Hc & _).
        assert (q' < next w) by (apply Hfc; by rewrite Hc). lia.
      * apply Hfs in Hq. lia.
    + apply Hfs in Hq. lia.
  - intros id Hid. apply Hfi in Hid. lia.
  - intros id q pos Hq Hne.
    destruct (decide (pendingResolve (this w) = Some q)) as [Heq|Hneq].
    + rewrite Heq. apply elem_of_cons. by left.
    + apply Hsub. by eapply Hst.
  - intros id q pos Hq.
    destruct (Hctx id q pos Hq) as (i & Hi & Hpos & Hr).
    exists i. split; [|done].
    rewrite lookup_insert_ne; [done|by eapply Hcall].
  - intros id q pos cl Hq.
    destruct (Hgen id q pos cl Hq) as (-> & Huq & i & Hi).
    split; [done|]. split.
    + apply Hold; [symmetry; by eapply Hcall| |done].
      intros Heq. unfold pending_ok in Hpend. rewrite Heq in Hpend.
      destruct Hpend as (i' & _ & Hc & _). rewrite Hc in Hi. done.
    + exists i. rewrite lookup_insert_ne; [done|by eapply Hcall].
  - intros q i Hq Huq. destruct (decide (q = next w)) as [->|Hne]; [done|].
    rewrite lookup_insert_ne in Hq by done. exfalso.
    unfold unsettled in Huq. simpl in Huq.
    destruct (pendingResolve (this w)) as [q'|] eqn:Ep.
    + simpl in Huq. rewrite not_elem_of_cons in Huq.
      destruct Huq as [Hne' Huq]. specialize (Hlive q i Hq Huq).
      congruence.
    + specialize (Hlive q i Hq Huq). congruence.
  - unfold pending_ok. simpl. exists input. split; [done|].
    split; [by rewrite lookup_insert_eq|]. split.
    + unfold unsettled. simpl. unfold pending_ok in Hpend.
      destruct (pendingResolve (this w)) as [q'|].
      * simpl. rewrite not_elem_of_cons.
        destruct Hpend as (i & _ & Hc & _).
        split; [by eapply Hcall|].
        intros H. apply Hfs in H. lia.
      * intros H. apply Hfs in H. lia.
    + left. exists (S (next w)), (clock w + debounceDelay). done.
Qed.

Lemma inv_provide input w :
  inv w -> inv (provideInlineCompletionItems input w).2.
Proof.
  intros H. unfold provideInlineCompletionItems.
  destruct (pathOf input w) eqn:E; simpl.
  - exact (inv_settle_fresh Refused input (Fulfilled None) w H ltac:(done)).
  - exact (inv_settle_fresh Threw input Rejected w H ltac:(done)).
  - unfold handlePromptGeneration, isCancellationRequested. simpl.
    destruct (bool_decide _);
      [exact (inv_settle_fresh Prompted input (Fulfilled None) w H ltac:(done))|].
    destruct (lineAt _ _);
      [|exact (inv_settle_fresh Prompted input Rejected w H ltac:(done))].
    destruct (userPromptOf _);
      [|exact (inv_settle_fresh Prompted input (Fulfilled None) w H ltac:(done))].
    destruct (getFullMethodContext _ _);
      [|exact (inv_settle_fresh Prompted input Rejected w H ltac:(done))].
    exact (inv_post_generated _ _ _ _ w H).
  - exact (inv_debounce input w H).
Qed.

Lemma inv0_frame w w' :
  settled w' = settled w -> next w' = next w -> calls w' = calls w ->
  inflight w' = inflight w -> sent w' = sent w ->
  pendingResolve (this w') = pendingResolve (this w) ->
  inv0 w -> inv0 w'.
Proof.
  intros Hs Hn Hc Hi Hse Hp [Hnd Hfc Hfs Hfi Hst Hctx Hgen Hlive].
  split; unfold unsettled, request_of in *;
    rewrite ?Hs, ?Hn, ?Hc, ?Hi, ?Hse, ?Hp; done.
Qed.

Lemma inv_frame w w' :
  settled w' = settled w -> next w' = next w -> calls w' = calls w ->
  inflight w' = inflight w -> sent w' = sent w ->
  pendingResolve (this w') = pendingResolve (this w) ->
  lastDebounceInput (this w') = lastDebounceInput (this w) ->
  debounceTimer (this w') = debounceTimer (this w) ->
  timers w' = timers w ->
  inv w -> inv w'.
Proof.
  intros Hs Hn Hc Hi Hse Hp Hl Hd Ht [H0 Hpend].
  split; [by eapply inv0_frame|].
  unfold pending_ok, unsettled in *. by rewrite Hs, Hc, Hi, Hp, Hl, Hd, Ht.
Qed.

Lemma inv0_delete id w : inv0 w -> inv0 (set_inflight (delete id) w).
Proof.
  intros [Hnd Hfc Hfs Hfi Hst Hctx Hgen Hlive]. split; simpl; try done.
  - intros id' [k Hk]. apply lookup_delete_Some in Hk as [_ Hk].
    apply Hfi. by exists k.
  - intros id' q pos Hq. apply lookup_delete_Some in Hq as [_ Hq]. eauto.
  - intros id' q pos Hq. apply lookup_delete_Some in Hq as [_ Hq]. eauto.
  - intros id' q pos cl Hq. apply lookup_delete_Some in Hq as [_ Hq]. eauto.
Qed.

(** The request of the inline path leaves when the timer fires. *)
Lemma inv_post_completion p input mdl contextCode w :
  inv0 w ->
  pendingResolve (this w) = Some p ->
  lastDebounceInput (this w) = Some input ->
  calls w !! p = Some (Debounced, input) ->
  unsettled p w ->
  timers w = [] ->
  (forall id pos, inflight w !! id <> Some (AwaitCompletion p pos)) ->
  getFullMethodContext (document input) (position input) = Some contextCode ->
  inv (post (completionRequest mdl contextCode
               (languageId (document input)) (fileName (document input)))
            (AwaitCompletion p (position input)) w).
Proof.
  intros [Hnd Hfc Hfs Hfi Hst Hctx Hgen Hlive] Hp Hl Hc Hu Ht Hno Hcx.
  assert (Hnew : forall id k, inflight w !! id = Some k -> next w <> id).
  { intros id k Hk <-. assert (next w < next w); [|lia].
    apply Hfi. by rewrite Hk. }
  unfold post. simpl. split; [split|]; simpl.
  - done.
  - intros q Hq. apply Hfc in Hq. lia.
  - intros q Hq. apply Hfs in Hq. lia.
  - intros id [k Hid]. destruct (decide (id = next w)) as [->|Hne]; [lia|].
    rewrite lookup_insert_ne in Hid by done.
    assert (id < next w) by (apply Hfi; by exists k). lia.
  - intros id q pos Hq Hne. destruct (decide (id = next w)) as [->|Hid].
    + rewrite lookup_insert_eq in Hq. inversion Hq; subst. congruence.
    + rewrite lookup_insert_ne in Hq by done. by eapply Hst.
  - intros id q pos Hq. destruct (decide (id = next w)) as [->|Hid].
    + rewrite lookup_insert_eq in Hq. inversion Hq; subst.
      exists input. split; [done|]. split; [done|].
      exists mdl, contextCode. simpl. by rewrite lookup_insert_eq.
    + rewrite lookup_insert_ne in Hq by done.
      destruct (Hctx id q pos Hq) as (i & Hi & Hpos & Hr).
      destruct Hr as (mdl' & ctx' & Hc' & Hr).
      exists i. split; [done|]. split; [done|]. exists mdl', ctx'.
      simpl. by rewrite lookup_insert_ne.
  - intros id q pos cl Hq. destruct (decide (id = next w)) as [->|Hid].
    + by rewrite lookup_insert_eq in Hq.
    + rewrite lookup_insert_ne in Hq by done. by eapply Hgen.
  - done.
  - unfold pending_ok. simpl. rewrite Hp. exists input.
    split; [done|]. split; [done|]. split; [done|]. right.
    split; [done|]. exists (next w). split; [by rewrite lookup_insert_eq|].
    intros id' pos Hid'. destruct (decide (id' = next w)) as [->|Hne]; [done|].
    rewrite lookup_insert_ne in Hid' by done. by destruct (Hno id' pos).
Qed.

(** The phase the coordinator is in while a timer is armed. *)
Lemma pending_ok_armed h due w :
  pending_ok w -> timers w = [(h, due)] ->
  exists p input,
    pendingResolve (this w) = Some p /\
    lastDebounceInput (this w) = Some input /\
    calls w !! p = Some (Debounced, input) /\ unsettled p w /\
    debounceTimer (this w) = Some h /\
    forall id pos, inflight w !! id <> Some (AwaitCompletion p pos).
Proof.
  unfold pending_ok. intros H Ht.
  destruct (pendingResolve (this w)) as [p|].
  - destruct H as (i & Hi & Hc & Hu & [(h' & d' & Ht' & Hh & Hno)|(Ht' & _)]).
    + rewrite Ht in Ht'. inversion Ht'; subst. by exists p, i.
    + by rewrite Ht in Ht'.
  - destruct H as [_ H]. by rewrite Ht in H.
Qed.

Lemma pending_ok_timers w :
  pending_ok w -> timers w = [] \/ exists h due, timers w = [(h, due)].
Proof.
  unfold pending_ok. intros H.
  destruct (pendingResolve (this w)) as [p|].
  - destruct H as (i & _ & _ & _ & [(h & d & Ht & _)|(Ht & _)]); eauto.
  - destruct H as [_ H]. by left.
Qed.

Lemma clearTimeout_armed h due w :
  timers w = [(h, due)] -> timers (clearTimeout h w) = [].
Proof.
  intros Ht. simpl. rewrite Ht. rewrite filter_cons_False; [done|].
  simpl. tauto.
Qed.

Lemma inv_fire h due w : inv w -> timers w = [(h, due)] -> inv (fire h w).
Proof.
  intros [H0 Hpend] Ht.
  destruct (pending_ok_armed _ _ _ Hpend Ht)
    as (p & input & Hp & Hl & Hc & Hu & Hh & Hno).
  assert (H1 : inv0 (clearTimeout h w)) by by apply (inv0_frame w).
  pose proof (clearTimeout_armed _ _ _ Ht) as Ht1.
  unfold fire, onTimer.
  change (pendingResolve (this (clearTimeout h w)))
    with (pendingResolve (this w)).
  change (lastDebounceInput (this (clearTimeout h w)))
    with (lastDebounceInput (this w)).
  rewrite Hp, Hl.
  destruct (isCancellationRequested _ _);
    [by eapply inv_complete_current|].
  destruct (lineAt _ _); [|by eapply inv_complete_current].
  destruct (getFullMethodContext _ _) eqn:Ecx;
    [|by eapply inv_complete_current].
  by apply inv_post_completion.
Qed.

Lemma inv_set_clock t w : inv w -> inv (set_clock t w).
Proof. by apply (inv_frame w). Qed.

Lemma inv_advance t w : inv w -> inv (advance t w).
Proof.
  intros H. unfold advance. apply inv_set_clock.
  destruct (pending_ok_timers w (proj2 H)) as [Ht|(h & due & Ht)].
  - by rewrite Ht.
  - rewrite Ht. destruct (decide (due <= t)).
    + rewrite filter_cons_True by done. simpl. by eapply inv_fire.
    + by rewrite filter_cons_False.
Qed.

Lemma complete_stale p v w :
  pendingResolve (this w) <> Some p -> complete p v w = w.
Proof.
  intros H. unfold complete. rewrite bool_decide_eq_false_2; [done|].
  congruence.
Qed.

Lemma inv_respond id content w : inv w -> inv (respond id content w).
Proof.
  intros [H0 Hpend]. unfold respond.
  destruct (inflight w !! id) as [[p pos|p pos cl]|] eqn:Eid; [| |done].
  - pose proof (inv0_delete id w H0) as H1.
    destruct (decide (pendingResolve (this w) = Some p)) as [Hp|Hp].
    + unfold pending_ok in Hpend. rewrite Hp in Hpend.
      destruct Hpend as (i & Hi & Hc & Hu & [(h & d & _ & _ & Hno)|(Ht & id0 & Hid0 & Huniq)]).
      { by destruct (Hno id pos). }
      eapply inv_complete_current; try done.
      intros id' pos' Hid'. simpl in Hid'.
      apply lookup_delete_Some in Hid' as [Hne Hid'].
      pose proof (Huniq _ _ Hid'). pose proof (Huniq _ _ Eid). congruence.
    + rewrite complete_stale by done. split; [done|].
      unfold pending_ok in *. simpl.
      destruct (pendingResolve (this w)) as [q|]; [|done].
      destruct Hpend as (i & Hi & Hc & Hu & Hphase).
      exists i. split; [done|]. split; [done|]. split; [done|].
      destruct Hphase as [(h & d & Ht & Hh & Hno)|(Ht & id0 & Hid0 & Huniq)].
      * left. exists h, d. split; [done|]. split; [done|].
        intros id' pos' Hid'. apply lookup_delete_Some in Hid' as [_ Hid'].
        by destruct (Hno id' pos').
      * right. split; [done|]. exists id0. split.
        -- rewrite lookup_delete_ne; [done|]. intros ->.
           rewrite Eid in Hid0. congruence.
        -- intros id' pos' Hid'. apply lookup_delete_Some in Hid' as [_ Hid'].
           by eapply Huniq.
  - destruct H0 as [Hnd Hfc Hfs Hfi Hst Hctx Hgen Hlive].
    destruct (Hgen id p pos cl Eid) as (-> & Hup & ip & Hip).
    assert (Hother : forall q i, calls w !! q = Some (Debounced, i) -> q <> p).
    { intros q i Hq ->. rewrite Hip in Hq. done. }
    split; [split|]; simpl.
    + by constructor.
    + done.
    + intros q [->|Hq]%elem_of_cons; [|by apply Hfs].
      apply Hfc. by rewrite Hip.
    + intros id' [k Hk]. apply lookup_delete_Some in Hk as [_ Hk].
      apply Hfi. by exists k.
    + intros id' q pos' Hq Hne. apply lookup_delete_Some in Hq as [_ Hq].
      apply elem_of_cons. right. by eapply Hst.
    + intros id' q pos' Hq. apply lookup_delete_Some in Hq as [_ Hq]. eauto.
    + intros id' q pos' cl' Hq. apply lookup_delete_Some in Hq as [Hne Hq].
      destruct (Hgen id' q pos' cl' Hq) as (-> & Huq & i & Hi).
      split; [done|]. split; [|by exists i].
      unfold unsettled. simpl. rewrite not_elem_of_cons. split; [|done].
      congruence.
    + intros q i Hq Huq. unfold unsettled in Huq. simpl in Huq.
      rewrite not_elem_of_cons in Huq. destruct Huq as [_ Huq].
      by eapply Hlive.
    + unfold pending_ok in *. simpl.
      destruct (pendingResolve (this w)) as [q|]; [|done].
      destruct Hpend as (i & Hi & Hc & Hu & Hphase).
      exists i. split; [done|]. split; [done|]. split.
      { unfold unsettled. simpl. rewrite not_elem_of_cons.
        split; [by eapply Hother|done]. }
      destruct Hphase as [(h & d & Ht & Hh & Hno)|(Ht & id0 & Hid0 & Huniq)].
      * left. exists h, d. split; [done|]. split; [done|].
        intros id' pos' Hid'. apply lookup_delete_Some in Hid' as [_ Hid'].
        by destruct (Hno id' pos').
      * right. split; [done|]. exists id0. split.
        -- rewrite lookup_delete_ne; [done|]. intros <-.
           rewrite Eid in Hid0. congruence.
        -- intros id' pos' Hid'. apply lookup_delete_Some in Hid' as [_ Hid'].
           by eapply Huniq.
Qed.

Lemma inv_handle e w : inv w -> inv (handle e w).
Proof.
  intros H. destruct e as [input|tok|id content|key mdl on]; simpl.
  - by apply inv_provide.
  - by apply (inv_frame w).
  - by apply inv_respond.
  - by apply (inv_frame w).
Qed.

Lemma inv_deliver t e w : inv w -> inv (deliver t e w).
Proof. intros H. by apply inv_handle, inv_advance. Qed.

Lemma reachable_inv w : reachable w -> inv w.
Proof.
  induction 1 as [key mdl on|t e w _ IH|t w _ IH].
  - apply inv_initial.
  - by apply inv_deliver.
  - by apply inv_advance.
Qed.

(** ** Timers *)

Lemma advance_quiet h due t w :
  timers w = [(h, due)] -> t < due ->
  advance t w = set_clock (Nat.max t (clock w)) w.
Proof.
  intros Ht Hlt. unfold advance. rewrite Ht.
  rewrite filter_cons_False; [done|]. simpl. lia.
Qed.

Lemma advance_due h due t w :
  timers w = [(h, due)] -> due <= t ->
  advance t w = set_clock (Nat.max t (clock w)) (fire h w).
Proof.
  intros Ht Hle. unfold advance. rewrite Ht.
  by rewrite filter_cons_True.
Qed.

Lemma getFullMethodContext_lineAt document position contextCode :
  getFullMethodContext document position = Some contextCode ->
  is_Some (lineAt document (line position)).
Proof.
  unfold getFullMethodContext. by destruct (lineAt document (line position)).
Qed.

(** The timer of the pending request fires and its token is not
    cancelled: the request leaves. *)
Lemma fire_dispatch h p input contextCode w :
  pendingResolve (this w) = Some p ->
  lastDebounceInput (this w) = Some input ->
  isCancellationRequested (token input) w = false ->
  getFullMethodContext (document input) (position input) = Some contextCode ->
  fire h w =
  post (completionRequest (model (this w)) contextCode
          (languageId (document input)) (fileName (document input)))
       (AwaitCompletion p (position input)) (clearTimeout h w).
Proof.
  intros Hp Hl Hc Hcx. unfold fire, onTimer.
  change (pendingResolve (this (clearTimeout h w)))
    with (pendingResolve (this w)).
  change (lastDebounceInput (this (clearTimeout h w)))
    with (lastDebounceInput (this w)).
  rewrite Hp, Hl.
  change (isCancellationRequested (token input) (clearTimeout h w))
    with (isCancellationRequested (token input) w).
  rewrite Hc, Hcx.
  by destruct (getFullMethodContext_lineAt _ _ _ Hcx) as [l ->].
Qed.

(** The timer of the pending request fires after its token was
    cancelled: the request is resolved with null and nothing leaves. *)
Lemma fire_cancelled h p input w :
  pendingResolve (this w) = Some p ->
  lastDebounceInput (this w) = Some input ->
  isCancellationRequested (token input) w = true ->
  fire h w =
  set_this (fun t =>
    mkProvider (apiKey t) (model t) (enabled t) None None (debounceTimer t))
    (resolve p None (clearTimeout h w)).
Proof.
  intros Hp Hl Hc. unfold fire, onTimer.
  change (pendingResolve (this (clearTimeout h w)))
    with (pendingResolve (this w)).
  change (lastDebounceInput (this (clearTimeout h w)))
    with (lastDebounceInput (this w)).
  rewrite Hp, Hl.
  change (isCancellationRequested (token input) (clearTimeout h w))
    with (isCancellationRequested (token input) w).
  rewrite Hc. unfold complete.
  change (pendingResolve (this (clearTimeout h w)))
    with (pendingResolve (this w)).
  by rewrite Hp, bool_decide_eq_true_2.
Qed.

(** ** Calls of the inline path *)

Lemma pathOf_inline input w :
  enabled (this w) = true -> apiKey (this w) <> [] -> inline_input input ->
  pathOf input w = Debounced.
Proof.
  intros He Hk (l & Hl & Hp). unfold pathOf.
  rewrite He, bool_decide_eq_false_2 by done. simpl. by rewrite Hl, Hp.
Qed.

Lemma provide_debounced input w :
  pathOf input w = Debounced -> pending_ok w ->
  provideInlineCompletionItems input w =
  (next w,
   mkWorld
     (mkProvider (apiKey (this w)) (model (this w)) (enabled (this w))
                 (Some (next w)) (Some input) (Some (S (next w))))
     (clock w) [(S (next w), clock w + debounceDelay)] (S (S (next w)))
     (cancelled w) (<[next w := (Debounced, input)]> (calls w))
     (inflight w) (sent w)
     match pendingResolve (this w) with
     | Some q => (q, Fulfilled None) :: settled w
     | None => settled w
     end).
Proof.
  intros Hpath Hpend. unfold provideInlineCompletionItems. rewrite Hpath.
  cbn [fresh]. f_equal. by apply debounce_world.
Qed.

Lemma provide_all_cons t input cs w :
  provide_all ((t, input) :: cs) w =
  let (p, w1) := provideInlineCompletionItems input (advance t w) in
  let (ps, w2) := provide_all cs w1 in
  (p :: ps, w2).
Proof. reflexivity. Qed.

(** Calls that follow a pending request in quick succession. *)
Lemma rapid_tail : forall cs w t0 p0 input0,
  inv w -> enabled (this w) = true -> apiKey (this w) <> [] ->
  pendingResolve (this w) = Some p0 ->
  lastDebounceInput (this w) = Some input0 ->
  timers w = [(S p0, t0 + debounceDelay)] -> clock w = t0 ->
  rapid t0 cs -> Forall inline_input cs.*2 ->
  forall ps w', provide_all cs w = (ps, w') ->
  exists earlier pN before tN inputN,
    p0 :: ps = earlier ++ [pN] /\
    (t0, input0) :: cs = before ++ [(tN, inputN)] /\
    pendingResolve (this w') = Some pN /\
    lastDebounceInput (this w') = Some inputN /\
    timers w' = [(S pN, tN + debounceDelay)] /\ clock w' = tN /\
    sent w' = sent w /\ inflight w' = inflight w /\
    cancelled w' = cancelled w /\ model (this w') = model (this w) /\
    (forall p, p ∈ earlier -> (p, Fulfilled None) ∈ settled w') /\
    (forall x, x ∈ settled w -> x ∈ settled w') /\
    inv w'.
Proof.
  induction cs as [|[t input] cs IH];
    intros w t0 p0 input0 Hinv He Hk Hp Hl Ht Hclk Hrapid Hin ps w' Hrun.
  - simpl in Hrun. inversion Hrun; subst.
    exists [], p0, [], (clock w'), input0. simpl. split_and!; try done.
    intros p Hp'. by apply elem_of_nil in Hp'.
  - rewrite provide_all_cons in Hrun. simpl in Hrapid.
    destruct Hrapid as (Hle & Hlt & Hrapid).
    simpl in Hin. inversion Hin as [|? ? Hin1 Hin2]; subst.
    rewrite (advance_quiet _ _ _ _ Ht Hlt) in Hrun.
    assert (Hinv1 : inv (set_clock (Nat.max t (clock w)) w))
      by by apply inv_set_clock.
    assert (Hpath : pathOf input (set_clock (Nat.max t (clock w)) w)
                    = Debounced) by by apply pathOf_inline.
    rewrite (provide_debounced input _ Hpath (proj2 Hinv1)) in Hrun.
    cbn [next set_clock this clock cancelled calls inflight sent settled]
      in Hrun.
    rewrite Hp in Hrun.
    match type of Hrun with
    | (let (_, _) := provide_all cs ?x in _) = _ =>
        set (w1 := x) in *;
        destruct (provide_all cs w1) as [ps1 w2] eqn:Hrest
    end.
    inversion Hrun; subst ps w'. clear Hrun.
    assert (Hinv' : inv w1).
    { pose proof (inv_provide input _ Hinv1) as H.
      rewrite (provide_debounced input _ Hpath (proj2 Hinv1)) in H.
      cbn [snd next set_clock this clock cancelled calls inflight sent settled]
        in H.
      by rewrite Hp in H. }
    destruct (IH w1 t (next w) input Hinv' He Hk eq_refl eq_refl)
      with (ps := ps1) (w' := w2)
      as (earlier & pN & before & tN & inputN & Hps & Hcs & Hp' & Hl' & Ht'
          & Hclk' & Hs' & Hi' & Hc' & Hm' & Hnull & Hsub & Hinv2);
      try done.
    { subst w1. cbn [timers clock]. f_equal. f_equal. lia. }
    { subst w1. cbn [clock]. lia. }
    exists (p0 :: earlier), pN, ((clock w, input0) :: before), tN, inputN.
    split; [by rewrite Hps|]. split; [by rewrite Hcs|].
    split_and!; try done.
    + intros p [->|Hp'']%elem_of_cons; [|by apply Hnull].
      apply Hsub. subst w1. cbn [settled]. apply elem_of_cons. by left.
    + intros x Hx. apply Hsub. subst w1. cbn [settled].
      apply elem_of_cons. by right.
Qed.

(** ** At most one live promise *)

Lemma live_promises_pending w p :
  inv w -> p ∈ live_promises w -> pendingResolve (this w) = Some p.
Proof.
  intros [H0 _] Hp. unfold live_promises in Hp.
  apply list_elem_of_filter in Hp as [Hu Hp].
  apply list_elem_of_fmap in Hp as ([q [how input]] & -> & Hc).
  apply list_elem_of_filter in Hc as [Hhow Hc]. simpl in Hhow. subst how.
  apply elem_of_map_to_list in Hc. by eapply (inv_live w H0).
Qed.

Lemma live_promises_NoDup w : NoDup (live_promises w).
Proof.
  unfold live_promises. apply NoDup_filter.
  eapply sublist_NoDup; [apply (NoDup_fst_map_to_list (calls w))|].
  apply fmap_sublist, sublist_filter.
Qed.

Lemma live_promises_one w : inv w -> length (live_promises w) <= 1.
Proof.
  intros H. pose proof (live_promises_NoDup w) as Hnd.
  pose proof (fun p => live_promises_pending w p H) as Hp.
  destruct (live_promises w) as [|a [|b l]]; simpl; [lia|lia|].
  exfalso.
  assert (a = b).
  { pose proof (Hp a ltac:(set_solver)). pose proof (Hp b ltac:(set_solver)).
    congruence. }
  subst. inversion Hnd as [|? ? Hn _]; subst. apply Hn. set_solver.
Qed.

(** ** The configuration is left alone *)

Lemma complete_config p v w : same_config w (complete p v w).
Proof. unfold complete. by destruct (bool_decide _). Qed.

Lemma fire_config h w : same_config w (fire h w).
Proof.
  unfold fire, onTimer.
  change (pendingResolve (this (clearTimeout h w)))
    with (pendingResolve (this w)).
  change (lastDebounceInput (this (clearTimeout h w)))
    with (lastDebounceInput (this w)).
  destruct (pendingResolve (this w)); [|done].
  destruct (lastDebounceInput (this w)); [|done].
  destruct (isCancellationRequested _ _);
    [apply (complete_config _ _ (clearTimeout h w))|].
  destruct (lineAt _ _); [|apply (complete_config _ _ (clearTimeout h w))].
  destruct (getFullMethodContext _ _);
    [done|apply (complete_config _ _ (clearTimeout h w))].
Qed.

Lemma advance_config t w : same_config w (advance t w).
Proof.
  unfold advance.
  assert (H : forall l w0, same_config w w0 ->
            same_config w
              (foldl (fun w (timer : nat * nat) => fire timer.1 w) w0 l)).
  { induction l as [|x l IH]; intros w0 H0; [done|]. simpl. apply IH.
    destruct H0 as (? & ? & ?), (fire_config x.1 w0) as (? & ? & ?).
    unfold same_config. split_and!; congruence. }
  apply (H _ w). done.
Qed.

Lemma advance_clock t w : clock (advance t w) = Nat.max t (clock w).
Proof. reflexivity. Qed.

Lemma NoDup_fst_unique {A B} (l : list (A * B)) x y1 y2 :
  NoDup l.*1 -> (x, y1) ∈ l -> (x, y2) ∈ l -> y1 = y2.
Proof.
  induction l as [|[a b] l IH]; intros Hnd H1 H2.
  - by apply elem_of_nil in H1.
  - apply NoDup_cons in Hnd as [Hn Hnd].
    apply elem_of_cons in H1 as [H1|H1], H2 as [H2|H2].
    + congruence.
    + inversion H1; subst. destruct Hn.
      apply list_elem_of_fmap. by exists (a, y2).
    + inversion H2; subst. destruct Hn.
      apply list_elem_of_fmap. by exists (a, y1).
    + by apply IH.
Qed.

Lemma live_promises_sole w p input :
  inv w -> calls w !! p = Some (Debounced, input) -> unsettled p w ->
  live_promises w = [p].
Proof.
  intros H Hc Hu.
  assert (Hin : p ∈ live_promises w).
  { unfold live_promises. apply list_elem_of_filter. split; [done|].
    apply list_elem_of_fmap. exists (p, (Debounced, input)). split; [done|].
    apply list_elem_of_filter. split; [done|]. by apply elem_of_map_to_list. }
  pose proof (live_promises_one w H) as Hlen.
  destruct (live_promises w) as [|a [|b l]]; simpl in Hlen.
  - by apply elem_of_nil in Hin.
  - apply list_elem_of_singleton in Hin. by subst.
  - lia.
Qed.

(** ** Armed timers *)

Lemma complete_timers p v w :
  timers (complete p v w) = timers w /\ clock (complete p v w) = clock w.
Proof. unfold complete. by destruct (bool_decide _). Qed.

Lemma onTimer_timers w :
  timers (onTimer w) = timers w /\ clock (onTimer w) = clock w.
Proof.
  unfold onTimer.
  destruct (pendingResolve (this w)); [|done].
  destruct (lastDebounceInput (this w)); [|done].
  destruct (isCancellationRequested _ _); [apply complete_timers|].
  destruct (lineAt _ _); [|apply complete_timers].
  destruct (getFullMethodContext _ _); [done|apply complete_timers].
Qed.

Lemma respond_timers id content w :
  timers (respond id content w) = timers w /\
  clock (respond id content w) = clock w.
Proof.
  unfold respond. destruct (inflight w !! id) as [[p pos|p pos cl]|]; [|done|done].
  apply (complete_timers _ _ (set_inflight (delete id) w)).
Qed.

Lemma provide_timers input w :
  pending_ok w ->
  clock (provideInlineCompletionItems input w).2 = clock w /\
  (timers (provideInlineCompletionItems input w).2 = timers w \/
   timers (provideInlineCompletionItems input w).2
     = [(S (next w), clock w + debounceDelay)]).
Proof.
  intros Hpend. destruct (pathOf input w) eqn:Hpath.
  4:{ rewrite (provide_debounced _ _ Hpath Hpend). simpl. auto. }
  all: unfold provideInlineCompletionItems; rewrite Hpath; cbn [fresh snd].
  1,2: simpl; auto.
  unfold handlePromptGeneration.
  destruct (isCancellationRequested _ _); [simpl; auto|].
  destruct (lineAt _ _); [|simpl; auto].
  destruct (userPromptOf _); [|simpl; auto].
  destruct (getFullMethodContext _ _); simpl; auto.
Qed.

Lemma timers_ok_advance t w : inv w -> timers_ok w -> timers_ok (advance t w).
Proof.
  intros [_ Hpend] Hok. unfold timers_ok. rewrite advance_clock.
  destruct (pending_ok_timers w Hpend) as [Ht|(h & due & Ht)].
  - unfold advance. rewrite Ht. simpl. rewrite Ht.
    intros ? ? H. by apply elem_of_nil in H.
  - destruct (Hok h due) as [Hlo Hhi]; [rewrite Ht; by left|].
    destruct (decide (due <= t)).
    + rewrite (advance_due _ _ _ _ Ht) by done. cbn [timers set_clock].
      unfold fire. rewrite (proj1 (onTimer_timers _)).
      rewrite (clearTimeout_armed _ _ _ Ht).
      intros ? ? H. by apply elem_of_nil in H.
    + rewrite (advance_quiet _ _ _ _ Ht) by lia. cbn [timers set_clock].
      rewrite Ht. intros h' due' [= -> ->]%list_elem_of_singleton. lia.
Qed.

Lemma timers_ok_handle e w : inv w -> timers_ok w -> timers_ok (handle e w).
Proof.
  intros [_ Hpend] Hok. destruct e as [input|tok|id content|key mdl on].
  - cbn [handle]. unfold timers_ok.
    destruct (provide_timers input w Hpend) as [-> [-> | ->]]; [done|].
    intros h due [= -> ->]%list_elem_of_singleton. unfold debounceDelay. lia.
  - done.
  - cbn [handle]. unfold timers_ok.
    destruct (respond_timers id content w) as [-> ->]. done.
  - done.
Qed.

Lemma reachable_timers_ok w : reachable w -> timers_ok w.
Proof.
  induction 1 as [key mdl on|t e w Hw IH|t w Hw IH].
  - intros h due H. by apply elem_of_nil in H.
  - apply timers_ok_handle; [by apply inv_advance, reachable_inv|].
    by apply timers_ok_advance; [apply reachable_inv|].
  - by apply timers_ok_advance; [apply reachable_inv|].
Qed.

(** ** A provider that is disabled or has no key *)

Lemma pathOf_refused input w :
  enabled (this w) = false \/ apiKey (this w) = [] ->
  pathOf input w = Refused.
Proof.
  intros [H|H]; unfold pathOf; rewrite H; [done|].
  rewrite bool_decide_eq_true_2 by done. by rewrite orb_true_r.
Qed.

Lemma provide_refused input w :
  enabled (this w) = false \/ apiKey (this w) = [] ->
  provideInlineCompletionItems input w =
  (next w,
   mkWorld (this w) (clock w) (timers w) (S (next w)) (cancelled w)
           (<[next w := (Refused, input)]> (calls w)) (inflight w) (sent w)
           ((next w, Fulfilled None) :: settled w)).
Proof.
  intros H. unfold provideInlineCompletionItems.
  by rewrite (pathOf_refused input w H).
Qed.

Lemma advance_no_timer t w :
  timers w = [] -> advance t w = set_clock (Nat.max t (clock w)) w.
Proof. intros Ht. unfold advance. by rewrite Ht. Qed.

Lemma refused_calls : forall cs w ps w',
  enabled (this w) = false \/ apiKey (this w) = [] ->
  timers w = [] ->
  provide_all cs w = (ps, w') ->
  sent w' = sent w /\ inflight w' = inflight w /\ timers w' = [] /\
  this w' = this w /\
  (forall x, x ∈ settled w -> x ∈ settled w') /\
  (forall p, p ∈ ps -> (p, Fulfilled None) ∈ settled w') /\
  length ps = length cs.
Proof.
  induction cs as [|[t input] cs IH]; intros w ps w' Hoff Ht Hrun.
  - inversion Hrun; subst. split_and!; try done.
    intros p H. by apply elem_of_nil in H.
  - rewrite provide_all_cons, (advance_no_timer _ _ Ht) in Hrun.
    rewrite provide_refused in Hrun by done.
    cbn [next set_clock this clock cancelled calls inflight sent settled
           timers] in Hrun.
    match type of Hrun with
    | (let (_, _) := provide_all cs ?x in _) = _ =>
        set (w1 := x) in *;
        destruct (provide_all cs w1) as [ps1 w2] eqn:Hrest
    end.
    inversion Hrun; subst ps w'. clear Hrun.
    destruct (IH w1 ps1 w2) as (Hs & Hi & Ht' & Hthis & Hsub & Hnull & Hlen);
      [done|done|done|].
    split_and!; try done.
    + intros x Hx. apply Hsub. subst w1. cbn [settled].
      apply elem_of_cons. by right.
    + intros p [->|Hp]%elem_of_cons; [|by apply Hnull].
      apply Hsub. subst w1. cbn [settled]. apply elem_of_cons. by left.
    + simpl. by rewrite Hlen.
Qed.

End CoordinatorFacts.

(** * Properties of the caching provider *)

Module AdvancedFacts.
Import JS Extractor Coordinator Advanced Spec JSFacts.

Lemma to_int32_range z : (- 2 ^ 31 <= to_int32 z < 2 ^ 31)%Z.
Proof.
  unfold to_int32.
  pose proof (Z.mod_pos_bound (z + 2 ^ 31) (2 ^ 32) ltac:(lia)). lia.
Qed.

Lemma to_int32_small z : (- 2 ^ 31 <= z < 2 ^ 31)%Z -> to_int32 z = z.
Proof. intros H. unfold to_int32. rewrite Z.mod_small; lia. Qed.

Lemma to_int32_congr a b :
  (a mod 2 ^ 32 = b mod 2 ^ 32)%Z -> to_int32 a = to_int32 b.
Proof.
  intros H. unfold to_int32.
  rewrite <- (Zplus_mod_idemp_l a), H, Zplus_mod_idemp_l. done.
Qed.

Lemma to_int32_mod z : (to_int32 z mod 2 ^ 32 = z mod 2 ^ 32)%Z.
Proof.
  unfold to_int32.
  rewrite <- Zminus_mod_idemp_l, Z.mod_mod by lia.
  rewrite Zminus_mod_idemp_l. f_equal. lia.
Qed.

(** One turn of the loop multiplies by 31 and adds the code unit, modulo
    2^32. *)
Lemma hashStep_poly h c :
  hashStep h c = to_int32 (31 * h + charCodeAt c).
Proof.
  unfold hashStep. rewrite Z.land_diag. apply to_int32_congr.
  rewrite Z.shiftl_mul_pow2 by lia.
  rewrite <- Zplus_mod_idemp_l, <- Zminus_mod_idemp_l, to_int32_mod.
  rewrite <- Zmult_mod_idemp_l, to_int32_mod, Zmult_mod_idemp_l.
  rewrite Zminus_mod_idemp_l, Zplus_mod_idemp_l. f_equal. lia.
Qed.

Lemma foldl_hashStep_poly s : forall h g,
  (h mod 2 ^ 32 = g mod 2 ^ 32)%Z ->
  (foldl hashStep h s mod 2 ^ 32 =
   foldl (fun h c => 31 * h + charCodeAt c) g s mod 2 ^ 32)%Z.
Proof.
  induction s as [|c s IH]; intros h g H; simpl; [done|].
  apply IH. rewrite hashStep_poly, to_int32_mod.
  rewrite <- Zplus_mod_idemp_l, <- Zmult_mod_idemp_r, H.
  by rewrite Zmult_mod_idemp_r, Zplus_mod_idemp_l.
Qed.

Lemma foldl_hashStep_range s : forall h,
  (- 2 ^ 31 <= h < 2 ^ 31)%Z ->
  (- 2 ^ 31 <= foldl hashStep h s < 2 ^ 31)%Z.
Proof.
  induction s as [|c s IH]; intros h H; simpl; [done|].
  apply IH. rewrite hashStep_poly. apply to_int32_range.
Qed.

Lemma contextHash_poly s : contextHash s = to_int32 (polyHash s).
Proof.
  unfold contextHash, polyHash.
  rewrite <- (to_int32_small (foldl hashStep 0%Z s))
    by (apply foldl_hashStep_range; lia).
  apply to_int32_congr. by apply foldl_hashStep_poly.
Qed.

Lemma polyHash_collision u v :
  polyHash (u ++ str "Aa" ++ v) = polyHash (u ++ str "BB" ++ v).
Proof.
  unfold polyHash. rewrite !foldl_app. f_equal. simpl.
  change (charCodeAt "A") with 65%Z. change (charCodeAt "a") with 97%Z.
  change (charCodeAt "B") with 66%Z. lia.
Qed.

(** ** The extended context *)

Lemma extendedLines_plain document position : forall count i,
  i + count <= length (lines document) ->
  (forall j, i <= j < i + count -> j <> line position) ->
  extendedLines document position i count
  = Some (take count (drop i (lines document))).
Proof.
  induction count as [|count IH]; intros i Hlen Hne; simpl; [done|].
  unfold lineAt.
  destruct (lookup_lt_is_Some_2 (lines document) i) as [l Hl]; [lia|].
  rewrite Hl, IH; [|lia|intros j Hj; apply Hne; lia].
  rewrite (proj2 (Nat.eqb_neq _ _)) by (apply Hne; lia). simpl.
  rewrite (drop_S _ _ _ Hl). done.
Qed.

Lemma extendedLines_app document position : forall a b i,
  extendedLines document position i (a + b) =
  match extendedLines document position i a,
        extendedLines document position (i + a) b with
  | Some x, Some y => Some (x ++ y)
  | _, _ => None
  end.
Proof.
  induction a as [|a IH]; intros b i; simpl.
  - rewrite Nat.add_0_r. by destruct (extendedLines _ _ _ _).
  - destruct (lineAt document i); [|done].
    rewrite IH. replace (S i + a) with (i + S a) by lia.
    destruct (extendedLines document position (S i) a); simpl; [|done].
    by destruct (extendedLines document position (i + S a) b).
Qed.

Lemma getExtendedContext_at document position l :
  lineAt document (line position) = Some l ->
  getExtendedContext document position =
  Some (join nl
          (take (line position - (line position - 20))
                (drop (line position - 20) (lines document)) ++
           [substring0 (character position) l ++ cursorMark] ++
           take 5 (drop (S (line position)) (lines document)))).
Proof.
  intros Hl. pose proof (lookup_lt_Some _ _ _ Hl) as Hlt.
  unfold getExtendedContext.
  replace (Z.to_nat (Z.max 0 (Z.of_nat (line position) - 20)))
    with (line position - 20) by lia.
  replace (Z.to_nat (Z.min (Z.of_nat (length (lines document)) - 1)
                           (Z.of_nat (line position) + 5)
                     - Z.max 0 (Z.of_nat (line position) - 20) + 1))
    with ((line position - (line position - 20)) +
          (1 + (Nat.min (length (lines document) - 1) (line position + 5)
                - line position))) by lia.
  rewrite extendedLines_app, extendedLines_plain; [|lia|intros; lia].
  replace (line position - 20 + (line position - (line position - 20)))
    with (line position) by lia.
  rewrite (extendedLines_app document position 1).
  cbn [extendedLines]. rewrite Hl, Nat.eqb_refl. cbn [option_map].
  replace (line position + 1) with (S (line position)) by lia.
  rewrite extendedLines_plain; [|lia|intros; lia].
  cbn [option_map].
  destruct (decide (line position + 5 <= length (lines document) - 1)).
  - by replace (Nat.min (length (lines document) - 1) (line position + 5)
                - line position) with 5 by lia.
  - rewrite !(take_ge (drop (S (line position)) (lines document)));
      [done|rewrite length_drop; lia|rewrite length_drop; lia].
Qed.

Lemma getExtendedContext_beyond document position :
  length (lines document) <= line position ->
  getExtendedContext document position =
  Some (join nl (drop (line position - 20) (lines document))).
Proof.
  intros Hlen. unfold getExtendedContext.
  replace (Z.to_nat (Z.max 0 (Z.of_nat (line position) - 20)))
    with (line position - 20) by lia.
  replace (Z.to_nat (Z.min (Z.of_nat (length (lines document)) - 1)
                           (Z.of_nat (line position) + 5)
                     - Z.max 0 (Z.of_nat (line position) - 20) + 1))
    with (length (lines document) - (line position - 20)) by lia.
  destruct (decide (line position - 20 <= length (lines document))).
  - rewrite extendedLines_plain; [|lia|intros; lia].
    simpl. do 2 f_equal. apply take_ge. rewrite length_drop. lia.
  - replace (length (lines document) - (line position - 20)) with 0 by lia.
    simpl. rewrite drop_ge by lia. done.
Qed.

(** ** The cache *)

Lemma generateCacheKey_inj a b :
  generateCacheKey a = generateCacheKey b <-> contextHash a = contextHash b.
Proof.
  unfold generateCacheKey. split; [|by intros ->].
  intros H. by apply (inj pretty) in H.
Qed.

Lemma trim_nil_all_space text : trim text = [] <-> all_space text.
Proof.
  split.
  - intros H. destruct (trim_spec text) as (l & r & E & Hl & Hr & _).
    rewrite H in E. rewrite E. unfold all_space in *.
    apply Forall_app. split; [done|]. by apply Forall_app.
  - intros H. apply SanitizerFacts.trimmed_all_space; [apply trim_trimmed|].
    eapply SanitizerFacts.all_space_infix; [apply trim_infix|done].
Qed.

Lemma requestCompletion_result_Some reply c :
  requestCompletion_result reply = Some c ->
  exists text, reply = Some text /\ c = trim text /\ c <> [].
Proof.
  destruct reply as [text|]; [|done]. cbn [requestCompletion_result].
  destruct (trim text) as [|a t] eqn:E; [done|].
  intros [= <-]. exists text. by rewrite E.
Qed.

Lemma lookup_stored model cache t0 now document position context c :
  getExtendedContext document position = Some context ->
  getAdvancedCompletion_lookup model
    (<[generateCacheKey context := mkEntry c t0]> cache) now
    document position =
  Some (if (now - t0 <? cacheTimeout)%Z then CacheHit c
        else CacheMiss (generateCacheKey context)
               (requestCompletion_request model context
                  (languageId document))).
Proof.
  intros Hc. unfold getAdvancedCompletion_lookup. rewrite Hc.
  rewrite lookup_insert_eq. cbn [timestamp completion].
  by destruct (now - t0 <? cacheTimeout)%Z.
Qed.

Lemma lookup_miss_key model cache now document position key r :
  getAdvancedCompletion_lookup model cache now document position
    = Some (CacheMiss key r) ->
  exists context,
    getExtendedContext document position = Some context /\
    key = generateCacheKey context /\
    r = requestCompletion_request model context (languageId document).
Proof.
  unfold getAdvancedCompletion_lookup.
  destruct (getExtendedContext document position) as [context|]; [|done].
  intros H. exists context. split; [done|].
  destruct (cache !! generateCacheKey context) as [cached|].
  - destruct (now - timestamp cached <? cacheTimeout)%Z; [done|].
    by inversion H.
  - by inversion H.
Qed.

End AdvancedFacts.

(** * Main results *)

Import JS Re Sanitizer Extractor Coordinator Spec.
Import JSFacts ReFacts SanitizerFacts ExtractorFacts CoordinatorFacts.

(** C1.  In a world the provider can reach, when the response to the
    request sent for promise [p] arrives: if [p] is still the pending
    promise, its resolve function is called, once, with the completion
    made from that response at the position of the call that returned
    [p], and the request answered was built from the context of that very
    call; if another request has become current, or none is, nothing is
    resolved, and [p] was resolved with null and with nothing else.  In
    either case no promise is settled twice. *)
Theorem stale_completion_discarded w id content p pos :
  reachable w ->
  inflight w !! id = Some (AwaitCompletion p pos) ->
  (pendingResolve (this w) = Some p ->
   settled (respond id content w) =
     (p, Fulfilled (completionOf content pos)) :: settled w /\
   unsettled p w /\
   exists input, calls w !! p = Some (Debounced, input) /\
                 pos = position input /\ request_of input id w) /\
  (pendingResolve (this w) <> Some p ->
   settled (respond id content w) = settled w /\
   (p, Fulfilled None) ∈ settled w /\
   forall o, (p, o) ∈ settled (respond id content w) -> o = Fulfilled None) /\
  NoDup (settled w).*1 /\
  NoDup (settled (respond id content w)).*1.
Proof.
  intros Hreach Hid. pose proof (reachable_inv w Hreach) as Hinv.
  pose proof (inv_respond id content w Hinv) as [[Hnd' _ _ _ _ _ _ _] _].
  destruct Hinv as [[Hnd Hfc Hfs Hfi Hst Hctx Hgen Hlive] Hpend].
  split_and!; try done.
  - intros Hp. unfold respond. rewrite Hid. unfold complete.
    change (pendingResolve (this (set_inflight (delete id) w)))
      with (pendingResolve (this w)).
    rewrite Hp, bool_decide_eq_true_2 by done.
    split; [done|]. unfold pending_ok in Hpend. rewrite Hp in Hpend.
    destruct Hpend as (i & _ & _ & Hu & _). split; [done|].
    by apply Hctx.
  - intros Hp. unfold respond. rewrite Hid.
    rewrite complete_stale by done.
    assert (Hnull : (p, Fulfilled None) ∈ settled w) by by eapply Hst.
    split; [done|]. split; [done|].
    intros o Ho. by eapply (NoDup_fst_unique (settled w) p).
Qed.

Lemma stale_completion_discarded_witness :
  reachable dispatched /\
  inflight dispatched !! 2 = Some (AwaitCompletion 0 (mkPosition 1 9)) /\
  NoDup (settled (respond 2 (Some (str "a + b;")) dispatched)).*1.
Proof.
  assert (Hr : reachable dispatched) by (repeat constructor).
  assert (Hi : inflight dispatched !! 2
               = Some (AwaitCompletion 0 (mkPosition 1 9))) by by vm_compute.
  split; [exact Hr|]. split; [exact Hi|].
  apply (stale_completion_discarded dispatched 2 (Some (str "a + b;")) 0
           (mkPosition 1 9) Hr Hi).
Defined.

(** C2 (as the code has it).  With the provider enabled and holding a
    key, calls that take the debounced path (the cursor line exists and
    its prefix is no prompt trigger) and that come each less than the
    debounce delay after the one before: every call but the last was
    resolved with null, once, by the call after it; the last call is the
    sole pending request, its promise the only live one, and its timer
    the only one armed; no request was sent while the calls came; when
    the delay has passed after the last call its timer has fired, and it
    has sent exactly one request, the one of the last call, unless the
    token of the last call was cancelled: then the last call is resolved
    with null and no request is sent.  In every world the provider can
    reach at most one promise is live. *)
Theorem rapid_calls_dispatch_last w0 t1 input1 cs ps w :
  reachable w0 -> enabled (this w0) = true -> apiKey (this w0) <> [] ->
  clock w0 <= t1 -> rapid t1 cs -> Forall inline_input (input1 :: cs.*2) ->
  provide_all ((t1, input1) :: cs) w0 = (ps, w) ->
  (exists earlier pN before tN inputN,
     ps = earlier ++ [pN] /\
     (t1, input1) :: cs = before ++ [(tN, inputN)] /\
     (forall p, p ∈ earlier -> (p, Fulfilled None) ∈ settled w) /\
     NoDup (settled w).*1 /\
     pendingResolve (this w) = Some pN /\
     lastDebounceInput (this w) = Some inputN /\
     live_promises w = [pN] /\
     timers w = [(S pN, tN + debounceDelay)] /\
     sent w = sent (advance t1 w0) /\
     inflight w = inflight (advance t1 w0) /\
     (forall T,
        tN + debounceDelay <= T ->
        timers (advance T w) = [] /\
        (isCancellationRequested (token inputN) w = false ->
         exists contextCode,
           getFullMethodContext (document inputN) (position inputN)
             = Some contextCode /\
           sent (advance T w) =
             <[next w := completionRequest (model (this w)) contextCode
                           (languageId (document inputN))
                           (fileName (document inputN))]> (sent w) /\
           inflight (advance T w) =
             <[next w := AwaitCompletion pN (position inputN)]> (inflight w) /\
           settled (advance T w) = settled w) /\
        (isCancellationRequested (token inputN) w = true ->
         sent (advance T w) = sent w /\
         inflight (advance T w) = inflight w /\
         settled (advance T w) = (pN, Fulfilled None) :: settled w))) /\
  (forall w', reachable w' -> length (live_promises w') <= 1).
Proof.
  intros Hreach He Hk Hclk Hrapid Hin Hrun.
  split; [|intros w' Hw'; by apply live_promises_one, reachable_inv].
  pose proof (inv_advance t1 w0 (reachable_inv w0 Hreach)) as Hinv0.
  destruct (advance_config t1 w0) as (Hk0 & _ & He0).
  rewrite provide_all_cons in Hrun.
  inversion Hin as [|? ? Hin1 Hin2]; subst.
  assert (Hpath : pathOf input1 (advance t1 w0) = Debounced).
  { apply pathOf_inline; [congruence|congruence|done]. }
  pose proof (inv_provide input1 _ Hinv0) as Hinv1.
  rewrite (provide_debounced input1 _ Hpath (proj2 Hinv0)) in Hrun, Hinv1.
  cbn [snd] in Hinv1.
  match type of Hrun with
  | (let (_, _) := provide_all cs ?x in _) = _ =>
      set (w1 := x) in *;
      destruct (provide_all cs w1) as [ps1 w2] eqn:Hrest
  end.
  inversion Hrun; subst ps w. clear Hrun.
  destruct (rapid_tail cs w1 t1 (next (advance t1 w0)) input1 Hinv1)
    with (ps := ps1) (w' := w2)
    as (earlier & pN & before & tN & inputN & Hps & Hcs & Hp' & Hl' & Ht'
        & Hclk' & Hs' & Hi' & Hc' & Hm' & Hnull & Hsub & Hinv2);
    try done.
  { subst w1. cbn [this enabled]. congruence. }
  { subst w1. cbn [this apiKey]. congruence. }
  { subst w1. cbn [timers]. rewrite advance_clock. do 3 f_equal. lia. }
  { subst w1. cbn [clock]. rewrite advance_clock. lia. }
  exists earlier, pN, before, tN, inputN.
  assert (Hpend2 := proj2 Hinv2). unfold pending_ok in Hpend2.
  rewrite Hp', Hl' in Hpend2.
  destruct Hpend2 as (i & [= <-] & Hcall & Hu & _).
  split_and!; try done.
  - apply (inv_nodup w2 (proj1 Hinv2)).
  - by eapply live_promises_sole.
  - intros T HT. rewrite (advance_due _ _ _ _ Ht' HT).
    assert (Hclear : filter (fun t : nat * nat => t.1 <> S pN)
                       [(S pN, tN + debounceDelay)] = []).
    { rewrite filter_cons_False; [done|]. simpl. tauto. }
    destruct (isCancellationRequested (token inputN) w2) eqn:Hnc.
    { rewrite (fire_cancelled _ _ _ _ Hp' Hl' Hnc).
      cbn [sent inflight timers settled set_clock set_this resolve
             clearTimeout set_timers].
      rewrite Ht'. by split_and!. }
    assert (HinN : inline_input inputN).
    { assert (Hmem : inputN ∈ input1 :: cs.*2).
      { change (input1 :: cs.*2) with (((t1, input1) :: cs).*2).
        rewrite Hcs, fmap_app. apply elem_of_app. right.
        by apply list_elem_of_singleton. }
      rewrite Forall_forall in Hin. by apply Hin. }
    destruct HinN as (l & Hline & _).
    destruct (getFullMethodContext_total (document inputN) (position inputN))
      as [contextCode Hcx]; [by rewrite Hline|].
    rewrite (fire_dispatch _ _ _ _ _ Hp' Hl' Hnc Hcx).
    cbn [sent inflight timers settled set_clock post fresh clearTimeout
           set_timers next this].
    rewrite Ht'. split_and!; try done.
    intros _. by exists contextCode.
Qed.

Lemma rapid_calls_dispatch_last_witness :
  reachable ready /\ enabled (this ready) = true /\
  apiKey (this ready) <> [] /\ clock ready <= 0 /\
  rapid 0 [(100, sum_input)] /\
  Forall inline_input [sum_input_earlier; sum_input] /\
  provide_all [(0, sum_input_earlier); (100, sum_input)] ready
    = ([0; 2], two_calls) /\
  forall w', reachable w' -> length (live_promises w') <= 1.
Proof.
  assert (Hr : reachable ready) by constructor.
  assert (He : enabled (this ready) = true) by reflexivity.
  assert (Hk : apiKey (this ready) <> []) by done.
  assert (Hc : clock ready <= 0) by (simpl; lia).
  assert (Hrapid : rapid 0 [(100, sum_input)]).
  { simpl. unfold debounceDelay. lia. }
  assert (Hin : Forall inline_input [sum_input_earlier; sum_input]).
  { repeat constructor; by eexists. }
  assert (Hrun : provide_all [(0, sum_input_earlier); (100, sum_input)] ready
                 = ([0; 2], two_calls)) by (vm_compute; reflexivity).
  split; [exact Hr|]. split; [exact He|]. split; [exact Hk|].
  split; [exact Hc|]. split; [exact Hrapid|]. split; [exact Hin|].
  split; [exact Hrun|].
  apply (rapid_calls_dispatch_last ready 0 sum_input_earlier
           [(100, sum_input)] [0; 2] two_calls Hr He Hk Hc Hrapid Hin Hrun).
Defined.

(** C2 as stated fails: an inline call and, 100 ms later, a call of the
    entry point on a prompt line.  The second call returns before the
    debounce code, so the first call is not resolved with null, its timer
    is not cleared, and when it expires the request of the first call,
    not of the last, is dispatched. *)
Lemma rapid_calls_prompt_call_does_not_supersede :
  ~ ((0, Fulfilled None) ∈ settled (advance 600 mixed_calls) /\
     forall id pos,
       inflight (advance 600 mixed_calls) !! id <>
         Some (AwaitCompletion 0 pos)).
Proof.
  assert (Hi : inflight (advance 600 mixed_calls) !! 4 =
               Some (AwaitCompletion 0 (mkPosition 1 9))) by (by vm_compute).
  intros [_ H]. by destruct (H 4 (mkPosition 1 9)).
Qed.

Example mixed_calls_first_dispatched :
  rapid 0 [(100, mixed_prompt)] /\
  provide_all [(0, mixed_inline); (100, mixed_prompt)] ready
    = ([0; 2], mixed_calls) /\
  pathOf mixed_inline ready = Debounced /\
  pathOf mixed_prompt (advance 100 (provideInlineCompletionItems
                                      mixed_inline ready).2) = Prompted /\
  timers mixed_calls = [(1, 500)] /\
  settled (advance 600 mixed_calls) = [] /\
  pendingResolve (this (advance 600 mixed_calls)) = Some 0 /\
  inflight (advance 600 mixed_calls) !! 4 =
    Some (AwaitCompletion 0 (mkPosition 1 9)).
Proof.
  split; [simpl; unfold debounceDelay; lia|].
  split; [by rewrite (surjective_pairing (provide_all _ _)); vm_compute|].
  split_and!; by vm_compute.
Qed.

(** C3 (as the code has it).  On the reply
    [<think>reasoning...</think>], newline, and the fenced block
    [return a + b;], [cleanCompletion] returns the empty string: the reply
    starts with the marker and everything from the marker on is removed.
    On the fenced block alone it returns [return a + b;]. *)
Theorem cleanCompletion_think_fenced_reply :
  cleanCompletion think_fenced_reply = [] /\
  cleanCompletion fenced_reply = str "return a + b;".
Proof. split; reflexivity. Qed.

(** C3 as stated fails: the result is not [return a + b;]. *)
Lemma cleanCompletion_think_fenced_reply_not_code :
  cleanCompletion think_fenced_reply <> str "return a + b;".
Proof. by vm_compute. Qed.

(** C4.  When the raw text holds the reasoning marker, in any letter
    case, first at index [i], both cleaning functions return what they
    return on the text before the marker alone, and that result is a run
    of consecutive characters of the text before the marker: nothing
    from the marker on reaches the output. *)
Theorem cleaners_drop_from_marker x i :
  find_marker x = Some i ->
  cleanCompletion x = cleanCompletion (take i x) /\
  cleanGeneratedCode x = cleanGeneratedCode (take i x) /\
  infix (cleanCompletion x) (take i x) /\
  infix (cleanGeneratedCode x) (take i x).
Proof.
  intros H. split_and!.
  - by apply cleanCompletion_before_marker.
  - by apply cleanGeneratedCode_before_marker.
  - rewrite <- (strip_think_some _ _ H). apply cleanCompletion_infix.
  - rewrite <- (strip_think_some _ _ H). apply cleanGeneratedCode_infix.
Qed.

Lemma cleaners_drop_from_marker_witness :
  find_marker (str "x = 1; <THINK> y = 2;") = Some 7 /\
  cleanCompletion (str "x = 1; <THINK> y = 2;") =
    cleanCompletion (take 7 (str "x = 1; <THINK> y = 2;")).
Proof.
  split; [reflexivity|].
  apply (cleaners_drop_from_marker (str "x = 1; <THINK> y = 2;") 7).
  reflexivity.
Defined.

(** C5 (as the code has it).  When the token of the pending request is
    cancelled while its timer is armed, nothing happens at that moment:
    the request stays pending and unresolved and the timer stays armed.
    When the timer expires, the request is resolved with null and no
    request is sent to the service. *)
Theorem cancel_takes_effect_at_expiry w p input h due t T :
  pendingResolve (this w) = Some p ->
  lastDebounceInput (this w) = Some input ->
  timers w = [(h, due)] -> t < due -> due <= T ->
  (settled (deliver t (Cancel (token input)) w) = settled w /\
   timers (deliver t (Cancel (token input)) w) = [(h, due)] /\
   this (deliver t (Cancel (token input)) w) = this w) /\
  (settled (advance T (deliver t (Cancel (token input)) w)) =
     (p, Fulfilled None) :: settled w /\
   timers (advance T (deliver t (Cancel (token input)) w)) = [] /\
   sent (advance T (deliver t (Cancel (token input)) w)) = sent w /\
   inflight (advance T (deliver t (Cancel (token input)) w)) = inflight w /\
   pendingResolve (this (advance T (deliver t (Cancel (token input)) w)))
     = None).
Proof.
  intros Hp Hl Ht Hlt Hle. unfold deliver.
  rewrite (advance_quiet _ _ _ _ Ht Hlt). cbn [handle].
  split; [by rewrite <- Ht|].
  set (w1 := set_cancelled _ _).
  assert (Ht1 : timers w1 = [(h, due)]) by done.
  rewrite (advance_due _ _ _ _ Ht1 Hle).
  rewrite (fire_cancelled h p input w1 Hp Hl).
  - cbn [settled timers sent inflight this pendingResolve set_clock set_this
           resolve clearTimeout set_timers].
    subst w1. cbn [timers set_cancelled set_clock]. rewrite Ht.
    rewrite filter_cons_False; [done|]. simpl. tauto.
  - unfold isCancellationRequested. apply bool_decide_eq_true_2.
    subst w1. cbn [cancelled set_cancelled]. set_solver.
Qed.

Lemma cancel_takes_effect_at_expiry_witness :
  pendingResolve (this debouncing) = Some 0 /\
  lastDebounceInput (this debouncing) = Some sum_input /\
  timers debouncing = [(1, 500)] /\
  settled (deliver 10 (Cancel (token sum_input)) debouncing)
    = settled debouncing.
Proof.
  assert (Hp : pendingResolve (this debouncing) = Some 0) by reflexivity.
  assert (Hl : lastDebounceInput (this debouncing) = Some sum_input)
    by reflexivity.
  assert (Ht : timers debouncing = [(1, 500)]) by reflexivity.
  split; [exact Hp|]. split; [exact Hl|]. split; [exact Ht|].
  apply (cancel_takes_effect_at_expiry debouncing 0 sum_input 1 500 10 500
           Hp Hl Ht); lia.
Defined.

(** C5 as stated fails: 10 ms after the timer was armed for 500 ms the
    token is cancelled, and the request is not resolved and the timer is
    not cleared. *)
Lemma cancel_does_not_resolve_at_once :
  ~ ((0, Fulfilled None) ∈ settled (deliver 10 (Cancel 7) debouncing) /\
     timers (deliver 10 (Cancel 7) debouncing) = []).
Proof.
  assert (Hs : settled (deliver 10 (Cancel 7) debouncing) = [])
    by reflexivity.
  intros [H _]. rewrite Hs in H. by apply elem_of_nil in H.
Qed.

(** C6 (the code departs from it).  With a declaration 21 lines above
    the cursor and none on the 20 lines between, nor on the cursor line,
    the scan still finds the declaration: the context starts on line 0,
    not on line 21 - 15 = 6. *)
Theorem scan_reads_21_lines_back :
  (forall i l, 1 <= i <= 21 -> lineAt far_declaration i = Some l ->
               declarationLine l = false) /\
  contextStart far_declaration far_cursor = Some 0 /\
  Z.to_nat (Z.max 0 (Z.of_nat (line far_cursor) - 15)) = 6 /\
  option_map (fun c => length (split "010" c))
    (getFullMethodContext far_declaration far_cursor) = Some 22.
Proof.
  split_and!; try reflexivity.
  intros i l Hi Hl. destruct i as [|i]; [lia|].
  change (replicate 21 (str "x") !! i = Some l) in Hl.
  apply lookup_replicate in Hl as [-> _]. reflexivity.
Qed.

(** C7 (as the code has it).  A prefix triggers prompt generation
    exactly when, trimmed, it is the marker [// ] followed by text that
    holds a character other than white space.  On a triggering prefix the
    user prompt is the first line of the text after the marker: the text
    from its first character that is no white space up to the first line
    terminator after it, trimmed.  When the text after the marker holds no
    line terminator, that is this text, trimmed.  The prefix
    [// create a function that validates email addresses] triggers, with
    the prompt [create a function that validates email addresses]. *)
Theorem prompt_trigger_and_intent prefix :
  (isPromptBasedGeneration prefix = true <->
   exists rest, trim prefix = str "// " ++ rest /\
                exists c, In c rest /\ is_space c = false) /\
  (isPromptBasedGeneration prefix = true ->
   forall rest,
     trim prefix = str "// " ++ rest ->
     userPromptOf prefix = Some (trim (first_line (trimStart rest))) /\
     (Forall (fun c => is_line_terminator c = false) rest ->
      userPromptOf prefix = Some (trim rest))) /\
  isPromptBasedGeneration email_prompt = true /\
  userPromptOf email_prompt =
    Some (str "create a function that validates email addresses").
Proof.
  split_and!; try reflexivity.
  - apply isPromptBasedGeneration_spec.
  - intros Htrig rest Hrest.
    apply isPromptBasedGeneration_spec in Htrig as (rest' & Hrest' & Hc).
    rewrite Hrest in Hrest'. apply app_inv_head in Hrest'. subst rest'.
    split; [by apply userPromptOf_first_line|].
    intros Hlt. by apply userPromptOf_one_line.
Qed.

Lemma prompt_trigger_and_intent_witness :
  isPromptBasedGeneration (str "  // sort the list ") = true /\
  trim (str "  // sort the list ") = str "// " ++ str "sort the list" /\
  Forall (fun c => is_line_terminator c = false) (str "sort the list") /\
  userPromptOf (str "  // sort the list ") = Some (trim (str "sort the list")).
Proof.
  assert (Htrig : isPromptBasedGeneration (str "  // sort the list ") = true)
    by reflexivity.
  assert (Hrest : trim (str "  // sort the list ") =
                  str "// " ++ str "sort the list") by reflexivity.
  assert (Hlt : Forall (fun c => is_line_terminator c = false)
                       (str "sort the list")) by (by repeat constructor).
  split; [exact Htrig|]. split; [exact Hrest|]. split; [exact Hlt|].
  exact (proj2 (proj1 (proj2 (prompt_trigger_and_intent
                                (str "  // sort the list ")))
                      Htrig (str "sort the list") Hrest) Hlt).
Defined.

(** C7 as stated fails: the prefix [// x], the line separator U+2028,
    [y] triggers, and the user prompt is not the text after the marker,
    [x], U+2028, [y]. *)
Lemma userPromptOf_cut_at_line_separator :
  ~ (isPromptBasedGeneration separator_prompt = true ->
     userPromptOf separator_prompt = Some (trim separator_rest)).
Proof. intros H. specialize (H eq_refl). by vm_compute in H. Qed.

Example separator_prompt_cut :
  isPromptBasedGeneration separator_prompt = true /\
  trim separator_prompt = str "// " ++ separator_rest /\
  trim separator_rest = separator_rest /\
  userPromptOf separator_prompt = Some (str "x").
Proof. split_and!; reflexivity. Qed.

(** C8 (as the code has it).  Cleaning a cleaned result again changes
    nothing when the cleaned result does not end with a code fence. *)
Theorem cleanCompletion_idempotent_without_fence x :
  endsWith (str "```") (cleanCompletion x) = false ->
  cleanCompletion (cleanCompletion x) = cleanCompletion x.
Proof.
  intros Hfence.
  destruct (cleanCompletion_spec x) as [E|(ln & E & Hcode & Hnl & Hin)].
  - by rewrite E.
  - rewrite E in *. destruct (trim ln) as [|c t] eqn:Et; [done|].
    rewrite <- Et in *. apply cleanCompletion_fixed; try done.
    + by rewrite Et.
    + apply trim_trimmed.
    + intros H. apply Hnl. eapply infix_In; [apply trim_infix|done].
    + eapply find_marker_infix; [|apply strip_think_marker_free].
      eapply infix_trans; [apply trim_infix|exact Hin].
Qed.

Lemma cleanCompletion_idempotent_without_fence_witness :
  endsWith (str "```") (cleanCompletion fenced_reply) = false /\
  cleanCompletion (cleanCompletion fenced_reply) = cleanCompletion fenced_reply.
Proof.
  split; [reflexivity|].
  apply (cleanCompletion_idempotent_without_fence fenced_reply). reflexivity.
Defined.

(** C8 as stated fails: on a reply whose first line ends with a fence the
    second cleaning removes the fence the first one left. *)
Lemma cleanCompletion_not_idempotent :
  cleanCompletion (cleanCompletion fence_tail_reply) <>
    cleanCompletion fence_tail_reply.
Proof. by vm_compute. Qed.

Example fence_tail_reply_cleaned :
  cleanCompletion fence_tail_reply = str "a = 1```" /\
  cleanCompletion (cleanCompletion fence_tail_reply) = str "a = 1".
Proof. split; reflexivity. Qed.

(** C9 (as the code has it).  On the reply
    [Here's the code: const x = 5;] the inline cleaner [cleanCompletion]
    yields the empty string: none of its prose prefixes matches, and the
    one line holds the keyword [the code], so it is not taken for code.
    The cleaner of the prompt mode, [cleanGeneratedCode], yields
    [const x = 5;]. *)
Theorem cleanCompletion_prose_reply :
  cleanCompletion prose_reply = [] /\
  looksLikeCode prose_reply = false /\
  cleanGeneratedCode prose_reply = str "const x = 5;".
Proof. split_and!; reflexivity. Qed.

(** C9 as stated fails: the inline result is not [const x = 5;]. *)
Lemma cleanCompletion_prose_reply_not_code :
  cleanCompletion prose_reply <> str "const x = 5;".
Proof. by vm_compute. Qed.

(** C10.  A call whose line prefix is a prompt trigger leaves the
    provider object, the armed timers and the clock as they are, and a
    pending inline request stays pending and unresolved.  The call is
    served at once: with its token cancelled it resolves with null, and
    otherwise its request leaves in the call itself. *)
Theorem prompt_call_skips_debounce input w :
  reachable w -> pathOf input w = Prompted ->
  this (provideInlineCompletionItems input w).2 = this w /\
  timers (provideInlineCompletionItems input w).2 = timers w /\
  clock (provideInlineCompletionItems input w).2 = clock w /\
  (forall q, pendingResolve (this w) = Some q ->
             unsettled q w /\
             unsettled q (provideInlineCompletionItems input w).2) /\
  (isCancellationRequested (token input) w = true ->
   settled (provideInlineCompletionItems input w).2 =
     (next w, Fulfilled None) :: settled w /\
   sent (provideInlineCompletionItems input w).2 = sent w) /\
  (isCancellationRequested (token input) w = false ->
   exists r currentLine,
     sent (provideInlineCompletionItems input w).2 =
       <[S (next w) := r]> (sent w) /\
     inflight (provideInlineCompletionItems input w).2 =
       <[S (next w) := AwaitGenerated (next w) (position input) currentLine]>
         (inflight w) /\
     settled (provideInlineCompletionItems input w).2 = settled w).
Proof.
  intros Hreach Hpath. pose proof (reachable_inv w Hreach) as Hinv.
  assert (Hline : exists l,
            lineAt (document input) (line (position input)) = Some l /\
            isPromptBasedGeneration
              (substring0 (character (position input)) l) = true).
  { unfold pathOf in Hpath. destruct (_ || _); [done|].
    destruct (lineAt _ _) as [l|]; [|done]. exists l. split; [done|].
    by destruct (isPromptBasedGeneration _). }
  destruct Hline as (l & Hl & Htrig).
  destruct (userPromptOf_total _ Htrig) as [userPrompt Hprompt].
  destruct (getFullMethodContext_total (document input) (position input))
    as [contextCode Hcx]; [by rewrite Hl|].
  unfold provideInlineCompletionItems. rewrite Hpath.
  cbn [fresh snd]. unfold handlePromptGeneration.
  change (isCancellationRequested (token input) (record_call _ _ _ _))
    with (isCancellationRequested (token input) w).
  rewrite Hl, Hprompt, Hcx.
  assert (Hq : forall q, pendingResolve (this w) = Some q ->
                         unsettled q w /\ q <> next w).
  { intros q Hp. destruct Hinv as [H0 Hpend]. unfold pending_ok in Hpend.
    rewrite Hp in Hpend. destruct Hpend as (i & _ & Hc & Hu & _).
    split; [done|]. assert (q < next w); [|lia].
    apply (inv_fresh_calls w H0). by rewrite Hc. }
  destruct (isCancellationRequested (token input) w) eqn:Ec; simpl.
  - split_and!; try done.
    intros q Hp. destruct (Hq q Hp) as [Hu Hne]. split; [done|].
    unfold unsettled. simpl. rewrite not_elem_of_cons. done.
  - split_and!; try done.
    + intros q Hp. by destruct (Hq q Hp).
    + intros _. by eexists _, _.
Qed.

Lemma prompt_call_skips_debounce_witness :
  reachable debouncing /\ pathOf prompt_input debouncing = Prompted /\
  this (provideInlineCompletionItems prompt_input debouncing).2 =
    this debouncing.
Proof.
  assert (Hr : reachable debouncing) by (repeat constructor).
  assert (Hp : pathOf prompt_input debouncing = Prompted) by by vm_compute.
  split; [exact Hr|]. split; [exact Hp|].
  apply (prompt_call_skips_debounce prompt_input debouncing Hr Hp).
Defined.

(** * Further properties of the code *)

Import Advanced AdvancedFacts.

(** ** The response cleaners *)

(** X1.  Whatever the reply, [cleanCompletion] returns the empty string
    or one line: text without a line feed, without white space at either
    end, that [looksLikeCode] accepts.  The result is a run of consecutive
    characters of the reply and holds no reasoning marker. *)
Theorem cleanCompletion_yields_one_code_line x :
  (cleanCompletion x = [] \/
   (~ In (Latin "010") (cleanCompletion x) /\
    looksLikeCode (cleanCompletion x) = true)) /\
  trimmed (cleanCompletion x) /\
  infix (cleanCompletion x) x /\
  find_marker (cleanCompletion x) = None.
Proof.
  split_and!.
  - destruct (cleanCompletion x) eqn:E; [by left|right].
    rewrite <- E. apply cleanCompletion_line. by rewrite E.
  - apply cleanCompletion_trimmed.
  - eapply infix_trans; [apply cleanCompletion_infix|apply strip_think_infix].
  - apply cleanCompletion_marker_free.
Qed.

(** X2.  A line that [looksLikeCode] accepts is not empty, starts with a
    letter, [_], [$], a digit, a quote, a bracket, a brace, [;] or an
    arithmetic operator, and holds none of the ten prose keywords in any
    letter case. *)
Theorem looksLikeCode_accepts line :
  looksLikeCode line = true ->
  (exists c t, line = c :: t /\ codeStart c = true) /\
  Forall (fun keyword => includes keyword (toLowerCase line) = false)
         looksLikeCode_keywords.
Proof.
  intros H. split.
  - destruct line as [|c t]; [done|]. exists c, t. split; [done|].
    by apply (looksLikeCode_start c t).
  - apply Forall_forall. intros kw Hkw.
    apply (looksLikeCode_no_keyword _ _ H). by apply list_elem_of_In.
Qed.

Lemma looksLikeCode_accepts_witness :
  looksLikeCode (str "return x;") = true /\
  exists c t, str "return x;" = c :: t /\ codeStart c = true.
Proof.
  assert (H : looksLikeCode (str "return x;") = true) by reflexivity.
  split; [exact H|]. exact (proj1 (looksLikeCode_accepts _ H)).
Defined.

(** X3.  Text without [<], without a backtick and without a colon goes
    through [cleanGeneratedCode] unchanged but for the white space at its
    ends: line feeds inside it are kept. *)
Theorem cleanGeneratedCode_keeps_plain_code x :
  ~ In (Latin "<") x -> ~ In (Latin "`") x -> ~ In (Latin ":") x ->
  cleanGeneratedCode x = trim x.
Proof. apply cleanGeneratedCode_plain. Qed.

Lemma cleanGeneratedCode_keeps_plain_code_witness :
  cleanGeneratedCode (str " let a = 1;" ++ nl ++ str "let b = 2; ") =
  str "let a = 1;" ++ nl ++ str "let b = 2;".
Proof.
  rewrite (cleanGeneratedCode_keeps_plain_code
             (str " let a = 1;" ++ nl ++ str "let b = 2; "));
    [reflexivity|..]; simpl; intuition discriminate.
Defined.

(** X4.  Of a block between two code fences, with no [<], backtick or
    colon inside, [cleanGeneratedCode] removes the two fences and one line
    feed after the opening one, and returns the rest trimmed: a language
    tag after the opening fence stays in the result. *)
Theorem cleanGeneratedCode_unwraps_fence inner :
  ~ In (Latin "<") inner -> ~ In (Latin "`") inner -> ~ In (Latin ":") inner ->
  cleanGeneratedCode (str "```" ++ inner ++ str "```") = trim inner.
Proof. apply cleanGeneratedCode_fenced. Qed.

Lemma cleanGeneratedCode_unwraps_fence_witness :
  cleanGeneratedCode
    (str "```" ++ (str "js" ++ nl ++ str "f(x);" ++ nl) ++ str "```") =
  str "js" ++ nl ++ str "f(x);".
Proof.
  rewrite (cleanGeneratedCode_unwraps_fence
             (str "js" ++ nl ++ str "f(x);" ++ nl));
    [reflexivity|..]; simpl; intuition discriminate.
Defined.

(** X5.  A reply of white space only, the empty reply included, is
    cleaned to the empty string by both cleaners, and neither mode makes a
    suggestion of it: the call resolves with null. *)
Theorem blank_reply_gives_no_suggestion x pos currentLine :
  all_space x ->
  cleanCompletion x = [] /\ cleanGeneratedCode x = [] /\
  completionOf (Some x) pos = None /\
  generatedOf (Some x) pos currentLine = None.
Proof.
  intros Hsp.
  assert (Ht : all_space (trim x))
    by (eapply all_space_infix; [apply trim_infix|done]).
  destruct (cleaners_blank x Hsp) as [H1 H2].
  destruct (cleaners_blank (trim x) Ht) as [H3 H4].
  split_and!; [done|done|..].
  - unfold completionOf. by rewrite H3.
  - unfold generatedOf. by rewrite H4.
Qed.

Lemma blank_reply_gives_no_suggestion_witness :
  all_space (str "  " ++ nl) /\
  completionOf (Some (str "  " ++ nl)) (mkPosition 1 9) = None.
Proof.
  assert (H : all_space (str "  " ++ nl)) by (by repeat constructor).
  split; [exact H|].
  exact (proj1 (proj2 (proj2 (blank_reply_gives_no_suggestion
           (str "  " ++ nl) (mkPosition 1 9) [] H)))).
Defined.

(** X6.  When the inline mode makes a suggestion of a response, it is
    one item that inserts at the cursor, replacing nothing; its text is the
    cleaned response: not empty, one line, accepted by [looksLikeCode],
    and a run of consecutive characters of the response. *)
Theorem completionOf_item content pos items :
  completionOf content pos = Some items ->
  exists text code,
    content = Some text /\ code = cleanCompletion (trim text) /\
    items = [mkItem code (pos, pos)] /\
    code <> [] /\ trimmed code /\ ~ In (Latin "010") code /\
    looksLikeCode code = true /\ infix code text.
Proof.
  intros H. destruct content as [text|]; [|done]. cbn [completionOf] in H.
  destruct (0 <? length (trim (cleanCompletion (trim text)))) eqn:E; [|done].
  inversion H; subst items. clear H.
  assert (Hne : cleanCompletion (trim text) <> []).
  { intros Hnil. by rewrite Hnil in E. }
  destruct (cleanCompletion_line _ Hne) as [Hnl Hc].
  exists text, (cleanCompletion (trim text)).
  split_and!; try done.
  - apply cleanCompletion_trimmed.
  - eapply infix_trans; [|apply trim_infix].
    eapply infix_trans; [apply cleanCompletion_infix|apply strip_think_infix].
Qed.

Lemma completionOf_item_witness :
  exists text code,
    Some (str " a + b; ") = Some text /\ code = cleanCompletion (trim text) /\
    [mkItem (str "a + b;") (mkPosition 1 9, mkPosition 1 9)]
      = [mkItem code (mkPosition 1 9, mkPosition 1 9)] /\
    code <> [] /\ trimmed code /\ ~ In (Latin "010") code /\
    looksLikeCode code = true /\ infix code text.
Proof.
  apply (completionOf_item (Some (str " a + b; ")) (mkPosition 1 9)).
  reflexivity.
Defined.

(** X7.  When the prompt mode makes a suggestion of a response, it is
    one item that inserts at the end of the prompt line, replacing
    nothing; its text is a line feed and then the cleaned response, which
    is not empty, has no white space at either end, holds no reasoning
    marker, and is a run of consecutive characters of the response. *)
Theorem generatedOf_item content pos currentLine items :
  generatedOf content pos currentLine = Some items ->
  exists text code,
    content = Some text /\ code = cleanGeneratedCode (trim text) /\
    items = [mkItem (nl ++ code)
               (mkPosition (line pos) (length currentLine),
                mkPosition (line pos) (length currentLine))] /\
    code <> [] /\ trimmed code /\ find_marker code = None /\
    infix code text.
Proof.
  intros H. destruct content as [text|]; [|done]. cbn [generatedOf] in H.
  destruct (0 <? length (trim (cleanGeneratedCode (trim text)))) eqn:E;
    [|done].
  inversion H; subst items. clear H.
  exists text, (cleanGeneratedCode (trim text)).
  split_and!; try done.
  - intros Hnil. by rewrite Hnil in E.
  - apply cleanGeneratedCode_trimmed.
  - apply cleanGeneratedCode_marker_free.
  - eapply infix_trans; [|apply trim_infix].
    eapply infix_trans;
      [apply cleanGeneratedCode_infix|apply strip_think_infix].
Qed.

Lemma generatedOf_item_witness :
  exists text code,
    Some (str "f(x); ") = Some text /\ code = cleanGeneratedCode (trim text) /\
    [mkItem (nl ++ str "f(x);") (mkPosition 0 51, mkPosition 0 51)]
      = [mkItem (nl ++ code)
           (mkPosition 0 (length email_prompt),
            mkPosition 0 (length email_prompt))] /\
    code <> [] /\ trimmed code /\ find_marker code = None /\
    infix code text.
Proof.
  apply (generatedOf_item (Some (str "f(x); ")) (mkPosition 0 51)
           email_prompt).
  reflexivity.
Defined.

(** ** The context of a request *)

(** X8.  [getFullMethodContext] fails only when the cursor line does not
    exist.  Otherwise the context is the lines from a start line to the
    line above the cursor, then the cursor line cut at the cursor, joined
    by line feeds: nothing after the cursor is in it.  The start line is
    at most 21 lines above the cursor, and it is a declaration line or the
    line 15 above the cursor (line 0 when there are fewer). *)
Theorem getFullMethodContext_window document position :
  (lineAt document (line position) = None ->
   getFullMethodContext document position = None) /\
  forall l,
    lineAt document (line position) = Some l ->
    exists startLine,
      contextStart document position = Some startLine /\
      startLine <= line position <= startLine + 21 /\
      ((exists d, lineAt document startLine = Some d /\
                  declarationLine d = true) \/
       startLine = line position - 15) /\
      getFullMethodContext document position =
        Some (join nl
                (take (line position - startLine)
                      (drop startLine (lines document)) ++
                 [substring0 (character position) l])).
Proof.
  split.
  - intros H. unfold getFullMethodContext. by rewrite H.
  - intros l Hl.
    destruct (getFullMethodContext_spec document position l Hl)
      as (startLine & Hs & Hle & Hctx).
    destruct (contextStart_spec document position startLine Hs) as [Hb Hd].
    exists startLine. split_and!; try done.
Qed.

Lemma getFullMethodContext_window_witness :
  exists startLine,
    contextStart sum_document (mkPosition 1 9) = Some startLine /\
    startLine <= 1 <= startLine + 21 /\
    ((exists d, lineAt sum_document startLine = Some d /\
                declarationLine d = true) \/
     startLine = 1 - 15) /\
    getFullMethodContext sum_document (mkPosition 1 9) =
      Some (join nl
              (take (1 - startLine) (drop startLine (lines sum_document)) ++
               [substring0 9 (str "  return ")])).
Proof.
  apply (proj2 (getFullMethodContext_window sum_document (mkPosition 1 9))
               (str "  return ")).
  reflexivity.
Defined.

(** X9.  When the cursor line, taken whole, is a declaration line (it
    holds [function ], [const ], [let ] or [var ], or starts like a
    call) and holds no closing brace, the context is the cursor line cut
    at the cursor and nothing else: no line above it is sent. *)
Theorem declaration_on_cursor_line document position l :
  lineAt document (line position) = Some l ->
  ~ In (Latin "}") l -> declarationLine l = true ->
  getFullMethodContext document position =
    Some (substring0 (character position) l).
Proof.
  intros Hl Hno Hd. unfold getFullMethodContext.
  rewrite Hl, (contextStart_cursor_line _ _ _ Hl Hno Hd).
  replace (S (line position) - line position) with 1 by lia.
  by rewrite collectLines_S, Nat.eqb_refl.
Qed.

Lemma declaration_on_cursor_line_witness :
  getFullMethodContext
    (mkDocument [str "import x"; str "const total = a + b"]
                (str "javascript") (str "t.js"))
    (mkPosition 1 14) = Some (str "const total = ").
Proof.
  apply (declaration_on_cursor_line
           (mkDocument [str "import x"; str "const total = a + b"]
                       (str "javascript") (str "t.js"))
           (mkPosition 1 14) (str "const total = a + b")).
  - reflexivity.
  - simpl. intuition discriminate.
  - reflexivity.
Defined.

(** ** The request coordinator *)

(** X10.  While the provider is disabled or has no key and no timer is
    armed, calls of the entry point, whatever their documents and cursors
    and however spaced in time, each resolve with null at once; no timer
    is armed and no request is sent. *)
Theorem disabled_provider_sends_nothing cs w ps w' :
  enabled (this w) = false \/ apiKey (this w) = [] ->
  timers w = [] ->
  provide_all cs w = (ps, w') ->
  sent w' = sent w /\ inflight w' = inflight w /\ timers w' = [] /\
  length ps = length cs /\
  forall p, p ∈ ps -> (p, Fulfilled None) ∈ settled w'.
Proof.
  intros Hoff Ht Hrun.
  destruct (refused_calls cs w ps w' Hoff Ht Hrun)
    as (Hs & Hi & Ht' & _ & _ & Hnull & Hlen).
  by split_and!.
Qed.

Lemma disabled_provider_sends_nothing_witness :
  sent (provide_all [(0, sum_input); (100, prompt_input)]
          (initial [] (str "sonar") true)).2 = ∅.
Proof.
  apply (disabled_provider_sends_nothing
           [(0, sum_input); (100, prompt_input)]
           (initial [] (str "sonar") true)
           (provide_all [(0, sum_input); (100, prompt_input)]
              (initial [] (str "sonar") true)).1).
  - right. reflexivity.
  - reflexivity.
  - apply surjective_pairing.
Defined.

(** X11.  After a call of the inline path, as long as less than the
    debounce delay has passed and no other event comes, the call is
    pending and unresolved, its timer is armed, and no request has been
    sent. *)
Theorem no_request_before_delay input w T :
  reachable w -> pathOf input w = Debounced ->
  T < clock w + debounceDelay ->
  sent (advance T (provideInlineCompletionItems input w).2) = sent w /\
  inflight (advance T (provideInlineCompletionItems input w).2)
    = inflight w /\
  timers (advance T (provideInlineCompletionItems input w).2)
    = [(S (next w), clock w + debounceDelay)] /\
  pendingResolve (this (advance T (provideInlineCompletionItems input w).2))
    = Some (next w) /\
  unsettled (next w) (advance T (provideInlineCompletionItems input w).2).
Proof.
  intros Hr Hpath HT.
  pose proof (reachable_inv w Hr) as Hinv.
  pose proof (inv_provide input w Hinv) as [_ Hpend1].
  rewrite (provide_debounced _ _ Hpath (proj2 Hinv)) in *. cbn [snd] in *.
  match goal with |- context [advance T ?x] => set (w1 := x) in * end.
  rewrite (advance_quiet (S (next w)) (clock w + debounceDelay) T w1)
    by done.
  split_and!; try done.
  unfold pending_ok in Hpend1. cbn [this pendingResolve w1] in Hpend1.
  by destruct Hpend1 as (i & _ & _ & Hu & _).
Qed.

Lemma no_request_before_delay_witness :
  sent (advance 499 (provideInlineCompletionItems sum_input ready).2) = ∅ /\
  timers (advance 499 (provideInlineCompletionItems sum_input ready).2)
    = [(1, 500)].
Proof.
  assert (Hr : reachable ready) by constructor.
  assert (Hp : pathOf sum_input ready = Debounced) by reflexivity.
  assert (HT : 499 < clock ready + debounceDelay)
    by (unfold debounceDelay; simpl; lia).
  pose proof (no_request_before_delay sum_input ready 499 Hr Hp HT)
    as (Hs & _ & Ht & _).
  split; [exact Hs|exact Ht].
Defined.

(** X12.  In every world the provider can reach, at most one timer is
    armed.  A pending request is unresolved and is in one of two phases:
    its timer is armed, due later than now and within the debounce delay
    from now, and no request was sent for it; or no timer is armed and
    exactly one request sent for it awaits its response.  With no pending
    request no timer is armed. *)
Theorem pending_request_is_served w :
  reachable w ->
  length (timers w) <= 1 /\
  match pendingResolve (this w) with
  | None => timers w = [] /\ lastDebounceInput (this w) = None
  | Some p =>
      unsettled p w /\
      ((exists h due,
          timers w = [(h, due)] /\
          clock w < due /\ due <= clock w + debounceDelay /\
          forall id pos, inflight w !! id <> Some (AwaitCompletion p pos))
       \/
       (timers w = [] /\
        exists id pos,
          inflight w !! id = Some (AwaitCompletion p pos) /\
          forall id' pos',
            inflight w !! id' = Some (AwaitCompletion p pos') -> id' = id))
  end.
Proof.
  intros Hr. pose proof (reachable_inv w Hr) as [_ Hpend].
  pose proof (reachable_timers_ok w Hr) as Hok.
  split.
  { destruct (pending_ok_timers w Hpend) as [->|(h & due & ->)];
      simpl; lia. }
  unfold pending_ok in Hpend.
  destruct (pendingResolve (this w)) as [p|]; [|by destruct Hpend].
  destruct Hpend as (input & _ & _ & Hu &
                     [(h & due & Ht & _ & Hno)|(Ht & id & Hid & Huniq)]).
  - split; [done|]. left. exists h, due.
    destruct (Hok h due) as [Hlo Hhi]; [rewrite Ht; by left|].
    by split_and!.
  - split; [done|]. right. split; [done|].
    by exists id, (position input).
Qed.

Lemma pending_request_is_served_witness :
  length (timers debouncing) <= 1 /\
  match pendingResolve (this debouncing) with
  | None => timers debouncing = [] /\ lastDebounceInput (this debouncing) = None
  | Some p =>
      unsettled p debouncing /\
      ((exists h due,
          timers debouncing = [(h, due)] /\
          clock debouncing < due /\
          due <= clock debouncing + debounceDelay /\
          forall id pos,
            inflight debouncing !! id <> Some (AwaitCompletion p pos))
       \/
       (timers debouncing = [] /\
        exists id pos,
          inflight debouncing !! id = Some (AwaitCompletion p pos) /\
          forall id' pos',
            inflight debouncing !! id' = Some (AwaitCompletion p pos') ->
            id' = id))
  end.
Proof.
  apply (pending_request_is_served debouncing). repeat constructor.
Defined.

(** X13.  A change of configuration while a request is debouncing does
    not stop it, not even one that disables the provider or removes the
    key: when the timer expires, with the token not cancelled, the request
    is sent, and it names the model of the new configuration. *)
Theorem configuration_read_at_expiry w p input h due t T key mdl on
    contextCode :
  pendingResolve (this w) = Some p ->
  lastDebounceInput (this w) = Some input ->
  timers w = [(h, due)] -> t < due -> due <= T ->
  isCancellationRequested (token input) w = false ->
  getFullMethodContext (document input) (position input) = Some contextCode ->
  sent (advance T (deliver t (Configure key mdl on) w)) =
    <[next w := completionRequest mdl contextCode
                  (languageId (document input)) (fileName (document input))]>
      (sent w) /\
  inflight (advance T (deliver t (Configure key mdl on) w)) =
    <[next w := AwaitCompletion p (position input)]> (inflight w) /\
  settled (advance T (deliver t (Configure key mdl on) w)) = settled w /\
  timers (advance T (deliver t (Configure key mdl on) w)) = [] /\
  pendingResolve (this (advance T (deliver t (Configure key mdl on) w)))
    = Some p.
Proof.
  intros Hp Hl Ht Hlt Hle Hc Hcx. unfold deliver.
  rewrite (advance_quiet _ _ _ _ Ht Hlt). cbn [handle].
  set (w1 := updateConfiguration _ _ _ _).
  assert (Ht1 : timers w1 = [(h, due)]) by done.
  rewrite (advance_due _ _ _ _ Ht1 Hle).
  rewrite (fire_dispatch h p input contextCode w1 Hp Hl Hc Hcx).
  cbn [sent inflight timers settled set_clock post fresh clearTimeout
         set_timers next this pendingResolve].
  subst w1.
  cbn [timers updateConfiguration set_this set_clock this model next sent
         inflight settled pendingResolve].
  rewrite Ht. rewrite filter_cons_False; [done|]. simpl. tauto.
Qed.

Lemma configuration_read_at_expiry_witness :
  sent (advance 500 (deliver 10 (Configure [] (str "sonar-pro") false)
                       debouncing)) =
  <[next debouncing :=
      completionRequest (str "sonar-pro")
        (str "function calculateSum(a, b) {" ++ nl ++ str "  return ")
        (languageId (document sum_input)) (fileName (document sum_input))]>
    (sent debouncing).
Proof.
  assert (Hp : pendingResolve (this debouncing) = Some 0) by reflexivity.
  assert (Hl : lastDebounceInput (this debouncing) = Some sum_input)
    by reflexivity.
  assert (Ht : timers debouncing = [(1, 500)]) by reflexivity.
  assert (Hc : isCancellationRequested (token sum_input) debouncing = false)
    by reflexivity.
  assert (Hcx : getFullMethodContext (document sum_input)
                  (position sum_input) =
                Some (str "function calculateSum(a, b) {" ++ nl ++
                      str "  return ")) by reflexivity.
  refine (proj1 (configuration_read_at_expiry debouncing 0 sum_input 1 500
                   10 500 [] (str "sonar-pro") false _ Hp Hl Ht _ _ Hc Hcx));
    lia.
Defined.

(** X14.  When the response to a request of the prompt mode arrives, the
    promise of the call that sent it, unsettled until then, is resolved
    with the suggestion made from the response; the request is no longer
    in flight, and the provider object, the timers and the requests sent
    stay as they are. *)
Theorem generated_response_settles_its_call w id content p pos currentLine :
  reachable w ->
  inflight w !! id = Some (AwaitGenerated p pos currentLine) ->
  settled (respond id content w) =
    (p, Fulfilled (generatedOf content pos currentLine)) :: settled w /\
  unsettled p w /\
  (exists input, calls w !! p = Some (Prompted, input)) /\
  inflight (respond id content w) = delete id (inflight w) /\
  this (respond id content w) = this w /\
  timers (respond id content w) = timers w /\
  sent (respond id content w) = sent w.
Proof.
  intros Hr Hid. pose proof (reachable_inv w Hr) as [H0 _].
  destruct (inv_gen w H0 id p pos currentLine Hid) as (_ & Hu & Hc).
  unfold respond. rewrite Hid. by split_and!.
Qed.

Lemma generated_response_settles_its_call_witness :
  settled (respond 1 (Some (str "f(x);"))
             (deliver 0 (Provide prompt_input) ready)) =
  [(0, Fulfilled (generatedOf (Some (str "f(x);")) (mkPosition 0 51)
                    email_prompt))].
Proof.
  assert (Hr : reachable (deliver 0 (Provide prompt_input) ready))
    by apply reach_deliver, reach_initial.
  assert (Hi : inflight (deliver 0 (Provide prompt_input) ready) !! 1 =
               Some (AwaitGenerated 0 (mkPosition 0 51) email_prompt))
    by (by vm_compute).
  exact (proj1 (generated_response_settles_its_call _ 1
                  (Some (str "f(x);")) 0 (mkPosition 0 51) email_prompt
                  Hr Hi)).
Defined.

(** X15.  When the response to the request of the pending promise
    arrives, the provider is idle afterwards: nothing is pending, no timer
    is armed, no promise of the inline path is left unsettled, and the
    request is no longer in flight, so that a second response to it
    changes nothing. *)
Theorem provider_idle_after_response w id content content' p pos :
  reachable w ->
  inflight w !! id = Some (AwaitCompletion p pos) ->
  pendingResolve (this w) = Some p ->
  pendingResolve (this (respond id content w)) = None /\
  lastDebounceInput (this (respond id content w)) = None /\
  timers (respond id content w) = [] /\
  live_promises (respond id content w) = [] /\
  inflight (respond id content w) = delete id (inflight w) /\
  respond id content' (respond id content w) = respond id content w.
Proof.
  intros Hr Hid Hp.
  pose proof (inv_respond id content w (reachable_inv w Hr)) as Hinv'.
  assert (Hw : respond id content w =
               set_this (fun t =>
                 mkProvider (apiKey t) (model t) (enabled t) None None
                            (debounceTimer t))
                 (resolve p (completionOf content pos)
                    (set_inflight (delete id) w))).
  { unfold respond, complete. rewrite Hid.
    change (pendingResolve (this (set_inflight (delete id) w)))
      with (pendingResolve (this w)).
    by rewrite Hp, bool_decide_eq_true_2. }
  assert (Hnone : pendingResolve (this (respond id content w)) = None)
    by (by rewrite Hw).
  split_and!.
  - done.
  - by rewrite Hw.
  - destruct Hinv' as [_ Hpend]. unfold pending_ok in Hpend.
    rewrite Hnone in Hpend. by destruct Hpend.
  - destruct (live_promises (respond id content w)) as [|q l] eqn:E; [done|].
    assert (Hq : q ∈ live_promises (respond id content w))
      by (rewrite E; by left).
    apply (live_promises_pending _ _ Hinv') in Hq. congruence.
  - by rewrite Hw.
  - unfold respond at 1.
    assert (Hgone : inflight (respond id content w) !! id = None).
    { rewrite Hw. cbn [inflight set_this resolve set_inflight].
      apply lookup_delete_eq. }
    by rewrite Hgone.
Qed.

Lemma provider_idle_after_response_witness :
  pendingResolve (this (respond 2 (Some (str "a + b;")) dispatched)) = None /\
  live_promises (respond 2 (Some (str "a + b;")) dispatched) = [].
Proof.
  assert (Hr : reachable dispatched) by (repeat constructor).
  assert (Hi : inflight dispatched !! 2
               = Some (AwaitCompletion 0 (mkPosition 1 9))) by (by vm_compute).
  assert (Hp : pendingResolve (this dispatched) = Some 0) by (by vm_compute).
  pose proof (provider_idle_after_response dispatched 2
                (Some (str "a + b;")) None 0 (mkPosition 1 9) Hr Hi Hp)
    as (H1 & _ & _ & H2 & _).
  split; [exact H1|exact H2].
Defined.

(** X16.  A call with a key, enabled, whose cursor line does not exist
    in the document: the promise returned is rejected at once; no timer is
    armed, no request is sent, and a pending inline request stays pending
    and unresolved. *)
Theorem call_outside_document_is_rejected input w :
  reachable w ->
  enabled (this w) = true -> apiKey (this w) <> [] ->
  lineAt (document input) (line (position input)) = None ->
  settled (provideInlineCompletionItems input w).2 =
    (next w, Rejected) :: settled w /\
  this (provideInlineCompletionItems input w).2 = this w /\
  timers (provideInlineCompletionItems input w).2 = timers w /\
  sent (provideInlineCompletionItems input w).2 = sent w /\
  inflight (provideInlineCompletionItems input w).2 = inflight w /\
  forall q, pendingResolve (this w) = Some q ->
            unsettled q (provideInlineCompletionItems input w).2.
Proof.
  intros Hr He Hk Hl. pose proof (reachable_inv w Hr) as [H0 Hpend].
  assert (Hpath : pathOf input w = Threw).
  { unfold pathOf. rewrite He, bool_decide_eq_false_2 by done.
    simpl. by rewrite Hl. }
  unfold provideInlineCompletionItems. rewrite Hpath. cbn [fresh snd].
  split_and!; try done.
  intros q Hq. unfold pending_ok in Hpend. rewrite Hq in Hpend.
  destruct Hpend as (i & _ & Hc & Hu & _).
  assert (q < next w) by (apply (inv_fresh_calls w H0); by rewrite Hc).
  unfold unsettled. simpl. rewrite not_elem_of_cons. split; [lia|done].
Qed.

Lemma call_outside_document_is_rejected_witness :
  settled (provideInlineCompletionItems
             (mkInput sum_document (mkPosition 2 0) 3) debouncing).2 =
  [(2, Rejected)].
Proof.
  assert (Hr : reachable debouncing) by apply reach_deliver, reach_initial.
  refine (proj1 (call_outside_document_is_rejected
                   (mkInput sum_document (mkPosition 2 0) 3) debouncing
                   Hr _ _ _)); [reflexivity|done|reflexivity].
Defined.

(** ** The caching provider *)

(** X17.  [getExtendedContext] never fails.  When the cursor line
    exists, the context is the lines above the cursor, at most 20 of them,
    then the cursor line cut at the cursor and followed by the mark
    [<CURSOR>], then the lines below, at most 5, joined by line feeds.
    With the cursor below the last line the context is lines of the
    document only, without the mark. *)
Theorem getExtendedContext_window document position :
  is_Some (getExtendedContext document position) /\
  (forall l,
     lineAt document (line position) = Some l ->
     exists before after,
       getExtendedContext document position =
         Some (join nl
                 (before ++
                  [substring0 (character position) l ++ cursorMark] ++
                  after)) /\
       before = take (line position - (line position - 20))
                     (drop (line position - 20) (lines document)) /\
       after = take 5 (drop (S (line position)) (lines document)) /\
       length before = Nat.min 20 (line position) /\
       length after = Nat.min 5 (length (lines document) - S (line position)))
  /\
  (length (lines document) <= line position ->
   getExtendedContext document position =
     Some (join nl (drop (line position - 20) (lines document)))).
Proof.
  split_and!.
  - destruct (lineAt document (line position)) as [l|] eqn:E.
    + by rewrite (getExtendedContext_at _ _ _ E).
    + rewrite getExtendedContext_beyond; [done|].
      by apply lookup_ge_None in E.
  - intros l Hl. eexists _, _. split; [by apply getExtendedContext_at|].
    split; [done|]. split; [done|].
    apply lookup_lt_Some in Hl.
    rewrite !length_take, !length_drop. lia.
  - apply getExtendedContext_beyond.
Qed.

Lemma getExtendedContext_window_witness :
  exists before after,
    getExtendedContext sum_document (mkPosition 0 9) =
      Some (join nl (before ++
                     [substring0 9 (str "function calculateSum(a, b) {") ++
                      cursorMark] ++ after)) /\
    before = take (0 - (0 - 20)) (drop (0 - 20) (lines sum_document)) /\
    after = take 5 (drop 1 (lines sum_document)) /\
    length before = Nat.min 20 0 /\
    length after = Nat.min 5 (length (lines sum_document) - 1).
Proof.
  apply (proj1 (proj2 (getExtendedContext_window sum_document
                         (mkPosition 0 9)))
               (str "function calculateSum(a, b) {")).
  reflexivity.
Defined.

(** X18.  The number [generateCacheKey] prints is the polynomial hash
    of the context with multiplier 31, wrapped into the signed 32-bit
    range; two contexts get the same key exactly when their polynomial
    hashes agree modulo 2^32. *)
Theorem generateCacheKey_polynomial a b :
  contextHash a = to_int32 (polyHash a) /\
  (- 2 ^ 31 <= contextHash a < 2 ^ 31)%Z /\
  (generateCacheKey a = generateCacheKey b <->
   (polyHash a mod 2 ^ 32 = polyHash b mod 2 ^ 32)%Z).
Proof.
  split; [|split].
  - apply contextHash_poly.
  - rewrite contextHash_poly. apply to_int32_range.
  - split.
    + intros H%generateCacheKey_inj. rewrite !contextHash_poly in H.
      by rewrite <- (to_int32_mod (polyHash a)), H, to_int32_mod.
    + intros H. apply generateCacheKey_inj. rewrite !contextHash_poly.
      by apply to_int32_congr.
Qed.

(** X19.  Two contexts that differ only in that one has [Aa] where the
    other has [BB] get the same cache key: a completion stored for the
    one is returned for the other while the entry is fresh, and no request
    is sent. *)
Theorem colliding_contexts_share_entry model cache t0 now d1 p1 d2 p2 u v
    reply c :
  getExtendedContext d1 p1 = Some (u ++ str "Aa" ++ v) ->
  getExtendedContext d2 p2 = Some (u ++ str "BB" ++ v) ->
  requestCompletion_result reply = Some c ->
  (now - t0 < cacheTimeout)%Z ->
  generateCacheKey (u ++ str "Aa" ++ v) = generateCacheKey (u ++ str "BB" ++ v)
  /\
  getAdvancedCompletion_lookup model
    (getAdvancedCompletion_store cache t0
       (generateCacheKey (u ++ str "Aa" ++ v)) reply).2
    now d2 p2 = Some (CacheHit c).
Proof.
  intros H1 H2 Hr Hnow.
  assert (Hk : generateCacheKey (u ++ str "Aa" ++ v) =
               generateCacheKey (u ++ str "BB" ++ v)).
  { apply generateCacheKey_inj.
    by rewrite !contextHash_poly, polyHash_collision. }
  split; [done|].
  unfold getAdvancedCompletion_store. rewrite Hr. cbn [snd]. rewrite Hk.
  rewrite (lookup_stored _ _ _ _ _ _ _ _ H2).
  by rewrite (proj2 (Z.ltb_lt _ _) Hnow).
Qed.

Lemma colliding_contexts_share_entry_witness :
  getAdvancedCompletion_lookup (str "sonar")
    (getAdvancedCompletion_store ∅ 0
       (generateCacheKey ([] ++ str "Aa" ++ cursorMark))
       (Some (str "x"))).2
    1000
    (mkDocument [str "BB"] (str "javascript") (str "b.js")) (mkPosition 0 2)
  = Some (CacheHit (str "x")).
Proof.
  refine (proj2 (colliding_contexts_share_entry (str "sonar") ∅ 0 1000
                   (mkDocument [str "Aa"] (str "javascript") (str "a.js"))
                   (mkPosition 0 2)
                   (mkDocument [str "BB"] (str "javascript") (str "b.js"))
                   (mkPosition 0 2) [] cursorMark (Some (str "x")) (str "x")
                   _ _ _ _)); [reflexivity|reflexivity|reflexivity|].
  unfold cacheTimeout. lia.
Defined.

(** X20.  After a miss whose request was answered with text that is not
    blank, the answer trimmed is returned and stored under the key of the
    context: the same document and cursor get it from the cache, with no
    request, while less than five minutes have passed since it was
    stored, and miss again, with the same key and request, from then
    on. *)
Theorem cache_round_trip model cache t0 t1 now document position key r
    reply c :
  getAdvancedCompletion_lookup model cache t0 document position
    = Some (CacheMiss key r) ->
  requestCompletion_result reply = Some c ->
  (getAdvancedCompletion_store cache t1 key reply).1 = Some c /\
  ((now - t1 < cacheTimeout)%Z ->
   getAdvancedCompletion_lookup model
     (getAdvancedCompletion_store cache t1 key reply).2 now
     document position = Some (CacheHit c)) /\
  ((cacheTimeout <= now - t1)%Z ->
   getAdvancedCompletion_lookup model
     (getAdvancedCompletion_store cache t1 key reply).2 now
     document position = Some (CacheMiss key r)).
Proof.
  intros Hmiss Hr.
  destruct (lookup_miss_key _ _ _ _ _ _ _ Hmiss) as (context & Hc & -> & ->).
  unfold getAdvancedCompletion_store. rewrite Hr. cbn [fst snd].
  rewrite (lookup_stored _ _ _ _ _ _ _ _ Hc).
  split; [done|]. split; intros H.
  - by rewrite (proj2 (Z.ltb_lt _ _) H).
  - by rewrite (proj2 (Z.ltb_ge _ _) H).
Qed.

Lemma cache_round_trip_witness :
  getAdvancedCompletion_lookup (str "sonar")
    (getAdvancedCompletion_store ∅ 40
       (generateCacheKey (str "function<CURSOR>" ++ nl ++ str "  return "))
       (Some (str " f() "))).2
    300039 sum_document (mkPosition 0 8)
  = Some (CacheHit (str "f()")).
Proof.
  refine (proj1 (proj2 (cache_round_trip (str "sonar") ∅ 0 40 300039
                          sum_document (mkPosition 0 8) _ _
                          (Some (str " f() ")) (str "f()") _ _)) _);
    [reflexivity|reflexivity|].
  unfold cacheTimeout. lia.
Defined.

(** X21.  A call that failed, a response without content and a response
    of white space only are not cached and give null; any other response
    is cached and returned trimmed. *)
Theorem blank_reply_not_cached cache now key reply :
  ((reply = None \/ exists text, reply = Some text /\ all_space text) ->
   getAdvancedCompletion_store cache now key reply = (None, cache)) /\
  (forall text,
     reply = Some text -> ~ all_space text ->
     getAdvancedCompletion_store cache now key reply =
       (Some (trim text), <[key := mkEntry (trim text) now]> cache)).
Proof.
  split.
  - intros [->|(text & -> & Hsp)]; [done|].
    unfold getAdvancedCompletion_store, requestCompletion_result.
    by rewrite (proj2 (trim_nil_all_space text) Hsp).
  - intros text -> Hns.
    unfold getAdvancedCompletion_store, requestCompletion_result.
    destruct (trim text) as [|a t] eqn:E; [|done].
    destruct Hns. by apply trim_nil_all_space.
Qed.

Lemma blank_reply_not_cached_witness :
  getAdvancedCompletion_store ∅ 40 (generateCacheKey (str "x"))
    (Some (str "  " ++ nl)) = (None, ∅).
Proof.
  apply (proj1 (blank_reply_not_cached ∅ 40 (generateCacheKey (str "x"))
                  (Some (str "  " ++ nl)))).
  right. exists (str "  " ++ nl). split; [reflexivity|].
  by repeat constructor.
Defined.

(** X22.  Storing the answer for one context changes nothing for a
    document and cursor whose context has another hash: the cache answers
    them as before. *)
Theorem cache_store_leaves_other_contexts model cache t1 now stored reply
    document position context :
  getExtendedContext document position = Some context ->
  contextHash context <> contextHash stored ->
  getAdvancedCompletion_lookup model
    (getAdvancedCompletion_store cache t1 (generateCacheKey stored) reply).2
    now document position =
  getAdvancedCompletion_lookup model cache now document position.
Proof.
  intros Hc Hne. unfold getAdvancedCompletion_store.
  destruct (requestCompletion_result reply) as [c|]; [|done]. cbn [snd].
  unfold getAdvancedCompletion_lookup. rewrite Hc.
  rewrite lookup_insert_ne; [done|].
  intros H. apply generateCacheKey_inj in H. congruence.
Qed.

Lemma cache_store_leaves_other_contexts_witness :
  getAdvancedCompletion_lookup (str "sonar")
    (getAdvancedCompletion_store ∅ 40 (generateCacheKey (str "a"))
       (Some (str "x"))).2
    50 (mkDocument [str "b"] (str "javascript") (str "b.js")) (mkPosition 0 1)
  = getAdvancedCompletion_lookup (str "sonar") ∅
      50 (mkDocument [str "b"] (str "javascript") (str "b.js"))
      (mkPosition 0 1).
Proof.
  apply (cache_store_leaves_other_contexts (str "sonar") ∅ 40 50 (str "a")
           (Some (str "x"))
           (mkDocument [str "b"] (str "javascript") (str "b.js"))
           (mkPosition 0 1) (str "b<CURSOR>")).
  - reflexivity.
  - by vm_compute.
Defined.

(** ** The request of the prompt mode *)

(** X23.  A call with a key, enabled, its token not cancelled, on a line
    whose prefix, trimmed, is [// ] and then text with a character other
    than white space: the call itself sends one request, the generation
    request for the first line of that text, trimmed (the text from its
    first character that is no white space up to the first line
    terminator after it), with the context of the cursor and the model in
    force, and waits for its response. *)
Theorem prompt_call_sends_the_prompt input w l rest :
  enabled (this w) = true -> apiKey (this w) <> [] ->
  isCancellationRequested (token input) w = false ->
  lineAt (document input) (line (position input)) = Some l ->
  trim (substring0 (character (position input)) l) = str "// " ++ rest ->
  (exists c, In c rest /\ is_space c = false) ->
  exists contextCode,
    getFullMethodContext (document input) (position input)
      = Some contextCode /\
    sent (provideInlineCompletionItems input w).2 =
      <[S (next w) :=
          generationRequest (model (this w))
            (trim (first_line (trimStart rest))) contextCode
            (languageId (document input)) (fileName (document input))]>
        (sent w) /\
    inflight (provideInlineCompletionItems input w).2 =
      <[S (next w) := AwaitGenerated (next w) (position input) l]>
        (inflight w) /\
    settled (provideInlineCompletionItems input w).2 = settled w.
Proof.
  intros He Hk Hc Hl Htrim Hrest.
  assert (Htrig : isPromptBasedGeneration
                    (substring0 (character (position input)) l) = true).
  { apply isPromptBasedGeneration_spec. by exists rest. }
  assert (Hpath : pathOf input w = Prompted).
  { unfold pathOf. rewrite He, bool_decide_eq_false_2 by done.
    simpl. by rewrite Hl, Htrig. }
  destruct (getFullMethodContext_total (document input) (position input))
    as [contextCode Hcx]; [by rewrite Hl|].
  exists contextCode. split; [done|].
  unfold provideInlineCompletionItems. rewrite Hpath. cbn [fresh snd].
  unfold handlePromptGeneration.
  change (isCancellationRequested (token input) (record_call _ _ _ _))
    with (isCancellationRequested (token input) w).
  rewrite Hc, Hl, (userPromptOf_first_line _ rest Htrim Hrest), Hcx.
  by split_and!.
Qed.

Lemma prompt_call_sends_the_prompt_witness :
  exists contextCode,
    getFullMethodContext (document prompt_input) (position prompt_input)
      = Some contextCode /\
    sent (provideInlineCompletionItems prompt_input ready).2 =
      <[S (next ready) :=
          generationRequest (model (this ready))
            (trim (first_line (trimStart
               (str "create a function that validates email addresses"))))
            contextCode
            (languageId (document prompt_input))
            (fileName (document prompt_input))]>
        (sent ready) /\
    inflight (provideInlineCompletionItems prompt_input ready).2 =
      <[S (next ready) :=
          AwaitGenerated (next ready) (position prompt_input) email_prompt]>
        (inflight ready) /\
    settled (provideInlineCompletionItems prompt_input ready).2
      = settled ready.
Proof.
  apply (prompt_call_sends_the_prompt prompt_input ready email_prompt
           (str "create a function that validates email addresses")).
  - reflexivity.
  - done.
  - reflexivity.
  - reflexivity.
  - reflexivity.
  - exists (Latin "c"). split; [by left|reflexivity].
Defined.
